(** * Quaoar ring occultation simulator: a shallow embedding

    Source: [Photometry/QuaoarRingOccs_v01-AAS-noplot.py].

    The script builds a ring-segment aperture ([RingSeg_ap]), sends it
    through Trester's one-transform Fresnel propagator ([occ_lc]) and
    normalises one row of the observers' plane by the median of a leading
    window.

    Conventions of the embedding.
    - A NumPy float is a real number of the Standard Library ([R]); a NumPy
      complex is a pair of reals.  Rounding, [nan] and [inf] are outside the
      model, so every statement below is a statement of exact arithmetic.
    - A 2-D array is a list of rows.  A NumPy array is rectangular, which
      lists are not by construction: the predicate [rect] says so.
    - A Python exception is a value [Raise e] of the type [result]; the
      calls are sequenced with the bind of that type.
    - [scipy.fft.fft2] is a library routine; it is modelled by its
      documented definition, the unnormalised forward 2-D transform, and
      by its refusal of an axis without data points. *)

From Stdlib Require Import Reals Lra Lia List ZArith Bool PeanoNat.
From Stdlib Require Import Sorted Permutation.
Import ListNotations.

(* ================================================================= *)
(** ** Python exceptions and the result type *)

Module Py.

Inductive error : Type :=
| ValueError          (* NumPy broadcasting, sizes in a masked store,
                         an interpolant queried outside its table *)
| ZeroDivisionError.  (* a Python scalar divided by the integer 0 *)

Inductive result (A : Type) : Type :=
| Ok (a : A)
| Raise (e : error).

Arguments Ok {A} a.
Arguments Raise {A} e.

Definition bind {A B : Type} (m : result A) (k : A -> result B) : result B :=
  match m with
  | Ok a => k a
  | Raise e => Raise e
  end.

End Py.
Import Py.

Declare Scope py_scope.
Delimit Scope py_scope with py.
Notation "x <- m ;; k" := (Py.bind m (fun x => k))
  (at level 61, m at next level, right associativity) : py_scope.
Open Scope py_scope.

(* ================================================================= *)
(** ** Complex numbers as NumPy computes with them *)

Module Cx.
Local Open Scope R_scope.

Definition C : Type := (R * R)%type.

Definition RtoC (x : R) : C := (x, 0).
Definition C0 : C := (0, 0).
Definition Ci : C := (0, 1).                       (* the literal [1j] *)

Definition Cre (z : C) : R := fst z.               (* [np.real] *)
Definition Cim (z : C) : R := snd z.
Definition Cplus (z w : C) : C := (fst z + fst w, snd z + snd w).
Definition Cmult (z w : C) : C :=
  (fst z * fst w - snd z * snd w, fst z * snd w + snd z * fst w).
Definition Cconj (z : C) : C := (fst z, - snd z).  (* [np.conj] *)
Definition Cscal (x : R) (z : C) : C := (x * fst z, x * snd z).
Definition Cdivr (z : C) (x : R) : C := (fst z / x, snd z / x).
Definition Cexp (z : C) : C :=                     (* [np.exp] *)
  (exp (fst z) * cos (snd z), exp (fst z) * sin (snd z)).

(** Squared modulus, the quantity the propagator returns. *)
Definition Cnorm2 (z : C) : R := fst z * fst z + snd z * snd z.

Definition Csum (l : list C) : C := fold_right Cplus C0 l.

End Cx.
Import Cx.

(* ================================================================= *)
(** ** The NumPy and SciPy operations the script calls *)

Module Np.
Local Open Scope R_scope.

Definition matrix (A : Type) : Type := list (list A).

(** [a.shape] of a 2-D array. *)
Definition shape {A} (a : matrix A) : nat * nat :=
  (length a, match a with [] => O | r :: _ => length r end).

Definition rect {A} (a : matrix A) : Prop :=
  Forall (fun r => length r = snd (shape a)) a.

(** A square array of side [n]. *)
Definition square {A} (n : nat) (a : matrix A) : Prop :=
  length a = n /\ Forall (fun r => length r = n) a.

(** [a[r, c]] for indices in range. *)
Definition get {A} (d : A) (a : matrix A) (r c : nat) : A :=
  nth c (nth r a []) d.

Fixpoint map2 {A B X} (f : A -> B -> X) (l : list A) (m : list B) : list X :=
  match l, m with
  | a :: l', b :: m' => f a b :: map2 f l' m'
  | _, _ => []
  end.

(** [np.ones((m, n))]. *)
Definition ones (m n : nat) : matrix R := repeat (repeat 1 n) m.

(** [np.outer(u, v)]. *)
Definition outer (u v : list R) : matrix R :=
  map (fun y => map (fun x => y * x) v) u.

(** [np.indices((n, n))]: the row-index grid and the column-index grid. *)
Definition indices (n : nat) : matrix R * matrix R :=
  (map (fun r => map (fun _ => INR r) (seq 0 n)) (seq 0 n),
   map (fun _ => map (fun c => INR c) (seq 0 n)) (seq 0 n)).

(** *** Broadcasting of an elementwise product of two 2-D arrays *)

Definition bdim (m n : nat) : option nat :=
  if Nat.eqb m n then Some m
  else if Nat.eqb m 1 then Some n
  else if Nat.eqb n 1 then Some m
  else None.

Definition stretch {A} (n : nat) (l : list A) : list A :=
  match l with
  | [x] => repeat x n
  | _ => l
  end.

Definition broadcast_to {A} (m n : nat) (a : matrix A) : matrix A :=
  stretch m (map (stretch n) a).

Definition bmul (a b : matrix C) : result (matrix C) :=
  match bdim (fst (shape a)) (fst (shape b)),
        bdim (snd (shape a)) (snd (shape b)) with
  | Some m, Some n =>
      Ok (map2 (map2 Cmult) (broadcast_to m n a) (broadcast_to m n b))
  | _, _ => Raise ValueError
  end.

(** *** [np.roll] along one axis *)

Definition roll {A} (s : nat) (l : list A) : list A :=
  let n := length l in
  match n with
  | O => l
  | _ => let k := (s mod n)%nat in skipn (n - k) l ++ firstn (n - k) l
  end.

Definition roll0 {A} (s : nat) (a : matrix A) : matrix A := roll s a.
Definition roll1 {A} (s : nat) (a : matrix A) : matrix A := map (roll s) a.

(** *** [scipy.fft.fft2]: unnormalised forward transform over both axes *)

(** exp(-2 pi i m / n) *)
Definition omega (n m : nat) : C :=
  Cexp (Cscal (- (2 * PI * INR m / INR n)) Ci).

Definition fft2_values (M : matrix C) : matrix C :=
  let nr := fst (shape M) in
  let nc := snd (shape M) in
  map (fun k =>
    map (fun l =>
      Csum (map (fun r =>
        Csum (map (fun c =>
          Cmult (get C0 M r c)
                (Cmult (omega nr (k * r)) (omega nc (l * c))))
          (seq 0 nc)))
        (seq 0 nr)))
      (seq 0 nc))
    (seq 0 nr).

(** SciPy raises [ValueError] (invalid number of data points) when an axis
    to transform has length zero. *)
Definition fft2 (M : matrix C) : result (matrix C) :=
  if Nat.eqb (fst (shape M)) 0 || Nat.eqb (snd (shape M)) 0
  then Raise ValueError
  else Ok (fft2_values M).

(** *** Boolean masks: [a[mask]] and [a[mask] = vals] *)

Definition Rleb (x y : R) : bool := if Rle_dec x y then true else false.

Fixpoint select_row {A} (mask : list bool) (row : list A) : list A :=
  match mask, row with
  | m :: mask', x :: row' =>
      if m then x :: select_row mask' row' else select_row mask' row'
  | _, _ => []
  end.

(** [a[mask]]: the selected cells in row-major order. *)
Fixpoint select {A} (mask : matrix bool) (a : matrix A) : list A :=
  match mask, a with
  | m :: mask', r :: a' => select_row m r ++ select mask' a'
  | _, _ => []
  end.

Definition count_true (mask : matrix bool) : nat :=
  length (select mask mask).

(** One row of the masked store: the values are consumed from the front
    of [vals]; what is left goes on to the next row. *)
Fixpoint store_row {A} (mask : list bool) (row vals : list A)
  : list A * list A :=
  match mask, row with
  | m :: mask', x :: row' =>
      if m then
        match vals with
        | v :: vals' =>
            let (out, rest) := store_row mask' row' vals' in (v :: out, rest)
        | [] =>
            let (out, rest) := store_row mask' row' [] in (x :: out, rest)
        end
      else
        let (out, rest) := store_row mask' row' vals in (x :: out, rest)
  | _, _ => (row, vals)
  end.

Fixpoint store {A} (mask : matrix bool) (a : matrix A) (vals : list A)
  : matrix A :=
  match mask, a with
  | m :: mask', r :: a' =>
      let (out, rest) := store_row m r vals in out :: store mask' a' rest
  | _, _ => a
  end.

(** [a[mask] = vals] for a 1-D [vals]: NumPy refuses a value count that is
    neither the number of selected cells nor one. *)
Definition setitem_mask {A} (a : matrix A) (mask : matrix bool)
           (vals : list A) : result (matrix A) :=
  if Nat.eqb (length vals) (count_true mask) then Ok (store mask a vals)
  else match vals with
       | [v] => Ok (store mask a (repeat v (count_true mask)))
       | _ => Raise ValueError
       end.

(** *** [np.median]

    The sorted middle element, or the mean of the two middle elements.  Of
    an empty array NumPy answers [nan]; the statements below take the list
    non-empty. *)

Fixpoint insert (x : R) (l : list R) : list R :=
  match l with
  | [] => [x]
  | y :: l' => if Rleb x y then x :: l else y :: insert x l'
  end.

Definition sort (l : list R) : list R := fold_right insert [] l.

Definition median (l : list R) : R :=
  let s := sort l in
  let n := length l in
  if Nat.even n
  then (nth (n / 2 - 1) s 0 + nth (n / 2) s 0) / 2
  else nth (n / 2) s 0.

(** The slice [l[lo:hi]]. *)
Definition slice {A} (lo hi : nat) (l : list A) : list A :=
  firstn (hi - lo) (skipn lo l).

End Np.
Import Np.

(* ================================================================= *)
(** ** The program *)

Local Open Scope R_scope.

(** A transmission function is any Python callable handed to [RingSeg_ap];
    the script passes [scipy.interpolate.interp1d] objects, which raise
    [ValueError] on an argument outside their table.  Called on an array it
    answers elementwise, and fails as soon as one element fails. *)
Definition transmission : Type := R -> result R.

Fixpoint call_vec (t_r : transmission) (xs : list R) : result (list R) :=
  match xs with
  | [] => Ok []
  | x :: xs' =>
      v <- t_r x ;;
      vs <- call_vec t_r xs' ;;
      Ok (v :: vs)
  end.

(** [occ_lc(ap)], lines 37-56. *)

(** Line 49: [(y, x) = np.indices((npts, npts)) - 1.0*n2]. *)
Definition centred (npts n2 : nat) : matrix R * matrix R :=
  let sub := map (map (fun v => v - 1.0 * INR n2)) in
  (sub (fst (indices npts)), sub (snd (indices npts))).

(** Line 50: [eTerm = np.exp(((np.pi * 1j)/npts)*((y)**2 + (x)**2))]. *)
Definition eTerm (npts n2 : nat) : result (matrix C) :=
  if Nat.eqb npts 0 then Raise ZeroDivisionError
  else
    let (y, x) := centred npts n2 in
    let k := Cdivr (Cscal PI Ci) (INR npts) in
    Ok (map2 (map2 (fun yv xv => Cexp (Cscal (yv ^ 2 + xv ^ 2) k))) y x).

Definition occ_lc (ap : matrix C) : result (matrix R) :=
  let npts := fst (shape ap) in
  let n2 := (npts / 2)%nat in
  e <- eTerm npts n2 ;;
  M <- bmul ap e ;;
  E_obs <- fft2 M ;;
  let pObs := map (map (fun z => Cre (Cmult z (Cconj z)))) E_obs in
  Ok (roll1 n2 (roll0 n2 pObs)).

(** [RingSeg_ap(lam, D, npts, wid, t_r)], lines 82-122.  [D] is a Python
    float in the script, so [D/npts] raises on [npts = 0].  [np.sqrt] of a
    negative number is [nan], where [sqrt] of the Standard Library is 0:
    the definitions follow the script for [lam * D >= 0], and the
    statements that depend on the offsets take [lam] and [D] positive.  [FOV2] (line 105) is computed and never read; [npts2] and
    [wid2] (lines 106 and 108) are inlined where they are used. *)

(** Lines 101-116, up to the mask: the grid of column offsets and the
    cells within half a ring width of the centre. *)
Definition ring_grid (lam D : R) (npts : nat) : matrix R :=
  let lam_km := lam * 1e-9 in
  let gridSz := sqrt (lam_km * D / INR npts) in
  let npts2 := (npts / 2)%nat in
  let xv := map (fun i => (INR i - INR npts2) * gridSz) (seq 0 npts) in
  let yv := repeat 1 npts in
  outer yv xv.

Definition ring_mask (lam D : R) (npts : nat) (wid : R) : matrix bool :=
  let wid2 := 0.5 * wid in
  map (map (fun g => Rleb (Rabs g) wid2)) (ring_grid lam D npts).

(** The argument of the one call of [t_r], line 120: [grid[inAp]]. *)
Definition ring_queries (lam D : R) (npts : nat) (wid : R) : list R :=
  select (ring_mask lam D npts wid) (ring_grid lam D npts).

Definition RingSeg_ap (lam D : R) (npts : nat) (wid : R) (t_r : transmission)
  : result (matrix R * R * R) :=
  if Nat.eqb npts 0 then Raise ZeroDivisionError
  else
    let lam_km := lam * 1e-9 in
    let gridSz := sqrt (lam_km * D / INR npts) in
    let FOV := sqrt (lam_km * D * INR npts) in
    let inAp := ring_mask lam D npts wid in
    let ap := ones npts npts in
    vals <- call_vec t_r (ring_queries lam D npts wid) ;;
    ap' <- setitem_mask ap inAp vals ;;
    Ok (ap', FOV, gridSz).

(** The aperture of [RingSeg_ap] is real; [occ_lc] multiplies it with a
    complex array, which promotes its entries. *)
Definition to_complex (a : matrix R) : matrix C := map (map RtoC) a.

(** Lines 213-221: [bg = np.median(opF[row, lo:hi])], [opF = opF/bg]. *)
Definition baseline (opF : matrix R) (row lo hi : nat) : R :=
  median (slice lo hi (nth row opF [])).

Definition divide (opF : matrix R) (bg : R) : matrix R :=
  map (map (fun v => v / bg)) opF.

Definition normalize (opF : matrix R) (row lo hi : nat) : matrix R :=
  divide opF (baseline opF row lo hi).

(** The scenario of lines 135-203: a 46 km ring seen at 0.5 microns from
    43 au on a 4096 x 4096 grid, with a flat optical depth of 0.1. *)
Definition scenario_lam : R := 0.5.
Definition scenario_D : R := 43 * 150e6.
Definition scenario_npts : nat := 4096.
Definition scenario_wid : R := 46.

(** [tF1 = interp1d(wVal, np.exp(-tauFlat01))]: constant on the table
    [-wid/2, wid/2], an error outside. *)
Definition tF1 : transmission :=
  fun x => if Rleb (Rabs x) (0.5 * scenario_wid)
           then Ok (exp (- 0.1)) else Raise ValueError.

(* ================================================================= *)
(** ** The specification's formulation of the propagator

    Section 4.2 of the design states the transform with indexed sums over
    integer offsets from the centre; these definitions follow its words and
    are compared with [occ_lc] below. *)

Module Spec.

(** sum of f 0 .. f (n-1) *)
Fixpoint sum_to (n : nat) (f : nat -> C) : C :=
  match n with
  | O => C0
  | S n' => Cplus (sum_to n' f) (f n')
  end.

(** Integer offset of index [i] from the centre [n2]. *)
Definition offset (i n2 : nat) : R := IZR (Z.of_nat i - Z.of_nat n2).

(** M[r][c] = ap[r][c] * exp(i*pi/npts * ((r - n2)^2 + (c - n2)^2)) *)
Definition modified (npts : nat) (ap : matrix C) (r c : nat) : C :=
  let n2 := (npts / 2)%nat in
  Cmult (get C0 ap r c)
        (Cexp (Cscal (PI / INR npts * ((offset r n2) ^ 2 + (offset c n2) ^ 2)) Ci)).

(** F[k][l] = sum_r sum_c M[r][c] exp(-2 pi i (k r + l c) / npts) *)
Definition dft2 (npts : nat) (M : nat -> nat -> C) (k l : nat) : C :=
  sum_to npts (fun r =>
    sum_to npts (fun c =>
      Cmult (M r c)
            (Cexp (Cscal (- (2 * PI * INR (k * r + l * c) / INR npts)) Ci)))).

(** (i - n2) mod npts *)
Definition shifted (npts i : nat) : nat :=
  Z.to_nat ((Z.of_nat i - Z.of_nat (npts / 2)) mod Z.of_nat npts).

(** P[i][j] = |F[(i - n2) mod npts][(j - n2) mod npts]|^2 *)
Definition intensity (npts : nat) (ap : matrix C) (i j : nat) : R :=
  Cnorm2 (dft2 npts (modified npts ap) (shifted npts i) (shifted npts j)).

End Spec.

(** The value a transmission function answers with, where it answers. *)
Definition tval (t_r : transmission) (x : R) : R :=
  match t_r x with
  | Ok v => v
  | Raise _ => 1
  end.

(** What line 120 leaves in a cell that held [x] and has offset [g]. *)
Definition ring_cell (wid2 : R) (f : R -> R) (x g : R) : R :=
  if Rleb (Rabs g) wid2 then f g else x.

(** The entry of [eTerm] (line 50) in row [r] and column [c]. *)
Definition eTerm_cell (npts n2 r c : nat) : C :=
  Cexp (Cscal ((INR r - 1.0 * INR n2) ^ 2 + (INR c - 1.0 * INR n2) ^ 2)
              (Cdivr (Cscal PI Ci) (INR npts))).

(** The entry of [fft2(ap * eTerm)] (lines 51-53) with frequencies [k], [l],
    for a square [ap] of side [npts]. *)
Definition E_obs_cell (npts : nat) (ap : matrix C) (k l : nat) : C :=
  Spec.sum_to npts (fun r =>
    Spec.sum_to npts (fun c =>
      Cmult (Cmult (get C0 ap r c) (eTerm_cell npts (npts / 2) r c))
            (Cmult (omega npts (k * r)) (omega npts (l * c))))).

(** An array of [nr] rows and [nc] columns. *)
Definition dims {A} (nr nc : nat) (a : matrix A) : Prop :=
  length a = nr /\ Forall (fun r => length r = nc) a.

(** A 2 x 3 aperture and a 1 x 3 aperture: neither is square. *)
Definition ones23 : matrix C := repeat (repeat (RtoC 1) 3) 2.
Definition ones13 : matrix C := repeat (repeat (RtoC 1) 3) 1.

(** A fully transparent 3 x 3 aperture: square, of odd side. *)
Definition ones3 : matrix C := repeat (repeat (RtoC 1) 3) 3.

(** The mirror image of index [c] about the centre [npts/2] of an even,
    periodic axis: [npts - c], and 0 for 0. *)
Definition mirror (npts c : nat) : nat := ((npts - c) mod npts)%nat.

(** Division of a value by the baseline [m], as in [opF/bg]. *)
Definition scale (m v : R) : R := v / m.

(* ================================================================= *)
(** ** The rest of the script *)

(** [np.linspace(start, stop, num)], end point included. *)
Definition linspace (start stop : R) (num : nat) : list R :=
  match num with
  | O => []
  | 1%nat => [start]
  | _ => map (fun i => start + INR i * ((stop - start) / INR (num - 1)))
             (seq 0 num)
  end.

(** [np.max] and [np.min] of a 1-D array; both refuse an empty one. *)
Definition np_max (l : list R) : result R :=
  match l with
  | [] => Raise ValueError
  | x :: l' => Ok (fold_left Rmax l' x)
  end.

Definition np_min (l : list R) : result R :=
  match l with
  | [] => Raise ValueError
  | x :: l' => Ok (fold_left Rmin l' x)
  end.

(** Lines 146-158 and 164-168: a parabola [pb] across the ring is scaled
    to an optical depth that is [targMax] where the parabola is largest
    and [targMin] where it is smallest.  For [pbMax = pbMin] NumPy
    divides by zero and answers [nan] or [inf]; the statements below take
    them different. *)
Definition tau_scaled (pb : list R) (targMax targMin : R) : result (list R) :=
  pbMax <- np_max pb ;;
  pbMin <- np_min pb ;;
  let m := (targMax - targMin) / (pbMax - pbMin) in
  let b := targMax - m * pbMax in
  Ok (map (fun p => m * p + b) pb).

(** Lines 135-146: [wVal = np.linspace(-wid2, wid2, nRad)],
    [pb = wVal**2]. *)
Definition wVal (wid : R) (nRad : nat) : list R :=
  let wid2 := 0.5 * wid in
  linspace (- wid2) wid2 nRad.

Definition pb (wid : R) (nRad : nat) : list R :=
  map (fun w => w ^ 2) (wVal wid nRad).

(** Lines 153-158: centrally peaked; lines 164-168: peaked at the edges. *)
Definition tauCP (wid : R) (nRad : nat) : result (list R) :=
  tau_scaled (pb wid nRad) 0.0 0.1.

Definition tauSE (wid : R) (nRad : nat) : result (list R) :=
  tau_scaled (pb wid nRad) 0.1 0.0.

(** Lines 222-224: [r_km = gridSz * (np.arange(npts) - npts/2)],
    [t_sec = r_km/v_event].  Here [npts/2] is Python's true division. *)
Definition r_km (gridSz : R) (npts : nat) : list R :=
  map (fun i => gridSz * (INR i - INR npts / 2)) (seq 0 npts).

Definition t_sec (gridSz : R) (npts : nat) (v_event : R) : list R :=
  map (fun r => r / v_event) (r_km gridSz npts).

(** [solid_ap(FOV, npts, a, b)], lines 60-78. *)

Definition Rltb (x y : R) : bool := if Rlt_dec x y then true else false.

(** [np.meshgrid(xs, ys)]: [xmesh[r, c] = xs[c]] and [ymesh[r, c] = ys[r]]. *)
Definition meshgrid (xs ys : list R) : matrix R * matrix R :=
  (map (fun _ => xs) ys, map (fun y => map (fun _ => y) xs) ys).

(** [np.where(mask)] of a 2-D mask: the positions of its true cells in
    row-major order (NumPy hands out the rows and the columns of these
    positions as two arrays). *)
Fixpoint where_row (r c : nat) (mask : list bool) : list (nat * nat) :=
  match mask with
  | [] => []
  | m :: mask' =>
      if m then (r, c) :: where_row r (S c) mask' else where_row r (S c) mask'
  end.

Fixpoint where_from (r : nat) (mask : matrix bool) : list (nat * nat) :=
  match mask with
  | [] => []
  | m :: mask' => where_row r 0 m ++ where_from (S r) mask'
  end.

Definition np_where (mask : matrix bool) : list (nat * nat) := where_from 0 mask.

(** [a[idx]] and [a[idx] = vals] for positions [idx].  NumPy raises on a
    position outside the array; [solid_ap] indexes with the positions of a
    mask of the array's own shape. *)
Definition getitem_idx (a : matrix R) (idx : list (nat * nat)) : list R :=
  map (fun rc => get 0 a (fst rc) (snd rc)) idx.

Fixpoint update {A} (l : list A) (i : nat) (x : A) : list A :=
  match l, i with
  | [], _ => []
  | _ :: l', O => x :: l'
  | y :: l', S i' => y :: update l' i' x
  end.

Definition set_cell (a : matrix R) (r c : nat) (v : R) : matrix R :=
  update a r (update (nth r a []) c v).

Fixpoint setitem_idx (a : matrix R) (idx : list (nat * nat)) (vals : list R)
  : matrix R :=
  match idx, vals with
  | rc :: idx', v :: vals' => setitem_idx (set_cell a (fst rc) (snd rc) v) idx' vals'
  | _, _ => a
  end.

(** [rmesh] (line 72) is computed and never read.  For [a = 0] or [b = 0]
    NumPy divides by zero and answers [inf] or [nan]; the statements below
    take both non-zero. *)
Definition solid_ap (FOV : R) (npts : nat) (a b : R) : matrix R :=
  let FOV2 := 0.5 * FOV in
  let mpts := linspace (- FOV2) FOV2 npts in
  let (xmesh, ymesh) := meshgrid mpts mpts in
  let inAp :=
    np_where (map2 (map2 (fun y x => Rltb ((y / b) ^ 2 + (x / a) ^ 2) 1.0))
                   ymesh xmesh) in
  let ap := ones npts npts in
  setitem_idx ap inAp (map (fun v => v * 0) (getitem_idx ap inAp)).

(** The phase factor of line 50 along one axis, and the two sums into
    which the transform of line 53 splits for an aperture whose rows all
    equal [a]: down a column and along a row. *)
Definition chirp (npts n2 r : nat) : C :=
  Cexp (Cscal (PI / INR npts * (INR r - INR n2) ^ 2) Ci).

Definition column_sum (npts k : nat) : C :=
  Spec.sum_to npts (fun r =>
    Cmult (chirp npts (npts / 2) r) (omega npts (k * r))).

Definition row_sum (npts : nat) (a : nat -> C) (l : nat) : C :=
  Spec.sum_to npts (fun c =>
    Cmult (Cmult (a c) (chirp npts (npts / 2) c)) (omega npts (l * c))).

(** [scipy.interpolate.interp1d(xs, ys)], as the script uses it: linear,
    with [bounds_error] left on.  The object is built from two arrays of
    one length with increasing [xs]; called on [v] it raises [ValueError]
    outside [[xs[0], xs[-1]]] and otherwise interpolates between the
    table entries [clip(searchsorted(xs, v), 1, n-1) - 1] and the next. *)

(** [np.searchsorted(xs, v)] of a sorted [xs]: the number of elements
    below [v]. *)
Fixpoint searchsorted (xs : list R) (v : R) : nat :=
  match xs with
  | [] => O
  | x :: xs' => if Rltb x v then S (searchsorted xs' v) else O
  end.

Definition interp1d (xs ys : list R) : transmission :=
  fun v =>
    let n := length xs in
    if Rltb v (nth 0 xs 0) || Rltb (nth (n - 1) xs 0) v then Raise ValueError
    else
      let hi := Nat.min (Nat.max (searchsorted xs v) 1) (n - 1) in
      let lo := (hi - 1)%nat in
      let slope := (nth hi ys 0 - nth lo ys 0) / (nth hi xs 0 - nth lo xs 0) in
      Ok (slope * (v - nth lo xs 0) + nth lo ys 0).

(** Lines 142-143 and 171-172: a flat optical depth [tau] across the ring
    and the interpolant of its transmission [exp(-tau)]. *)
Definition tauFlat (tau : R) (nRad : nat) : list R :=
  map (fun o => tau * o) (repeat 1 nRad).

Definition flat_transmission (wid tau : R) (nRad : nat) : transmission :=
  interp1d (wVal wid nRad) (map (fun t => exp (- t)) (tauFlat tau nRad)).

(** A table with strictly increasing entries. *)
Definition increasing (xs : list R) : Prop :=
  forall i j, (i < j)%nat -> (j < length xs)%nat -> nth i xs 0 < nth j xs 0.

(* ================================================================= *)
(** ** Lists and arrays *)

Section ListFacts.
Context {A B X : Type}.

Lemma map2_length (f : A -> B -> X) (l : list A) (m : list B) :
  length l = length m -> length (map2 f l m) = length l.
Proof.
  revert m; induction l as [|a l IH]; intros [|b m] H; simpl in *;
    try discriminate; auto.
Qed.

Lemma nth_map2 (f : A -> B -> X) (l : list A) (m : list B) i dx da db :
  (i < length l)%nat -> (i < length m)%nat ->
  nth i (map2 f l m) dx = f (nth i l da) (nth i m db).
Proof.
  revert m i; induction l as [|a l IH]; intros [|b m] [|i] Hl Hm;
    simpl in *; try lia; auto.
  apply IH; lia.
Qed.

Lemma nth_map_in (f : A -> B) (l : list A) i db da :
  (i < length l)%nat -> nth i (map f l) db = f (nth i l da).
Proof.
  intros H. rewrite (nth_indep _ db (f da)) by (rewrite length_map; exact H).
  apply map_nth.
Qed.

Lemma stretch_same (n : nat) (l : list A) : length l = n -> stretch n l = l.
Proof.
  destruct l as [|x [|y l]]; simpl; intros H; subst; reflexivity.
Qed.

End ListFacts.

Lemma nth_seq_map {A} (f : nat -> A) n i d :
  (i < n)%nat -> nth i (map f (seq 0 n)) d = f i.
Proof.
  intros H. rewrite (nth_map_in f (seq 0 n) i d O) by (rewrite length_seq; exact H).
  rewrite seq_nth by exact H. reflexivity.
Qed.

Lemma nth_repeat_in {A} (x : A) n i d : (i < n)%nat -> nth i (repeat x n) d = x.
Proof.
  revert i; induction n as [|n IH]; intros [|i] H; simpl; try lia; auto.
  apply IH; lia.
Qed.

Lemma broadcast_same {A} (n : nat) (a : matrix A) :
  square n a -> broadcast_to n n a = a.
Proof.
  intros [Hl Hr]. unfold broadcast_to.
  rewrite stretch_same by (rewrite length_map; exact Hl).
  clear Hl. induction Hr as [|r a Hr _ IH]; simpl; [reflexivity|].
  rewrite stretch_same by exact Hr. f_equal. exact IH.
Qed.

Lemma square_shape {A} (n : nat) (a : matrix A) :
  (0 < n)%nat -> square n a -> shape a = (n, n).
Proof.
  intros Hn [Hl Hr]. unfold shape. destruct a as [|r a]; simpl in *; [lia|].
  inversion Hr; subst. f_equal; assumption.
Qed.

Lemma square_row {A} (n : nat) (a : matrix A) r :
  square n a -> (r < n)%nat -> length (nth r a []) = n.
Proof.
  intros [Hl Hr] H. rewrite Forall_forall in Hr. apply Hr, nth_In. lia.
Qed.

Lemma square_map {A B} (f : A -> B) n (a : matrix A) :
  square n a -> square n (map (map f) a).
Proof.
  intros [Hl Hr]; split; [rewrite length_map; exact Hl|].
  rewrite Forall_map. eapply Forall_impl; [|exact Hr].
  intros r H; rewrite length_map; exact H.
Qed.

Lemma square_seq {A} (f : nat -> nat -> A) n :
  square n (map (fun r => map (f r) (seq 0 n)) (seq 0 n)).
Proof.
  split; [now rewrite length_map, length_seq|].
  rewrite Forall_map, Forall_forall. intros r _.
  now rewrite length_map, length_seq.
Qed.

Lemma get_seq {A} (f : nat -> nat -> A) n r c d :
  (r < n)%nat -> (c < n)%nat ->
  get d (map (fun r => map (f r) (seq 0 n)) (seq 0 n)) r c = f r c.
Proof.
  intros Hr Hc. unfold get. rewrite nth_seq_map by exact Hr.
  apply nth_seq_map; exact Hc.
Qed.

Lemma square_map2 {A B X} (f : A -> B -> X) n (a : matrix A) (b : matrix B) :
  square n a -> square n b -> square n (map2 (map2 f) a b).
Proof.
  intros [Hla Hra] [Hlb Hrb]; split.
  - rewrite map2_length; congruence.
  - clear Hla Hlb. revert b Hrb.
    induction Hra as [|r a Hr _ IH]; intros [|s b] Hrb; simpl; auto.
    inversion Hrb; subst. constructor; [|apply IH; assumption].
    rewrite map2_length; congruence.
Qed.

Lemma get_map2 {A B X} (f : A -> B -> X) n (a : matrix A) (b : matrix B)
      r c dx da db :
  square n a -> square n b -> (r < n)%nat -> (c < n)%nat ->
  get dx (map2 (map2 f) a b) r c = f (get da a r c) (get db b r c).
Proof.
  intros Ha Hb Hr Hc. unfold get.
  rewrite (nth_map2 (map2 f) a b r [] [] [])
    by (destruct Ha, Hb; lia).
  apply nth_map2; rewrite (square_row n); auto.
Qed.

Lemma get_map {A B} (f : A -> B) n (a : matrix A) r c db da :
  square n a -> (r < n)%nat -> (c < n)%nat ->
  get db (map (map f) a) r c = f (get da a r c).
Proof.
  intros Ha Hr Hc. unfold get.
  rewrite (nth_map_in (map f) a r [] []) by (destruct Ha; lia).
  apply nth_map_in. rewrite (square_row n); auto.
Qed.

(* ================================================================= *)
(** ** Masked reads and stores *)

Section Masks.
Context {A : Type} (p : A -> bool) (f : A -> A).

Lemma select_row_count (g : list A) :
  length (select_row (map p g) (map p g)) = length (select_row (map p g) g).
Proof.
  induction g as [|y g IH]; simpl; [reflexivity|].
  destruct (p y); simpl; congruence.
Qed.

Lemma select_count (G : matrix A) :
  count_true (map (map p) G) = length (select (map (map p) G) G).
Proof.
  unfold count_true. induction G as [|g G IH]; simpl; [reflexivity|].
  rewrite !length_app, select_row_count, IH. reflexivity.
Qed.

Lemma select_row_Forall (g : list A) :
  Forall (fun y => p y = true) (select_row (map p g) g).
Proof.
  induction g as [|y g IH]; simpl; [constructor|].
  destruct (p y) eqn:E; [constructor|]; assumption.
Qed.

Lemma select_Forall (G : matrix A) :
  Forall (fun y => p y = true) (select (map (map p) G) G).
Proof.
  induction G as [|g G IH]; simpl; [constructor|].
  apply Forall_app; split; [apply select_row_Forall | exact IH].
Qed.

Lemma select_row_In (g : list A) y :
  In y g -> p y = true -> In y (select_row (map p g) g).
Proof.
  induction g as [|z g IH]; simpl; [tauto|].
  intros [->|H] Hp.
  - rewrite Hp. left; reflexivity.
  - destruct (p z); [right|]; auto.
Qed.

Lemma select_In (G : matrix A) g y :
  In g G -> In y g -> p y = true -> In y (select (map (map p) G) G).
Proof.
  induction G as [|h G IH]; simpl; [tauto|].
  intros [->|H] Hy Hp; apply in_or_app.
  - left. apply select_row_In; assumption.
  - right. apply IH; assumption.
Qed.

Lemma store_row_ring (g row rest : list A) :
  length row = length g ->
  store_row (map p g) row (map f (select_row (map p g) g) ++ rest)
  = (map2 (fun x y => if p y then f y else x) row g, rest).
Proof.
  revert row; induction g as [|y g IH]; intros [|x row] H; simpl in *;
    try discriminate; [reflexivity|].
  destruct (p y); simpl; rewrite IH by lia; reflexivity.
Qed.

Lemma store_ring (G A0 : matrix A) :
  Forall2 (fun a g => length a = length g) A0 G ->
  store (map (map p) G) A0 (map f (select (map (map p) G) G))
  = map2 (map2 (fun x y => if p y then f y else x)) A0 G.
Proof.
  induction 1 as [|a g A0 G Hl _ IH]; simpl; [reflexivity|].
  rewrite map_app, store_row_ring by exact Hl. rewrite IH. reflexivity.
Qed.

End Masks.

Lemma call_vec_Ok t_r xs vs :
  call_vec t_r xs = Ok vs ->
  vs = map (tval t_r) xs /\ Forall (fun x => t_r x = Ok (tval t_r x)) xs.
Proof.
  revert vs; induction xs as [|x xs IH]; simpl; intros vs H.
  - inversion H; subst. split; constructor.
  - destruct (t_r x) as [v|e] eqn:E; simpl in H; [|discriminate].
    destruct (call_vec t_r xs) as [ws|e] eqn:E2; simpl in H; [|discriminate].
    inversion H; subst. destruct (IH ws eq_refl) as [-> HF].
    assert (Hv : tval t_r x = v) by (unfold tval; rewrite E; reflexivity).
    split; [simpl; congruence|]. constructor; [congruence | exact HF].
Qed.

Lemma call_vec_total t_r xs :
  Forall (fun x => exists v, t_r x = Ok v) xs ->
  call_vec t_r xs = Ok (map (tval t_r) xs).
Proof.
  induction 1 as [|x xs [v Hv] _ IH]; simpl; [reflexivity|].
  unfold tval at 1. rewrite Hv, IH. reflexivity.
Qed.

Lemma call_vec_Raise t_r xs e :
  call_vec t_r xs = Raise e -> Exists (fun x => t_r x = Raise e) xs.
Proof.
  induction xs as [|x xs IH]; simpl; [discriminate|].
  destruct (t_r x) as [v|e'] eqn:E; simpl.
  - destruct (call_vec t_r xs) as [ws|e'']; simpl; [discriminate|].
    intros H; inversion H; subst. right. apply IH; reflexivity.
  - intros H; inversion H; subst. left; exact E.
Qed.

(* ================================================================= *)
(** ** The aperture builder *)

Lemma ring_grid_square lam D npts : square npts (ring_grid lam D npts).
Proof.
  unfold ring_grid, outer. split.
  - now rewrite length_map, repeat_length.
  - rewrite Forall_map, Forall_forall. intros y _.
    now rewrite !length_map, length_seq.
Qed.

Lemma ones_square n : square n (ones n n).
Proof.
  unfold ones; split; [apply repeat_length|].
  rewrite Forall_forall. intros r Hr. apply repeat_spec in Hr; subst.
  apply repeat_length.
Qed.

Lemma square_Forall2 {A B} n (a : matrix A) (b : matrix B) :
  square n a -> square n b -> Forall2 (fun r s => length r = length s) a b.
Proof.
  intros [Hla Hra] [Hlb Hrb]. rewrite <- Hlb in Hla. clear Hlb.
  revert b Hla Hrb.
  induction Hra as [|r a Hr _ IH]; intros [|s b] Hl Hrb; simpl in *;
    try discriminate; constructor; inversion Hrb; subst.
  - congruence.
  - apply IH; [lia | assumption].
Qed.

Lemma ring_grid_get lam D npts r c :
  (r < npts)%nat -> (c < npts)%nat ->
  get 0 (ring_grid lam D npts) r c
  = 1 * ((INR c - INR (npts / 2)) * sqrt (lam * 1e-9 * D / INR npts)).
Proof.
  intros Hr Hc. unfold get, ring_grid, outer.
  rewrite (nth_map_in _ (repeat 1 npts) r [] 0) by (rewrite repeat_length; exact Hr).
  rewrite nth_repeat_in by exact Hr.
  rewrite (nth_map_in _ _ c 0 0) by (rewrite length_map, length_seq; exact Hc).
  rewrite nth_seq_map by exact Hc. reflexivity.
Qed.

Lemma RingSeg_ap_Ok lam D npts wid t_r vals :
  npts <> O ->
  call_vec t_r (ring_queries lam D npts wid) = Ok vals ->
  RingSeg_ap lam D npts wid t_r
  = Ok (map2 (map2 (ring_cell (0.5 * wid) (tval t_r)))
             (ones npts npts) (ring_grid lam D npts),
        sqrt (lam * 1e-9 * D * INR npts),
        sqrt (lam * 1e-9 * D / INR npts)).
Proof.
  intros Hn Hc. unfold RingSeg_ap.
  destruct (Nat.eqb_spec npts 0) as [|_]; [contradiction|].
  rewrite Hc. simpl. apply call_vec_Ok in Hc. destruct Hc as [-> _].
  unfold setitem_mask, ring_queries, ring_mask.
  rewrite length_map, select_count, Nat.eqb_refl. simpl.
  rewrite store_ring
    by (apply (square_Forall2 npts); [apply ones_square | apply ring_grid_square]).
  reflexivity.
Qed.

Lemma RingSeg_ap_Raise lam D npts wid t_r e :
  npts <> O ->
  call_vec t_r (ring_queries lam D npts wid) = Raise e ->
  RingSeg_ap lam D npts wid t_r = Raise e.
Proof.
  intros Hn Hc. unfold RingSeg_ap.
  destruct (Nat.eqb_spec npts 0) as [|_]; [contradiction|].
  rewrite Hc. reflexivity.
Qed.

(** The cell [ap[r, c]] of a returned aperture. *)
Lemma RingSeg_ap_get lam D npts wid t_r ap FOV g r c :
  RingSeg_ap lam D npts wid t_r = Ok (ap, FOV, g) ->
  (r < npts)%nat -> (c < npts)%nat ->
  g = sqrt (lam * 1e-9 * D / INR npts) /\
  get 0 ap r c
  = ring_cell (0.5 * wid) (tval t_r) 1 ((INR c - INR (npts / 2)) * g).
Proof.
  intros H Hr Hc.
  assert (Hn : npts <> O) by lia.
  destruct (call_vec t_r (ring_queries lam D npts wid)) as [vals|e] eqn:E.
  - rewrite (RingSeg_ap_Ok lam D npts wid t_r vals Hn E) in H. inversion H; subst.
    split; [reflexivity|].
    rewrite (get_map2 _ npts _ _ r c 0 0 0)
      by (auto using ones_square, ring_grid_square).
    rewrite ring_grid_get by assumption.
    unfold get, ones. rewrite !nth_repeat_in by assumption.
    rewrite Rmult_1_l. reflexivity.
  - rewrite (RingSeg_ap_Raise lam D npts wid t_r e Hn E) in H. discriminate.
Qed.

Lemma RingSeg_ap_square lam D npts wid t_r ap FOV g :
  RingSeg_ap lam D npts wid t_r = Ok (ap, FOV, g) -> square npts ap.
Proof.
  intros H.
  assert (Hn : npts <> O).
  { intros ->. unfold RingSeg_ap in H. simpl in H. discriminate. }
  destruct (call_vec t_r (ring_queries lam D npts wid)) as [vals|e] eqn:E.
  - rewrite (RingSeg_ap_Ok lam D npts wid t_r vals Hn E) in H. inversion H; subst.
    apply square_map2; [apply ones_square | apply ring_grid_square].
  - rewrite (RingSeg_ap_Raise lam D npts wid t_r e Hn E) in H. discriminate.
Qed.

Lemma Rleb_true x y : Rleb x y = true <-> x <= y.
Proof.
  unfold Rleb. destruct (Rle_dec x y); split; intros; auto; discriminate.
Qed.

Lemma Rleb_false x y : Rleb x y = false <-> ~ x <= y.
Proof.
  unfold Rleb. destruct (Rle_dec x y); split; intros; auto;
    [discriminate | contradiction].
Qed.

Lemma INR_half n : Nat.Even n -> INR (n / 2) = INR n / 2.
Proof.
  intros [m ->]. rewrite Nat.mul_comm, Nat.div_mul by discriminate.
  rewrite mult_INR. simpl. lra.
Qed.

(** Every offset handed to [t_r] lies within half a ring width. *)
Lemma ring_queries_in_ring lam D npts wid :
  Forall (fun x => Rabs x <= wid / 2) (ring_queries lam D npts wid).
Proof.
  unfold ring_queries, ring_mask.
  eapply Forall_impl; [|apply select_Forall].
  intros x Hx. apply Rleb_true in Hx. lra.
Qed.

Lemma ring_queries_answered lam D npts wid t_r :
  (forall x, Rabs x <= wid / 2 -> exists v, t_r x = Ok v) ->
  call_vec t_r (ring_queries lam D npts wid)
  = Ok (map (tval t_r) (ring_queries lam D npts wid)).
Proof.
  intros Ht. apply call_vec_total.
  eapply Forall_impl; [|apply ring_queries_in_ring]. exact Ht.
Qed.

(** The sampling relation: sqrt(a n) = sqrt(a / n) n. *)
Lemma sqrt_scale a n : 0 <= a -> 0 < n -> sqrt (a * n) = sqrt (a / n) * n.
Proof.
  intros Ha Hn.
  rewrite <- (sqrt_square n) at 3 by lra.
  rewrite <- sqrt_mult_alt by (apply Rmult_le_pos; [lra | left; apply Rinv_0_lt_compat; lra]).
  f_equal. field. lra.
Qed.

Lemma sqrt_between a b x : 0 <= a -> 0 <= b -> a * a < x < b * b -> a < sqrt x < b.
Proof.
  intros Ha Hb [H1 H2]. split.
  - rewrite <- (sqrt_square a) by exact Ha. apply sqrt_lt_1_alt. nra.
  - rewrite <- (sqrt_square b) by exact Hb. apply sqrt_lt_1_alt. nra.
Qed.

Lemma tF1_answers x : Rabs x <= scenario_wid / 2 -> exists v, tF1 x = Ok v.
Proof.
  intros H. unfold tF1. exists (exp (- 0.1)).
  replace (Rleb (Rabs x) (0.5 * scenario_wid)) with true; [reflexivity|].
  symmetry. apply Rleb_true. lra.
Qed.

(** The first call of line 203 returns. *)
Lemma scenario_returns :
  RingSeg_ap scenario_lam scenario_D scenario_npts scenario_wid tF1
  = Ok (map2 (map2 (ring_cell (0.5 * scenario_wid) (tval tF1)))
             (ones scenario_npts scenario_npts)
             (ring_grid scenario_lam scenario_D scenario_npts),
        sqrt (scenario_lam * 1e-9 * scenario_D * INR scenario_npts),
        sqrt (scenario_lam * 1e-9 * scenario_D / INR scenario_npts)).
Proof.
  eapply RingSeg_ap_Ok; [discriminate|].
  apply ring_queries_answered, tF1_answers.
Qed.

Lemma scenario_npts_INR : INR scenario_npts = 4096.
Proof.
  unfold scenario_npts. rewrite INR_IZR_INZ. f_equal.
Qed.

(* ================================================================= *)
(** ** The array operations on small inputs *)

Ltac decide_Rleb :=
  repeat match goal with
  | |- context [Rleb ?a ?b] =>
      first [ rewrite (proj2 (Rleb_true a b)) by lra
            | rewrite (proj2 (Rleb_false a b)) by lra ]
  end.

(** [np.roll([1, 2, 3, 4], 1)] is [[4, 1, 2, 3]]. *)
Example roll_example : roll 1 [1; 2; 3; 4]%nat = [4; 1; 2; 3]%nat.
Proof. reflexivity. Qed.

(** [np.roll(np.roll(a, 1, 0), 1, 1)] moves [a[0, 0]] to the centre of a
    2 x 2 array. *)
Example roll2_example :
  roll1 1 (roll0 1 [[1; 2]; [3; 4]]%nat) = [[4; 3]; [2; 1]]%nat.
Proof. reflexivity. Qed.

(** [a[mask]] reads in row-major order and [a[mask] = vals] writes in the
    same order. *)
Example select_example :
  select [[true; false]; [false; true]] [[1; 2]; [3; 4]]%nat = [1; 4]%nat.
Proof. reflexivity. Qed.

Example setitem_example :
  setitem_mask [[1; 2]; [3; 4]]%nat [[true; false]; [false; true]] [7; 8]%nat
  = Ok [[7; 2]; [3; 8]]%nat.
Proof. reflexivity. Qed.

Example setitem_mismatch :
  setitem_mask [[1; 2]; [3; 4]]%nat [[true; false]; [false; true]] [7; 8; 9]%nat
  = Raise ValueError.
Proof. reflexivity. Qed.

(** Shapes (3, 3) and (3, 1) broadcast against (3, 3); (3, 2) does not. *)
Example bdim_example :
  bdim 3 3 = Some 3%nat /\ bdim 1 3 = Some 3%nat /\ bdim 2 3 = None.
Proof. repeat split. Qed.

Example slice_example : slice 1 3 [10; 20; 30; 40]%nat = [20; 30]%nat.
Proof. reflexivity. Qed.

(** [np.median([1, 3, 2, 6])] is 2.5 and [np.median([3, 1, 2])] is 2. *)
Example median_even_example : median [1; 3; 2; 6] = 5 / 2.
Proof.
  unfold median, sort. cbn [fold_right insert length Nat.even].
  decide_Rleb. cbn [insert]. decide_Rleb. cbn [insert]. decide_Rleb.
  cbn [insert]. decide_Rleb. simpl. lra.
Qed.

Example median_odd_example : median [3; 1; 2] = 2.
Proof.
  unfold median, sort. cbn [fold_right insert length Nat.even].
  decide_Rleb. cbn [insert]. decide_Rleb. cbn [insert]. decide_Rleb.
  reflexivity.
Qed.

(* ================================================================= *)
(** ** Claims about [RingSeg_ap] *)

Lemma sqrt_900 : sqrt (1 * 1e-9 * 3600e9 / INR 4) = 30.
Proof.
  replace (1 * 1e-9 * 3600e9 / INR 4) with (30 * 30) by (simpl; lra).
  apply sqrt_square. lra.
Qed.

(** A grid of four columns, 30 km apart, across a 46 km ring: the columns at
    -60, -30 and 30 km lie outside the ring and keep 1; the column at 0
    holds the transmission [exp(-0.1)]. *)
Example ring_band_example :
  exists ap FOV gridSz,
    RingSeg_ap 1 3600e9 4 46 tF1 = Ok (ap, FOV, gridSz) /\
    gridSz = 30 /\
    forall r, (r < 4)%nat ->
      get 0 ap r 0 = 1 /\ get 0 ap r 1 = 1 /\
      get 0 ap r 2 = exp (- 0.1) /\ get 0 ap r 3 = 1.
Proof.
  assert (Hq : call_vec tF1 (ring_queries 1 3600e9 4 46)
               = Ok (map (tval tF1) (ring_queries 1 3600e9 4 46)))
    by (apply ring_queries_answered, tF1_answers).
  pose proof (RingSeg_ap_Ok 1 3600e9 4 46 tF1 _ ltac:(discriminate) Hq) as Hap.
  eexists _, _, _. split; [exact Hap|]. split; [exact sqrt_900|].
  intros r Hr.
  assert (Hcell : forall c x, (c < 4)%nat -> (INR c - INR (4 / 2)) * 30 = x ->
            get 0 (map2 (map2 (ring_cell (0.5 * 46) (tval tF1)))
                     (ones 4 4) (ring_grid 1 3600e9 4)) r c
            = ring_cell (0.5 * 46) (tval tF1) 1 x).
  { intros c x Hc Hx.
    destruct (RingSeg_ap_get 1 3600e9 4 46 tF1 _ _ _ r c Hap Hr Hc) as [_ ->].
    rewrite sqrt_900, Hx. reflexivity. }
  assert (Hout : forall x, 0.5 * 46 < Rabs x ->
            ring_cell (0.5 * 46) (tval tF1) 1 x = 1).
  { intros x Hx. unfold ring_cell.
    replace (Rleb (Rabs x) (0.5 * 46)) with false; [reflexivity|].
    symmetry. apply Rleb_false. lra. }
  assert (Habs : forall x, 0 < x -> Rabs (- x) = x /\ Rabs x = x).
  { intros x Hx. rewrite Rabs_Ropp, Rabs_pos_eq by lra. split; reflexivity. }
  split; [|split; [|split]].
  - rewrite (Hcell 0%nat (- (60))) by (try lia; simpl; lra).
    apply Hout. destruct (Habs 60 ltac:(lra)) as [-> _]. lra.
  - rewrite (Hcell 1%nat (- (30))) by (try lia; simpl; lra).
    apply Hout. destruct (Habs 30 ltac:(lra)) as [-> _]. lra.
  - rewrite (Hcell 2%nat 0) by (try lia; simpl; lra).
    unfold ring_cell, tval, tF1, scenario_wid. rewrite Rabs_R0.
    replace (Rleb 0 (0.5 * 46)) with true
      by (symmetry; apply Rleb_true; lra).
    reflexivity.
  - rewrite (Hcell 3%nat 30) by (try lia; simpl; lra).
    apply Hout. destruct (Habs 30 ltac:(lra)) as [_ ->]. lra.
Qed.

(** C2.  For positive even [npts], positive wavelength, distance and ring
    width, and a transmission function that answers on
    [[-wid/2, wid/2]], [RingSeg_ap] returns the grid size
    [gridSizeKm = sqrt (lam_km * D / npts)] and an [npts] x [npts] array
    whose cell in row [r] and column [c], with
    [x_c = (c - npts/2) * gridSizeKm], holds [t_r x_c] where
    [|x_c| <= wid/2] and 1 elsewhere. *)
Theorem RingSeg_ap_cells lam D npts wid t_r :
  0 < lam -> 0 < D -> (0 < npts)%nat -> Nat.Even npts -> 0 < wid ->
  (forall x, Rabs x <= wid / 2 -> exists v, t_r x = Ok v) ->
  exists ap FOV gridSz,
    RingSeg_ap lam D npts wid t_r = Ok (ap, FOV, gridSz) /\
    gridSz = sqrt (lam * 1e-9 * D / INR npts) /\
    FOV = sqrt (lam * 1e-9 * D * INR npts) /\
    square npts ap /\
    forall r c, (r < npts)%nat -> (c < npts)%nat ->
      let x_c := (INR c - INR npts / 2) * sqrt (lam * 1e-9 * D / INR npts) in
      (Rabs x_c <= wid / 2 -> t_r x_c = Ok (get 0 ap r c)) /\
      (~ Rabs x_c <= wid / 2 -> get 0 ap r c = 1).
Proof.
  intros _ _ Hn He _ Ht.
  pose proof (ring_queries_answered lam D npts wid t_r Ht) as Hq.
  assert (Hn0 : npts <> O) by lia.
  pose proof (RingSeg_ap_Ok lam D npts wid t_r _ Hn0 Hq) as Hap.
  eexists _, _, _. split; [exact Hap|].
  split; [reflexivity|]. split; [reflexivity|].
  split; [exact (RingSeg_ap_square lam D npts wid t_r _ _ _ Hap)|].
  intros r c Hr Hc x_c.
  destruct (RingSeg_ap_get lam D npts wid t_r _ _ _ r c Hap Hr Hc) as [_ Hg].
  rewrite INR_half in Hg by exact He. fold x_c in Hg.
  rewrite Hg. unfold ring_cell. split; intros Hx.
  - replace (Rleb (Rabs x_c) (0.5 * wid)) with true
      by (symmetry; apply Rleb_true; lra).
    destruct (Ht x_c Hx) as [v Hv]. unfold tval. rewrite Hv. reflexivity.
  - replace (Rleb (Rabs x_c) (0.5 * wid)) with false
      by (symmetry; apply Rleb_false; lra).
    reflexivity.
Qed.

Lemma RingSeg_ap_cells_witness :
  0 < 1 /\ 0 < 3600e9 /\ (0 < 4)%nat /\ Nat.Even 4 /\ 0 < 46 /\
  (forall x, Rabs x <= 46 / 2 -> exists v, tF1 x = Ok v) /\
  exists ap FOV gridSz,
    RingSeg_ap 1 3600e9 4 46 tF1 = Ok (ap, FOV, gridSz) /\
    gridSz = sqrt (1 * 1e-9 * 3600e9 / INR 4) /\
    FOV = sqrt (1 * 1e-9 * 3600e9 * INR 4) /\
    square 4 ap /\
    forall r c, (r < 4)%nat -> (c < 4)%nat ->
      let x_c := (INR c - INR 4 / 2) * sqrt (1 * 1e-9 * 3600e9 / INR 4) in
      (Rabs x_c <= 46 / 2 -> tF1 x_c = Ok (get 0 ap r c)) /\
      (~ Rabs x_c <= 46 / 2 -> get 0 ap r c = 1).
Proof.
  assert (H1 : 0 < 1) by lra.
  assert (H2 : 0 < 3600e9) by lra.
  assert (H3 : (0 < 4)%nat) by lia.
  assert (H4 : Nat.Even 4) by (exists 2%nat; reflexivity).
  assert (H5 : 0 < 46) by lra.
  repeat (split; [assumption|]).
  split; [exact tF1_answers|].
  exact (RingSeg_ap_cells 1 3600e9 4 46 tF1 H1 H2 H3 H4 H5 tF1_answers).
Defined.

(** C3.  For a wavelength [lam > 0] in microns, a distance [D > 0] in km and
    a positive even [npts], [RingSeg_ap] takes [lam * 1e-9] as the
    wavelength in km and, when it returns, returns
    [gridSz = sqrt (lam_km * D / npts)] and
    [FOV = sqrt (lam_km * D * npts)], which satisfy [FOV = gridSz * npts];
    the only way not to return is an error of [t_r] on one of its
    arguments. *)
Theorem RingSeg_ap_scales lam D npts wid t_r :
  0 < lam -> 0 < D -> (0 < npts)%nat -> Nat.Even npts ->
  match RingSeg_ap lam D npts wid t_r with
  | Ok (ap, FOV, gridSz) =>
      let lam_km := lam * 1e-9 in
      gridSz = sqrt (lam_km * D / INR npts) /\
      FOV = sqrt (lam_km * D * INR npts) /\
      FOV = gridSz * INR npts
  | Raise e => Exists (fun x => t_r x = Raise e) (ring_queries lam D npts wid)
  end.
Proof.
  intros Hl HD Hn _.
  assert (Hn0 : npts <> O) by lia.
  destruct (call_vec t_r (ring_queries lam D npts wid)) as [vals|e] eqn:E.
  - rewrite (RingSeg_ap_Ok lam D npts wid t_r vals Hn0 E). cbv zeta.
    split; [reflexivity|]. split; [reflexivity|].
    apply sqrt_scale; [nra | apply lt_0_INR; exact Hn].
  - rewrite (RingSeg_ap_Raise lam D npts wid t_r e Hn0 E).
    apply call_vec_Raise; exact E.
Qed.

Lemma RingSeg_ap_scales_witness :
  0 < 0.5 /\ 0 < 43 * 150e6 /\ (0 < 4)%nat /\ Nat.Even 4 /\
  match RingSeg_ap 0.5 (43 * 150e6) 4 46 tF1 with
  | Ok (ap, FOV, gridSz) =>
      let lam_km := 0.5 * 1e-9 in
      gridSz = sqrt (lam_km * (43 * 150e6) / INR 4) /\
      FOV = sqrt (lam_km * (43 * 150e6) * INR 4) /\
      FOV = gridSz * INR 4
  | Raise e => Exists (fun x => tF1 x = Raise e) (ring_queries 0.5 (43 * 150e6) 4 46)
  end.
Proof.
  assert (H1 : 0 < 0.5) by lra.
  assert (H2 : 0 < 43 * 150e6) by lra.
  assert (H3 : (0 < 4)%nat) by lia.
  assert (H4 : Nat.Even 4) by (exists 2%nat; reflexivity).
  repeat (split; [assumption|]).
  exact (RingSeg_ap_scales 0.5 (43 * 150e6) 4 46 tF1 H1 H2 H3 H4).
Defined.

(** C8.  Every row of a returned aperture is the same row: the cell depends
    on its column only. *)
Theorem RingSeg_ap_rows_identical lam D npts wid t_r ap FOV gridSz :
  RingSeg_ap lam D npts wid t_r = Ok (ap, FOV, gridSz) ->
  forall r1 r2, (r1 < npts)%nat -> (r2 < npts)%nat ->
    nth r1 ap [] = nth r2 ap [] /\
    forall c, (c < npts)%nat -> get 0 ap r1 c = get 0 ap r2 c.
Proof.
  intros H r1 r2 H1 H2.
  assert (Hc : forall c, (c < npts)%nat -> get 0 ap r1 c = get 0 ap r2 c).
  { intros c Hc.
    destruct (RingSeg_ap_get lam D npts wid t_r ap FOV gridSz r1 c H H1 Hc) as [_ ->].
    destruct (RingSeg_ap_get lam D npts wid t_r ap FOV gridSz r2 c H H2 Hc) as [_ ->].
    reflexivity. }
  split; [|exact Hc].
  pose proof (RingSeg_ap_square lam D npts wid t_r ap FOV gridSz H) as Hs.
  apply (nth_ext _ _ 0 0).
  - rewrite !(square_row npts) by assumption. reflexivity.
  - intros c Hlt. rewrite (square_row npts) in Hlt by assumption.
    apply Hc; exact Hlt.
Qed.

Lemma RingSeg_ap_rows_identical_witness :
  RingSeg_ap scenario_lam scenario_D scenario_npts scenario_wid tF1
  = Ok (map2 (map2 (ring_cell (0.5 * scenario_wid) (tval tF1)))
             (ones scenario_npts scenario_npts)
             (ring_grid scenario_lam scenario_D scenario_npts),
        sqrt (scenario_lam * 1e-9 * scenario_D * INR scenario_npts),
        sqrt (scenario_lam * 1e-9 * scenario_D / INR scenario_npts)) /\
  forall r1 r2, (r1 < scenario_npts)%nat -> (r2 < scenario_npts)%nat ->
    nth r1 (map2 (map2 (ring_cell (0.5 * scenario_wid) (tval tF1)))
             (ones scenario_npts scenario_npts)
             (ring_grid scenario_lam scenario_D scenario_npts)) []
    = nth r2 (map2 (map2 (ring_cell (0.5 * scenario_wid) (tval tF1)))
             (ones scenario_npts scenario_npts)
             (ring_grid scenario_lam scenario_D scenario_npts)) [] /\
    forall c, (c < scenario_npts)%nat ->
      get 0 (map2 (map2 (ring_cell (0.5 * scenario_wid) (tval tF1)))
             (ones scenario_npts scenario_npts)
             (ring_grid scenario_lam scenario_D scenario_npts)) r1 c
      = get 0 (map2 (map2 (ring_cell (0.5 * scenario_wid) (tval tF1)))
             (ones scenario_npts scenario_npts)
             (ring_grid scenario_lam scenario_D scenario_npts)) r2 c.
Proof.
  split; [exact scenario_returns|].
  exact (RingSeg_ap_rows_identical _ _ _ _ _ _ _ _ scenario_returns).
Defined.

(** C10.  [t_r] is called on the masked offsets only, all of which lie in
    [[-wid/2, wid/2]]; so for valid inputs a transmission function that
    answers exactly on that interval answers every query, and [RingSeg_ap]
    returns without an error. *)
Theorem RingSeg_ap_queries_in_domain lam D npts wid t_r :
  0 < lam -> 0 < D -> (0 < npts)%nat -> Nat.Even npts -> 0 < wid ->
  (forall x, (exists v, t_r x = Ok v) <-> Rabs x <= wid / 2) ->
  Forall (fun x => Rabs x <= wid / 2) (ring_queries lam D npts wid) /\
  Forall (fun x => exists v, t_r x = Ok v) (ring_queries lam D npts wid) /\
  (exists out, RingSeg_ap lam D npts wid t_r = Ok out) /\
  (forall e, RingSeg_ap lam D npts wid t_r <> Raise e).
Proof.
  intros _ _ Hn _ _ Ht.
  assert (Hn0 : npts <> O) by lia.
  assert (Hd : forall x, Rabs x <= wid / 2 -> exists v, t_r x = Ok v)
    by (intros x Hx; apply Ht; exact Hx).
  pose proof (ring_queries_in_ring lam D npts wid) as Hq.
  pose proof (RingSeg_ap_Ok lam D npts wid t_r _ Hn0
                (ring_queries_answered lam D npts wid t_r Hd)) as Hap.
  split; [exact Hq|]. split.
  - eapply Forall_impl; [|exact Hq]. exact Hd.
  - split; [eexists; exact Hap|]. intros e He. rewrite Hap in He. discriminate.
Qed.

Lemma tF1_domain x : (exists v, tF1 x = Ok v) <-> Rabs x <= 46 / 2.
Proof.
  split.
  - intros [v Hv]. unfold tF1 in Hv.
    destruct (Rleb (Rabs x) (0.5 * scenario_wid)) eqn:E; [|discriminate].
    apply Rleb_true in E. unfold scenario_wid in E. lra.
  - intros H. apply tF1_answers. unfold scenario_wid. exact H.
Qed.

Lemma RingSeg_ap_queries_in_domain_witness :
  0 < 0.5 /\ 0 < 43 * 150e6 /\ (0 < 4)%nat /\ Nat.Even 4 /\ 0 < 46 /\
  Forall (fun x => Rabs x <= 46 / 2) (ring_queries 0.5 (43 * 150e6) 4 46) /\
  Forall (fun x => exists v, tF1 x = Ok v) (ring_queries 0.5 (43 * 150e6) 4 46) /\
  (exists out, RingSeg_ap 0.5 (43 * 150e6) 4 46 tF1 = Ok out) /\
  (forall e, RingSeg_ap 0.5 (43 * 150e6) 4 46 tF1 <> Raise e).
Proof.
  assert (H1 : 0 < 0.5) by lra.
  assert (H2 : 0 < 43 * 150e6) by lra.
  assert (H3 : (0 < 4)%nat) by lia.
  assert (H4 : Nat.Even 4) by (exists 2%nat; reflexivity).
  assert (H5 : 0 < 46) by lra.
  repeat (split; [assumption|]).
  exact (RingSeg_ap_queries_in_domain 0.5 (43 * 150e6) 4 46 tF1
           H1 H2 H3 H4 H5 tF1_domain).
Defined.

(* ================================================================= *)
(** ** The scenario of the script *)

Lemma scenario_FOV_radicand :
  scenario_lam * 1e-9 * scenario_D * INR scenario_npts = 13209.6.
Proof.
  rewrite scenario_npts_INR. unfold scenario_lam, scenario_D. lra.
Qed.

Lemma scenario_gridSz_radicand :
  scenario_lam * 1e-9 * scenario_D / INR scenario_npts = 3.225 / 4096.
Proof.
  rewrite scenario_npts_INR. unfold scenario_lam, scenario_D. lra.
Qed.

Lemma scenario_FOV_bounds :
  114.93 < sqrt (scenario_lam * 1e-9 * scenario_D * INR scenario_npts) < 114.94.
Proof.
  rewrite scenario_FOV_radicand. apply sqrt_between; lra.
Qed.

Lemma scenario_gridSz_bounds :
  0.02805 < sqrt (scenario_lam * 1e-9 * scenario_D / INR scenario_npts) < 0.02806.
Proof.
  rewrite scenario_gridSz_radicand. apply sqrt_between; lra.
Qed.

(** C9, as stated, fails: for 0.5 microns, 43 * 1.5e8 km and 4096 points
    the returned grid size exceeds the quoted 0.0278 km by more than two
    units of its last digit, and the returned field of view exceeds 114 km
    by more than 0.9 km. *)
Lemma scenario_quoted_figures_fail :
  exists ap FOV gridSz,
    RingSeg_ap scenario_lam scenario_D scenario_npts scenario_wid tF1
    = Ok (ap, FOV, gridSz) /\
    0.0002 < gridSz - 0.0278 /\
    0.9 < FOV - 114 /\
    ~ (Rabs (FOV - 114) <= 0.5 /\ Rabs (gridSz - 0.0278) <= 0.00005).
Proof.
  eexists _, _, _. split; [exact scenario_returns|].
  pose proof scenario_FOV_bounds as [HF _].
  pose proof scenario_gridSz_bounds as [Hg _].
  split; [lra|]. split; [lra|].
  intros [H _]. unfold Rabs in H. destruct (Rcase_abs _) in H; lra.
Qed.

(** C9, amended.  For 0.5 microns, 43 * 1.5e8 km and 4096 points
    [RingSeg_ap] returns a field of view between 114.93 and 114.94 km (114
    after truncation to whole km) and a grid size between 0.02805 and
    0.02806 km; the two agree through [FOV = gridSz * 4096]. *)
Theorem scenario_figures :
  exists ap FOV gridSz,
    RingSeg_ap scenario_lam scenario_D scenario_npts scenario_wid tF1
    = Ok (ap, FOV, gridSz) /\
    114.93 < FOV < 114.94 /\
    0.02805 < gridSz < 0.02806 /\
    FOV = gridSz * 4096.
Proof.
  eexists _, _, _. split; [exact scenario_returns|].
  split; [exact scenario_FOV_bounds|]. split; [exact scenario_gridSz_bounds|].
  rewrite <- scenario_npts_INR. apply sqrt_scale.
  - unfold scenario_lam, scenario_D. lra.
  - rewrite scenario_npts_INR. lra.
Qed.

(* ================================================================= *)
(** ** The median and the baseline *)

(** [sort] is a sort: its result is ordered and keeps the elements. *)
Lemma insert_perm x l : Permutation (x :: l) (insert x l).
Proof.
  induction l as [|y l IH]; simpl; [apply Permutation_refl|].
  destruct (Rleb x y); [apply Permutation_refl|].
  eapply perm_trans; [apply perm_swap|]. apply perm_skip, IH.
Qed.

Lemma sort_perm l : Permutation l (sort l).
Proof.
  induction l as [|x l IH]; simpl; [constructor|].
  eapply perm_trans; [apply perm_skip, IH | apply insert_perm].
Qed.

Lemma insert_sorted x l : Sorted Rle l -> Sorted Rle (insert x l).
Proof.
  induction 1 as [|y l Hs IH Hh]; simpl; [repeat constructor|].
  destruct (Rleb x y) eqn:E.
  - apply Rleb_true in E. constructor; [constructor; assumption|].
    constructor; exact E.
  - apply Rleb_false in E. constructor; [exact IH|].
    destruct l as [|z l]; simpl.
    + constructor. lra.
    + inversion Hh; subst. destruct (Rleb x z); constructor; [lra | assumption].
Qed.

Lemma sort_sorted l : Sorted Rle (sort l).
Proof.
  induction l as [|x l IH]; simpl; [constructor | apply insert_sorted, IH].
Qed.

Lemma sort_length l : length (sort l) = length l.
Proof. symmetry. apply Permutation_length, sort_perm. Qed.

Lemma sort_Forall (P : R -> Prop) l : Forall P l -> Forall P (sort l).
Proof. apply Permutation_Forall, sort_perm. Qed.

Section Scaling.
Variable m : R.
Hypothesis m_pos : 0 < m.

Lemma Rleb_scale x y : Rleb (scale m x) (scale m y) = Rleb x y.
Proof.
  unfold scale. pose proof (Rinv_0_lt_compat m m_pos) as Hi.
  destruct (Rleb x y) eqn:E.
  - apply Rleb_true in E. apply Rleb_true. unfold Rdiv. nra.
  - apply Rleb_false in E. apply Rleb_false. unfold Rdiv. nra.
Qed.

Lemma insert_scale x l :
  insert (scale m x) (map (scale m) l) = map (scale m) (insert x l).
Proof.
  induction l as [|y l IH]; simpl; [reflexivity|].
  rewrite Rleb_scale. destruct (Rleb x y); simpl; [reflexivity|].
  rewrite IH. reflexivity.
Qed.

Lemma sort_scale l : sort (map (scale m) l) = map (scale m) (sort l).
Proof.
  induction l as [|x l IH]; simpl; [reflexivity|].
  rewrite IH. apply insert_scale.
Qed.

Lemma nth_scale i l : nth i (map (scale m) l) 0 = scale m (nth i l 0).
Proof.
  replace 0 with (scale m 0) at 1 by (unfold scale; lra). apply map_nth.
Qed.

(** Dividing by a positive number commutes with the median. *)
Lemma median_scale l : median (map (fun v => v / m) l) = median l / m.
Proof.
  change (fun v => v / m) with (scale m). unfold median.
  rewrite sort_scale, length_map, !nth_scale.
  destruct (Nat.even (length l)); unfold scale; [field; lra | reflexivity].
Qed.

End Scaling.

Lemma median_pos l : l <> [] -> Forall (fun v => 0 < v) l -> 0 < median l.
Proof.
  intros Hne Hp. apply sort_Forall in Hp. rewrite Forall_forall in Hp.
  assert (Hn : (0 < length l)%nat) by (destruct l; [congruence | simpl; lia]).
  assert (Hi : forall i, (i < length l)%nat -> 0 < nth i (sort l) 0).
  { intros i Hi. apply Hp, nth_In. rewrite sort_length. exact Hi. }
  unfold median. destruct (Nat.even (length l)).
  - assert (H1 : 0 < nth (length l / 2 - 1) (sort l) 0).
    { apply Hi. pose proof (Nat.div_lt (length l) 2 Hn). lia. }
    assert (H2 : 0 < nth (length l / 2) (sort l) 0).
    { apply Hi. apply Nat.div_lt; lia. }
    lra.
  - apply Hi. apply Nat.div_lt; lia.
Qed.

Lemma slice_map {A B} (f : A -> B) lo hi l :
  slice lo hi (map f l) = map f (slice lo hi l).
Proof. unfold slice. rewrite skipn_map, firstn_map. reflexivity. Qed.

Lemma baseline_divide opF bg row lo hi :
  0 < bg -> baseline (divide opF bg) row lo hi = baseline opF row lo hi / bg.
Proof.
  intros Hb. unfold baseline, divide.
  change (@nil R) with (map (fun v => v / bg) []) at 1.
  rewrite map_nth, slice_map. apply median_scale; exact Hb.
Qed.

Lemma divide_one opF : divide opF 1 = opF.
Proof.
  unfold divide. rewrite <- (map_id opF) at 2. apply map_ext. intros r.
  rewrite <- (map_id r) at 2. apply map_ext. intros v. field.
Qed.

(** C6.  Where the baseline window of the extracted row is non-empty and
    holds positive values only, the median of the window divided by its
    own median is 1; so is the baseline of the normalised field, and a
    second normalisation leaves the normalised values as they are. *)
Theorem normalization_idempotent opF row lo hi :
  slice lo hi (nth row opF []) <> [] ->
  Forall (fun v => 0 < v) (slice lo hi (nth row opF [])) ->
  let window := slice lo hi (nth row opF []) in
  median (map (fun v => v / median window) window) = 1 /\
  baseline (normalize opF row lo hi) row lo hi = 1 /\
  normalize (normalize opF row lo hi) row lo hi = normalize opF row lo hi.
Proof.
  intros Hne Hp window.
  pose proof (median_pos _ Hne Hp) as Hm. fold window in Hm.
  assert (H1 : baseline (normalize opF row lo hi) row lo hi = 1).
  { unfold normalize. rewrite baseline_divide by exact Hm.
    unfold baseline. fold window. field. lra. }
  split; [|split].
  - rewrite median_scale by exact Hm. field. lra.
  - exact H1.
  - unfold normalize at 1. rewrite H1. apply divide_one.
Qed.

Lemma normalization_idempotent_witness :
  slice 0 2 (nth 0 [[2; 4; 6]] []) <> [] /\
  Forall (fun v => 0 < v) (slice 0 2 (nth 0 [[2; 4; 6]] [])) /\
  let window := slice 0 2 (nth 0 [[2; 4; 6]] []) in
  median (map (fun v => v / median window) window) = 1 /\
  baseline (normalize [[2; 4; 6]] 0 0 2) 0 0 2 = 1 /\
  normalize (normalize [[2; 4; 6]] 0 0 2) 0 0 2 = normalize [[2; 4; 6]] 0 0 2.
Proof.
  assert (H1 : slice 0 2 (nth 0 [[2; 4; 6]] []) <> []) by (simpl; discriminate).
  assert (H2 : Forall (fun v => 0 < v) (slice 0 2 (nth 0 [[2; 4; 6]] [])))
    by (simpl; repeat constructor; lra).
  split; [exact H1|]. split; [exact H2|].
  exact (normalization_idempotent [[2; 4; 6]] 0 0 2 H1 H2).
Defined.

(* ================================================================= *)
(** ** Complex arithmetic *)

Lemma C_eq (z w : C) : fst z = fst w -> snd z = snd w -> z = w.
Proof. destruct z, w; simpl; intros -> ->; reflexivity. Qed.

Lemma Cplus_comm z w : Cplus z w = Cplus w z.
Proof. apply C_eq; simpl; ring. Qed.

Lemma Cplus_assoc z w u : Cplus z (Cplus w u) = Cplus (Cplus z w) u.
Proof. apply C_eq; simpl; ring. Qed.

Lemma Cplus_0_l z : Cplus C0 z = z.
Proof. apply C_eq; simpl; ring. Qed.

Lemma Cplus_0_r z : Cplus z C0 = z.
Proof. apply C_eq; simpl; ring. Qed.

Lemma Cmult_assoc z w u : Cmult z (Cmult w u) = Cmult (Cmult z w) u.
Proof. apply C_eq; simpl; ring. Qed.

Lemma Cmult_comm z w : Cmult z w = Cmult w z.
Proof. apply C_eq; simpl; ring. Qed.

Lemma Cre_mult_conj z : Cre (Cmult z (Cconj z)) = Cnorm2 z.
Proof. unfold Cre, Cnorm2; simpl; ring. Qed.

Lemma Cnorm2_nonneg z : 0 <= Cnorm2 z.
Proof. unfold Cnorm2. nra. Qed.

(** exp(i t) = cos t + i sin t *)
Lemma Cexp_i t : Cexp (Cscal t Ci) = (cos t, sin t).
Proof.
  unfold Cexp, Cscal, Ci; simpl.
  rewrite Rmult_0_r, exp_0, Rmult_1_r. apply C_eq; simpl; ring.
Qed.

Lemma Cexp_i_plus s t :
  Cmult (Cexp (Cscal s Ci)) (Cexp (Cscal t Ci)) = Cexp (Cscal (s + t) Ci).
Proof.
  rewrite !Cexp_i. unfold Cmult; simpl. rewrite cos_plus, sin_plus.
  apply C_eq; simpl; ring.
Qed.

Lemma Csum_app l m : Csum (l ++ m) = Cplus (Csum l) (Csum m).
Proof.
  induction l as [|z l IH]; simpl; [symmetry; apply Cplus_0_l|].
  rewrite IH. apply Cplus_assoc.
Qed.

(** The list sums of [fft2] are the indexed sums of the specification. *)
Lemma Csum_seq n f : Csum (map f (seq 0 n)) = Spec.sum_to n f.
Proof.
  induction n as [|n IH]; [reflexivity|].
  rewrite seq_S, map_app, Csum_app, IH. simpl. rewrite Cplus_0_r. reflexivity.
Qed.

Lemma sum_to_ext n f g :
  (forall c, (c < n)%nat -> f c = g c) -> Spec.sum_to n f = Spec.sum_to n g.
Proof.
  induction n as [|n IH]; intros H; simpl; [reflexivity|].
  rewrite IH by (intros c Hc; apply H; lia). rewrite H by lia. reflexivity.
Qed.

(* ================================================================= *)
(** ** [np.roll] *)

Lemma roll_length {A} s (l : list A) : length (roll s l) = length l.
Proof.
  unfold roll. destruct (length l) as [|n] eqn:E; [exact E|].
  rewrite length_app, length_skipn, length_firstn, E.
  pose proof (Nat.mod_upper_bound s (S n)). lia.
Qed.

(** [np.roll(l, s)[i] = l[(i - s) mod n]] *)
Lemma nth_roll {A} s (l : list A) i d :
  (i < length l)%nat ->
  nth i (roll s l) d
  = nth ((i + length l - s mod length l) mod length l) l d.
Proof.
  intros Hi. unfold roll. destruct (length l) as [|n] eqn:E; [lia|].
  rewrite <- E in *. set (n' := length l) in *.
  assert (Hk : (s mod n' < n')%nat) by (apply Nat.mod_upper_bound; lia).
  set (k := (s mod n')%nat) in *.
  destruct (Nat.lt_ge_cases i k) as [Hlt|Hge].
  - rewrite app_nth1 by (rewrite length_skipn; fold n'; lia).
    rewrite nth_skipn.
    replace ((i + n' - k) mod n')%nat with (n' - k + i)%nat; [reflexivity|].
    rewrite Nat.mod_small by lia. lia.
  - rewrite app_nth2 by (rewrite length_skipn; fold n'; lia).
    rewrite length_skipn. fold n'.
    rewrite nth_firstn.
    replace (i - (n' - (n' - k)))%nat with (i - k)%nat by lia.
    destruct (Nat.ltb_spec (i - k) (n' - k)) as [_|Hc]; [|lia].
    replace ((i + n' - k) mod n')%nat with (i - k)%nat; [reflexivity|].
    replace (i + n' - k)%nat with (i - k + 1 * n')%nat by lia.
    rewrite Nat.Div0.mod_add. symmetry. apply Nat.mod_small. lia.
Qed.

(** The index [np.roll] reads from is the specification's (i - n2) mod npts. *)
Lemma roll_index npts i :
  (0 < npts)%nat -> (i < npts)%nat ->
  ((i + npts - (npts / 2) mod npts) mod npts)%nat = Spec.shifted npts i.
Proof.
  intros Hn Hi. unfold Spec.shifted.
  assert (H2 : (npts / 2 < npts)%nat) by (apply Nat.div_lt; lia).
  rewrite (Nat.mod_small (npts / 2)) by exact H2.
  apply Nat2Z.inj. rewrite Z2Nat.id by (apply Z.mod_pos_bound; lia).
  rewrite Nat2Z.inj_mod, Nat2Z.inj_sub, Nat2Z.inj_add by lia.
  replace (Z.of_nat i + Z.of_nat npts - Z.of_nat (npts / 2))%Z
    with (Z.of_nat i - Z.of_nat (npts / 2) + 1 * Z.of_nat npts)%Z by lia.
  apply Z_mod_plus_full.
Qed.

Lemma shifted_lt npts i : (0 < npts)%nat -> (Spec.shifted npts i < npts)%nat.
Proof.
  intros Hn. unfold Spec.shifted.
  pose proof (Z.mod_pos_bound (Z.of_nat i - Z.of_nat (npts / 2)) (Z.of_nat npts)).
  lia.
Qed.

Lemma roll_Forall {A} (P : A -> Prop) s (l : list A) :
  Forall P l -> Forall P (roll s l).
Proof.
  intros H. unfold roll. destruct (length l) as [|n]; [exact H|].
  set (k := (S n - s mod S n)%nat).
  rewrite <- (firstn_skipn k l) in H. apply Forall_app in H.
  apply Forall_app. tauto.
Qed.

Lemma square_roll {A} n s (a : matrix A) :
  square n a -> square n (roll1 s (roll0 s a)).
Proof.
  intros [Hl Hr]. unfold roll1, roll0. split.
  - rewrite length_map, roll_length. exact Hl.
  - rewrite Forall_map. apply roll_Forall.
    eapply Forall_impl; [|exact Hr]. intros r H. rewrite roll_length. exact H.
Qed.

Lemma get_roll {A} n (a : matrix A) i j d :
  (0 < n)%nat -> square n a -> (i < n)%nat -> (j < n)%nat ->
  get d (roll1 (n / 2) (roll0 (n / 2) a)) i j
  = get d a (Spec.shifted n i) (Spec.shifted n j).
Proof.
  intros Hn Hs Hi Hj. unfold get, roll1, roll0.
  pose proof Hs as [Hl Hr].
  rewrite (nth_map_in (roll (n / 2)) _ i [] [])
    by (rewrite roll_length, Hl; exact Hi).
  rewrite (nth_roll (n / 2) a i []) by (rewrite Hl; exact Hi).
  rewrite Hl, roll_index by assumption.
  pose proof (shifted_lt n i Hn) as Hi'.
  rewrite nth_roll by (rewrite (square_row n); assumption).
  rewrite (square_row n) by assumption.
  rewrite roll_index by assumption. reflexivity.
Qed.

(* ================================================================= *)
(** ** The propagator *)

Lemma eTerm_Ok npts n2 :
  (0 < npts)%nat ->
  exists e, eTerm npts n2 = Ok e /\ square npts e /\
    forall r c, (r < npts)%nat -> (c < npts)%nat ->
      get C0 e r c = eTerm_cell npts n2 r c.
Proof.
  intros Hn. unfold eTerm.
  destruct (Nat.eqb_spec npts 0) as [|_]; [lia|].
  unfold centred, indices; cbv iota beta zeta. simpl fst. simpl snd.
  eexists. split; [reflexivity|].
  assert (Hy : square npts
            (map (map (fun v => v - 1.0 * INR n2))
               (map (fun r => map (fun _ => INR r) (seq 0 npts)) (seq 0 npts))))
    by (apply square_map, square_seq).
  assert (Hx : square npts
            (map (map (fun v => v - 1.0 * INR n2))
               (map (fun _ => map (fun c => INR c) (seq 0 npts)) (seq 0 npts))))
    by (apply square_map, (square_seq (fun _ c => INR c))).
  split; [apply square_map2; assumption|].
  intros r c Hr Hc.
  rewrite (get_map2 _ npts _ _ r c C0 0 0) by assumption.
  rewrite (get_map _ npts _ r c 0 0)
    by (try apply (square_seq (fun r _ => INR r)); assumption).
  rewrite (get_map _ npts _ r c 0 0)
    by (try apply (square_seq (fun _ c => INR c)); assumption).
  rewrite (get_seq (fun r _ => INR r)), (get_seq (fun _ c => INR c)) by assumption.
  reflexivity.
Qed.

Lemma bmul_square n (a b : matrix C) :
  (0 < n)%nat -> square n a -> square n b ->
  bmul a b = Ok (map2 (map2 Cmult) a b).
Proof.
  intros Hn Ha Hb. unfold bmul.
  rewrite (square_shape n a), (square_shape n b) by assumption. simpl.
  unfold bdim. rewrite Nat.eqb_refl. rewrite !broadcast_same by assumption.
  reflexivity.
Qed.

Lemma fft2_Ok n (M : matrix C) :
  (0 < n)%nat -> square n M -> fft2 M = Ok (fft2_values M).
Proof.
  intros Hn HM. unfold fft2. rewrite (square_shape n M) by assumption.
  simpl fst; simpl snd. destruct n; [lia | reflexivity].
Qed.

Lemma fft2_square n (M : matrix C) :
  (0 < n)%nat -> square n M ->
  square n (fft2_values M) /\
  forall k l, (k < n)%nat -> (l < n)%nat ->
    get C0 (fft2_values M) k l
    = Spec.sum_to n (fun r =>
        Spec.sum_to n (fun c =>
          Cmult (get C0 M r c) (Cmult (omega n (k * r)) (omega n (l * c))))).
Proof.
  intros Hn HM. unfold fft2_values. rewrite (square_shape n M) by assumption.
  simpl fst; simpl snd. split.
  - apply (square_seq (fun k l => Csum _)).
  - intros k l Hk Hl.
    rewrite (get_seq (fun k l => Csum (map (fun r => Csum _) (seq 0 n))))
      by assumption.
    rewrite Csum_seq. apply sum_to_ext. intros r _. apply Csum_seq.
Qed.

(** What [occ_lc] returns on a square aperture. *)
Lemma occ_lc_Ok npts (ap : matrix C) :
  (0 < npts)%nat -> square npts ap ->
  exists P, occ_lc ap = Ok P /\ square npts P /\
    forall i j, (i < npts)%nat -> (j < npts)%nat ->
      get 0 P i j
      = Cnorm2 (E_obs_cell npts ap (Spec.shifted npts i) (Spec.shifted npts j)).
Proof.
  intros Hn Hs. unfold occ_lc.
  rewrite (square_shape npts ap) by assumption. simpl fst.
  destruct (eTerm_Ok npts (npts / 2) Hn) as (e & -> & He & Hget). cbn [bind].
  rewrite (bmul_square npts) by assumption. cbn [bind].
  pose proof (square_map2 Cmult npts ap e Hs He) as HM.
  rewrite (fft2_Ok npts) by assumption. cbn [bind].
  destruct (fft2_square npts _ Hn HM) as [HF HFget].
  eexists. split; [reflexivity|].
  pose proof (square_map (fun z => Cre (Cmult z (Cconj z))) npts _ HF) as Hp.
  split; [apply square_roll; exact Hp|].
  intros i j Hi Hj.
  rewrite (get_roll npts) by assumption.
  pose proof (shifted_lt npts i Hn) as Hi'.
  pose proof (shifted_lt npts j Hn) as Hj'.
  rewrite (get_map _ npts _ _ _ 0 C0) by assumption. cbv beta.
  rewrite Cre_mult_conj, HFget by assumption.
  f_equal. unfold E_obs_cell. apply sum_to_ext. intros r Hr.
  apply sum_to_ext. intros c Hc.
  rewrite (get_map2 Cmult npts ap e r c C0 C0 C0) by assumption.
  rewrite Hget by assumption. reflexivity.
Qed.

Lemma square_Forall_get {A} (Q : A -> Prop) n (a : matrix A) d :
  square n a ->
  (forall i j, (i < n)%nat -> (j < n)%nat -> Q (get d a i j)) ->
  Forall (Forall Q) a.
Proof.
  intros Hs H. pose proof Hs as [Hl Hr].
  apply Forall_nth. intros i r Hi.
  rewrite (nth_indep a r [] Hi). apply Forall_nth. intros j d' Hj.
  rewrite (square_row n) in Hj by (auto; lia).
  rewrite (nth_indep _ d' d) by (rewrite (square_row n); auto; lia).
  apply H; lia.
Qed.

Lemma sum_to_scal s n f :
  Spec.sum_to n (fun c => Cscal s (f c)) = Cscal s (Spec.sum_to n f).
Proof.
  induction n as [|n IH]; simpl.
  - apply C_eq; simpl; ring.
  - rewrite IH. apply C_eq; simpl; ring.
Qed.

Lemma Cnorm2_scal s z : Cnorm2 (Cscal s z) = s ^ 2 * Cnorm2 z.
Proof. unfold Cnorm2, Cscal; simpl; ring. Qed.

Lemma E_obs_cell_scal s npts ap k l :
  square npts ap ->
  E_obs_cell npts (map (map (Cscal s)) ap) k l
  = Cscal s (E_obs_cell npts ap k l).
Proof.
  intros Hs. unfold E_obs_cell. rewrite <- sum_to_scal.
  apply sum_to_ext. intros r Hr. rewrite <- sum_to_scal.
  apply sum_to_ext. intros c Hc.
  rewrite (get_map (Cscal s) npts ap r c C0 C0) by assumption.
  apply C_eq; simpl; ring.
Qed.

(* ================================================================= *)
(** ** Claims about [occ_lc] *)

(** C7.  On a square aperture of side [npts] (an aperture has at least one
    sample) [occ_lc] returns an array of reals of the same [npts] x [npts]
    shape whose entries are squared moduli of entries of the transform,
    hence non-negative.  Nothing rescales them: an entry equals the squared
    modulus itself, so an aperture scaled by [s] gives an output scaled by
    [s^2]. *)
Theorem occ_lc_intensity npts (ap : matrix C) :
  (0 < npts)%nat -> square npts ap ->
  exists P,
    occ_lc ap = Ok P /\
    square npts P /\
    Forall (Forall (fun v => 0 <= v)) P /\
    (forall i j, (i < npts)%nat -> (j < npts)%nat ->
       get 0 P i j
       = Cnorm2 (E_obs_cell npts ap (Spec.shifted npts i) (Spec.shifted npts j))) /\
    (forall s, exists P',
       occ_lc (map (map (Cscal s)) ap) = Ok P' /\
       forall i j, (i < npts)%nat -> (j < npts)%nat ->
         get 0 P' i j = s ^ 2 * get 0 P i j).
Proof.
  intros Hn Hs.
  destruct (occ_lc_Ok npts ap Hn Hs) as (P & HP & Hsq & Hget).
  exists P. split; [exact HP|]. split; [exact Hsq|]. split; [|split].
  - apply (square_Forall_get _ npts P 0 Hsq).
    intros i j Hi Hj. rewrite Hget by assumption. apply Cnorm2_nonneg.
  - exact Hget.
  - intros s.
    destruct (occ_lc_Ok npts (map (map (Cscal s)) ap) Hn (square_map _ npts ap Hs))
      as (P' & HP' & _ & Hget').
    exists P'. split; [exact HP'|]. intros i j Hi Hj.
    rewrite Hget', Hget by assumption.
    rewrite E_obs_cell_scal by exact Hs. apply Cnorm2_scal.
Qed.

Lemma ones3_square : square 3 ones3.
Proof. split; [reflexivity|]. repeat constructor. Qed.

Lemma occ_lc_intensity_witness :
  (0 < 3)%nat /\ square 3 ones3 /\
  exists P,
    occ_lc ones3 = Ok P /\
    square 3 P /\
    Forall (Forall (fun v => 0 <= v)) P /\
    (forall i j, (i < 3)%nat -> (j < 3)%nat ->
       get 0 P i j
       = Cnorm2 (E_obs_cell 3 ones3 (Spec.shifted 3 i) (Spec.shifted 3 j))) /\
    (forall s, exists P',
       occ_lc (map (map (Cscal s)) ones3) = Ok P' /\
       forall i j, (i < 3)%nat -> (j < 3)%nat ->
         get 0 P' i j = s ^ 2 * get 0 P i j).
Proof.
  assert (H1 : (0 < 3)%nat) by lia.
  split; [exact H1|]. split; [exact ones3_square|].
  exact (occ_lc_intensity 3 ones3 H1 ones3_square).
Defined.

(** The phase factor of line 50 is exp(i pi/npts ((r - n2)^2 + (c - n2)^2))
    over integer offsets. *)
Lemma eTerm_cell_spec npts n2 r c :
  (0 < npts)%nat ->
  eTerm_cell npts n2 r c
  = Cexp (Cscal (PI / INR npts * ((Spec.offset r n2) ^ 2 + (Spec.offset c n2) ^ 2)) Ci).
Proof.
  intros Hn. unfold eTerm_cell, Spec.offset.
  rewrite !minus_IZR, <- !INR_IZR_INZ.
  assert (H0 : INR npts <> 0) by (apply not_0_INR; lia).
  replace 1.0 with 1 by lra.
  f_equal. apply C_eq; unfold Cscal, Cdivr, Ci; cbn [fst snd]; field; exact H0.
Qed.

(** The two twiddle factors of [fft2] multiply to exp(-2 pi i (k r + l c)/npts). *)
Lemma omega_mult npts a b :
  (0 < npts)%nat ->
  Cmult (omega npts a) (omega npts b)
  = Cexp (Cscal (- (2 * PI * INR (a + b) / INR npts)) Ci).
Proof.
  intros Hn. unfold omega. rewrite Cexp_i_plus. f_equal. f_equal.
  rewrite plus_INR. field. apply not_0_INR; lia.
Qed.

Lemma E_obs_cell_spec npts ap k l :
  (0 < npts)%nat ->
  E_obs_cell npts ap k l = Spec.dft2 npts (Spec.modified npts ap) k l.
Proof.
  intros Hn. unfold E_obs_cell, Spec.dft2, Spec.modified.
  apply sum_to_ext. intros r _. apply sum_to_ext. intros c _.
  rewrite eTerm_cell_spec, omega_mult by exact Hn. reflexivity.
Qed.

Lemma shifted_centre npts : (0 < npts)%nat -> Spec.shifted npts (npts / 2) = O.
Proof.
  intros Hn. unfold Spec.shifted. rewrite Z.sub_diag, Z.mod_0_l by lia.
  reflexivity.
Qed.

(** C1.  For a square aperture of even side [npts] (at least one sample),
    with [n2 = npts/2], [occ_lc] returns the array [P] with
    [P[i][j] = |F[(i - n2) mod npts][(j - n2) mod npts]|^2], where [F] is
    the unnormalised forward 2-D transform of
    [M[r][c] = ap[r][c] * exp(i pi/npts ((r - n2)^2 + (c - n2)^2))]; the
    zero-frequency term [F[0][0]] lands at the centre [(n2, n2)]. *)
Theorem occ_lc_shifted_transform npts (ap : matrix C) :
  (0 < npts)%nat -> Nat.Even npts -> square npts ap ->
  exists P,
    occ_lc ap = Ok P /\
    square npts P /\
    (forall i j, (i < npts)%nat -> (j < npts)%nat ->
       get 0 P i j = Spec.intensity npts ap i j) /\
    get 0 P (npts / 2) (npts / 2)
    = Cnorm2 (Spec.dft2 npts (Spec.modified npts ap) 0 0).
Proof.
  intros Hn _ Hs.
  destruct (occ_lc_Ok npts ap Hn Hs) as (P & HP & Hsq & Hget).
  exists P. split; [exact HP|]. split; [exact Hsq|].
  assert (H : forall i j, (i < npts)%nat -> (j < npts)%nat ->
            get 0 P i j = Spec.intensity npts ap i j).
  { intros i j Hi Hj. rewrite Hget by assumption.
    unfold Spec.intensity. rewrite E_obs_cell_spec by exact Hn. reflexivity. }
  split; [exact H|].
  assert (H2 : (npts / 2 < npts)%nat) by (apply Nat.div_lt; lia).
  rewrite H by exact H2. unfold Spec.intensity.
  rewrite shifted_centre by exact Hn. reflexivity.
Qed.

Lemma occ_lc_shifted_transform_witness :
  (0 < 2)%nat /\ Nat.Even 2 /\
  square 2 [[RtoC 1; RtoC 0.5]; [RtoC 1; RtoC 0.5]] /\
  exists P,
    occ_lc [[RtoC 1; RtoC 0.5]; [RtoC 1; RtoC 0.5]] = Ok P /\
    square 2 P /\
    (forall i j, (i < 2)%nat -> (j < 2)%nat ->
       get 0 P i j
       = Spec.intensity 2 [[RtoC 1; RtoC 0.5]; [RtoC 1; RtoC 0.5]] i j) /\
    get 0 P (2 / 2) (2 / 2)
    = Cnorm2 (Spec.dft2 2
                (Spec.modified 2 [[RtoC 1; RtoC 0.5]; [RtoC 1; RtoC 0.5]]) 0 0).
Proof.
  assert (H1 : (0 < 2)%nat) by lia.
  assert (H2 : Nat.Even 2) by (exists 1%nat; reflexivity).
  assert (H3 : square 2 [[RtoC 1; RtoC 0.5]; [RtoC 1; RtoC 0.5]])
    by (split; [reflexivity | repeat constructor]).
  split; [exact H1|]. split; [exact H2|]. split; [exact H3|].
  exact (occ_lc_shifted_transform 2 _ H1 H2 H3).
Defined.

(** C4, as stated, fails: on the 3 x 3 aperture of ones, whose side is odd,
    [occ_lc] raises nothing and returns a 3 x 3 array. *)
Lemma occ_lc_odd_side_returns :
  square 3 ones3 /\ ~ Nat.Even 3 /\
  (exists P, occ_lc ones3 = Ok P /\ square 3 P) /\
  (forall e, occ_lc ones3 <> Raise e).
Proof.
  destruct (occ_lc_Ok 3 ones3 ltac:(lia) ones3_square) as (P & HP & Hsq & _).
  split; [exact ones3_square|]. split; [intros [m Hm]; lia|].
  split; [exists P; split; assumption|].
  intros e He. rewrite HP in He. discriminate.
Qed.

Lemma rect_square {A} (a : matrix A) :
  rect a -> snd (shape a) = fst (shape a) -> square (fst (shape a)) a.
Proof.
  intros Hr He. split; [reflexivity|]. rewrite <- He. exact Hr.
Qed.

Lemma bdim_ok m n :
  m = n \/ m = 1%nat \/ n = 1%nat -> exists k, bdim m n = Some k.
Proof.
  intros H. unfold bdim.
  destruct (Nat.eqb_spec m n); [eauto|].
  destruct (Nat.eqb_spec m 1); [eauto|].
  destruct (Nat.eqb_spec n 1); [eauto|]. lia.
Qed.

Lemma bdim_none m n :
  m <> n -> m <> 1%nat -> n <> 1%nat -> bdim m n = None.
Proof.
  intros H1 H2 H3. unfold bdim.
  destruct (Nat.eqb_spec m n); [lia|].
  destruct (Nat.eqb_spec m 1); [lia|].
  destruct (Nat.eqb_spec n 1); [lia|]. reflexivity.
Qed.

(** The broadcast length is that of either operand, or the other operand
    has length one. *)
Lemma bdim_Some m n k :
  bdim m n = Some k ->
  (m = k \/ m = 1%nat) /\ (n = k \/ n = 1%nat) /\
  (k = m \/ k = n).
Proof.
  unfold bdim.
  destruct (Nat.eqb_spec m n); [intros H; inversion H; subst; tauto|].
  destruct (Nat.eqb_spec m 1); [intros H; inversion H; subst; tauto|].
  destruct (Nat.eqb_spec n 1); [intros H; inversion H; subst; tauto|].
  discriminate.
Qed.

Lemma stretch_length {A} n (l : list A) :
  length l = n \/ length l = 1%nat -> length (stretch n l) = n.
Proof.
  destruct l as [|x [|y l]]; simpl; intros [H|H]; try lia;
    try discriminate; apply repeat_length.
Qed.

Lemma stretch_Forall {A} (Q : A -> Prop) n (l : list A) :
  Forall Q l -> Forall Q (stretch n l).
Proof.
  intros H. destruct l as [|x [|y l]]; simpl; try exact H.
  inversion H; subst. clear H. induction n; simpl; constructor; auto.
Qed.

Lemma dims_broadcast {A} ra ca nr nc (a : matrix A) :
  dims ra ca a -> (ra = nr \/ ra = 1%nat) -> (ca = nc \/ ca = 1%nat) ->
  dims nr nc (broadcast_to nr nc a).
Proof.
  intros [Hl Hr] Hra Hca. unfold broadcast_to. split.
  - apply stretch_length. rewrite length_map, Hl. exact Hra.
  - apply stretch_Forall. rewrite Forall_map.
    eapply Forall_impl; [|exact Hr]. intros r Hlen.
    apply stretch_length. rewrite Hlen. exact Hca.
Qed.

Lemma dims_map2 {A B X} (f : A -> B -> X) nr nc (a : matrix A) (b : matrix B) :
  dims nr nc a -> dims nr nc b -> dims nr nc (map2 (map2 f) a b).
Proof.
  intros [Hla Hra] [Hlb Hrb]; split.
  - rewrite map2_length; congruence.
  - clear Hla Hlb. revert b Hrb.
    induction Hra as [|r a Hr _ IH]; intros [|s b] Hrb; simpl; auto.
    inversion Hrb; subst. constructor; [|apply IH; assumption].
    rewrite map2_length; congruence.
Qed.

Lemma dims_shape {A} nr nc (a : matrix A) :
  (0 < nr)%nat -> dims nr nc a -> shape a = (nr, nc).
Proof.
  intros Hn [Hl Hr]. unfold shape. destruct a as [|r a]; simpl in *; [lia|].
  inversion Hr; subst. reflexivity.
Qed.

Lemma rect_dims {A} (a : matrix A) :
  rect a -> dims (fst (shape a)) (snd (shape a)) a.
Proof. intros H. split; [reflexivity | exact H]. Qed.

(** The transform of an array with rows exists exactly when it has
    columns. *)
Lemma fft2_dims nr nc (M : matrix C) :
  (0 < nr)%nat -> dims nr nc M ->
  fft2 M = if Nat.eqb nc 0 then Raise ValueError else Ok (fft2_values M).
Proof.
  intros Hn HM. unfold fft2. rewrite (dims_shape nr nc M Hn HM).
  simpl fst; simpl snd. destruct nr; [lia | reflexivity].
Qed.

(** [occ_lc] on an array of [npts >= 1] rows and [m] columns: the product
    of line 51 broadcasts to [npts] rows and [k] columns or raises, and the
    transform of line 53 raises when [k = 0]. *)
Lemma occ_lc_by_shape (ap : matrix C) :
  rect ap -> (0 < fst (shape ap))%nat ->
  match bdim (snd (shape ap)) (fst (shape ap)) with
  | None => occ_lc ap = Raise ValueError
  | Some O => occ_lc ap = Raise ValueError
  | Some (S k) => exists P, occ_lc ap = Ok P
  end.
Proof.
  intros Hr Hn. unfold occ_lc.
  set (npts := fst (shape ap)) in *. set (m := snd (shape ap)) in *.
  destruct (eTerm_Ok npts (npts / 2) Hn) as (e & -> & He & _). cbn [bind].
  unfold bmul. rewrite (square_shape npts e Hn He). fold npts m.
  simpl fst; simpl snd.
  assert (Hrr : bdim npts npts = Some npts)
    by (unfold bdim; rewrite Nat.eqb_refl; reflexivity).
  rewrite Hrr.
  destruct (bdim m npts) as [k|] eqn:Ek; [|reflexivity].
  destruct (bdim_Some m npts k Ek) as (Hm & Hk & _).
  assert (HM : dims npts k
                 (map2 (map2 Cmult) (broadcast_to npts k ap) (broadcast_to npts k e))).
  { apply dims_map2.
    - apply (dims_broadcast npts m); [apply rect_dims; exact Hr | tauto | exact Hm].
    - apply (dims_broadcast npts npts); [exact He | tauto | exact Hk]. }
  cbn [bind]. rewrite (fft2_dims npts k _ Hn HM).
  destruct k as [|k]; simpl; [reflexivity | eexists; reflexivity].
Qed.

Lemma occ_lc_shapes (ap : matrix C) :
  rect ap -> (0 < fst (shape ap))%nat ->
  let npts := fst (shape ap) in
  let m := snd (shape ap) in
  (m = npts -> exists P, occ_lc ap = Ok P /\ square npts P) /\
  (m = 1%nat \/ (npts = 1%nat /\ (0 < m)%nat) -> exists P, occ_lc ap = Ok P) /\
  (m <> npts -> m <> 1%nat -> ~ (npts = 1%nat /\ (0 < m)%nat) ->
   occ_lc ap = Raise ValueError).
Proof.
  intros Hr Hn npts m.
  pose proof (occ_lc_by_shape ap Hr Hn) as H. fold npts m in H.
  split; [|split].
  - intros Hm.
    destruct (occ_lc_Ok npts ap Hn (rect_square ap Hr Hm)) as (P & HP & Hsq & _).
    exists P; split; assumption.
  - intros Hm. destruct (bdim m npts) as [k|] eqn:Ek.
    + destruct (bdim_Some m npts k Ek) as (_ & _ & Hk).
      destruct k as [|k]; [|exact H].
      exfalso. unfold npts in *. lia.
    + exfalso. destruct (bdim_ok m npts) as [k Hk]; [|congruence].
      destruct Hm as [Hm|[Hm _]]; tauto.
  - intros H1 H2 H3. destruct (bdim m npts) as [k|] eqn:Ek; [|exact H].
    destruct (bdim_Some m npts k Ek) as (Hm & Hk & Hkk).
    destruct k as [|k]; [exact H|].
    exfalso. apply H3. split; lia.
Qed.

(** C4, amended.  [occ_lc] checks no shape and has no error of its own for
    it.  On a 2-D aperture with [npts >= 1] rows and [m] columns: if
    [m = npts] it returns an [npts] x [npts] array, for even and for odd
    [npts]; if [m = 1], or if [npts = 1] and there is a column, the
    product [ap*eTerm] broadcasts and it returns; in every other case it
    raises [ValueError], from NumPy's broadcasting in the product or, for
    the 1 x 0 aperture, from [fft2], which refuses an axis without data
    points. *)
Theorem occ_lc_shape_policy (ap : matrix C) :
  rect ap -> (0 < fst (shape ap))%nat ->
  let npts := fst (shape ap) in
  let m := snd (shape ap) in
  (m = npts -> exists P, occ_lc ap = Ok P /\ square npts P) /\
  (m = 1%nat \/ (npts = 1%nat /\ (0 < m)%nat) -> exists P, occ_lc ap = Ok P) /\
  (m <> npts -> m <> 1%nat -> ~ (npts = 1%nat /\ (0 < m)%nat) ->
   occ_lc ap = Raise ValueError).
Proof. exact (occ_lc_shapes ap). Qed.

Lemma occ_lc_shape_policy_witness :
  rect ones23 /\ (0 < fst (shape ones23))%nat /\
  let npts := fst (shape ones23) in
  let m := snd (shape ones23) in
  (m = npts -> exists P, occ_lc ones23 = Ok P /\ square npts P) /\
  (m = 1%nat \/ (npts = 1%nat /\ (0 < m)%nat) -> exists P, occ_lc ones23 = Ok P) /\
  (m <> npts -> m <> 1%nat -> ~ (npts = 1%nat /\ (0 < m)%nat) ->
   occ_lc ones23 = Raise ValueError).
Proof.
  assert (H1 : rect ones23) by (repeat constructor).
  assert (H2 : (0 < fst (shape ones23))%nat) by (simpl; lia).
  split; [exact H1|]. split; [exact H2|].
  exact (occ_lc_shape_policy ones23 H1 H2).
Defined.

(** The three ways through [occ_lc] for an aperture that is not square:
    2 x 3 does not broadcast, 1 x 3 broadcasts and returns, 1 x 0 reaches
    the transform without a column. *)
Example occ_lc_2x3_raises : occ_lc ones23 = Raise ValueError.
Proof.
  assert (H1 : rect ones23) by (repeat constructor).
  assert (H2 : (0 < fst (shape ones23))%nat) by (simpl; lia).
  apply (occ_lc_shapes ones23 H1 H2); simpl; lia.
Qed.

Example occ_lc_1x3_returns : exists P, occ_lc ones13 = Ok P.
Proof.
  assert (H1 : rect ones13) by (repeat constructor).
  assert (H2 : (0 < fst (shape ones13))%nat) by (simpl; lia).
  apply (occ_lc_shapes ones13 H1 H2). right. simpl. lia.
Qed.

Example occ_lc_1x0_raises : occ_lc [[]] = Raise ValueError.
Proof.
  assert (H1 : rect (@cons (list C) [] [])) by (repeat constructor).
  assert (H2 : (0 < fst (shape (@cons (list C) [] [])))%nat) by (simpl; lia).
  apply (occ_lc_shapes [[]] H1 H2); simpl; lia.
Qed.

(* ================================================================= *)
(** ** Mirror symmetry of the transform *)

Lemma sum_to_shift n f :
  Spec.sum_to (S n) f = Cplus (f O) (Spec.sum_to n (fun c => f (S c))).
Proof.
  induction n as [|n IH].
  - simpl. rewrite Cplus_0_l, Cplus_0_r. reflexivity.
  - change (Spec.sum_to (S (S n)) f)
      with (Cplus (Spec.sum_to (S n) f) (f (S n))).
    rewrite IH, <- Cplus_assoc. reflexivity.
Qed.

Lemma sum_to_rev n f :
  Spec.sum_to n f = Spec.sum_to n (fun c => f (n - 1 - c)%nat).
Proof.
  induction n as [|n IH]; [reflexivity|].
  rewrite (sum_to_shift n (fun c => f (S n - 1 - c)%nat)).
  simpl Spec.sum_to at 1. rewrite Cplus_comm. f_equal.
  - f_equal. lia.
  - rewrite IH. apply sum_to_ext. intros c Hc. f_equal. lia.
Qed.

Lemma mirror_0 n : mirror n 0 = O.
Proof. unfold mirror. rewrite Nat.sub_0_r. apply Nat.Div0.mod_same. Qed.

Lemma mirror_pos n c : (0 < c < n)%nat -> mirror n c = (n - c)%nat.
Proof. intros H. unfold mirror. apply Nat.mod_small. lia. Qed.

Lemma mirror_lt n c : (0 < n)%nat -> (mirror n c < n)%nat.
Proof. intros H. unfold mirror. apply Nat.mod_upper_bound. lia. Qed.

(** A sum over one period may be taken in mirrored order. *)
Lemma sum_to_mirror n f :
  Spec.sum_to n f = Spec.sum_to n (fun c => f (mirror n c)).
Proof.
  destruct n as [|m]; [reflexivity|].
  rewrite !sum_to_shift, mirror_0. f_equal.
  rewrite sum_to_rev. apply sum_to_ext. intros c Hc.
  rewrite mirror_pos by lia. f_equal. lia.
Qed.

(** The twiddle factors have period [n]. *)
Lemma omega_mod n a : (0 < n)%nat -> omega n a = omega n (a mod n).
Proof.
  intros Hn. unfold omega. rewrite !Cexp_i.
  assert (H0 : INR n <> 0) by (apply not_0_INR; lia).
  assert (Ha : - (2 * PI * INR (a mod n) / INR n)
               = - (2 * PI * INR a / INR n) + 2 * INR (a / n) * PI).
  { rewrite (Nat.div_mod_eq a n) at 2.
    rewrite plus_INR, mult_INR. field. exact H0. }
  rewrite Ha, cos_period, sin_period. reflexivity.
Qed.

Lemma omega_congr n a b :
  (0 < n)%nat -> (a mod n = b mod n)%nat -> omega n a = omega n b.
Proof.
  intros Hn H. rewrite (omega_mod n a), (omega_mod n b) by exact Hn.
  rewrite H. reflexivity.
Qed.

Lemma mirror_mul_mod n l c :
  (l < n)%nat -> (c < n)%nat ->
  ((mirror n l * mirror n c) mod n = (l * c) mod n)%nat.
Proof.
  intros Hl Hc. unfold mirror.
  rewrite Nat.Div0.mul_mod_idemp_l, Nat.Div0.mul_mod_idemp_r.
  rewrite <- (Nat.Div0.mod_add ((n - l) * (n - c)) (l + c) n).
  rewrite <- (Nat.Div0.mod_add (l * c) n n).
  f_equal. nia.
Qed.

(** The phase factor of line 50 is mirror symmetric along a row. *)
Lemma eTerm_cell_mirror npts r c :
  Nat.Even npts -> (c < npts)%nat ->
  eTerm_cell npts (npts / 2) r (mirror npts c) = eTerm_cell npts (npts / 2) r c.
Proof.
  intros He Hc. destruct c as [|c]; [rewrite mirror_0; reflexivity|].
  rewrite mirror_pos by lia. unfold eTerm_cell.
  rewrite INR_half by exact He. rewrite minus_INR by lia.
  replace 1.0 with 1 by lra.
  replace ((INR npts - INR (S c) - 1 * (INR npts / 2)) ^ 2)
    with ((INR (S c) - 1 * (INR npts / 2)) ^ 2) by field.
  reflexivity.
Qed.

(** The transform of a mirror-symmetric aperture is mirror symmetric. *)
Lemma E_obs_cell_mirror npts (ap : matrix C) k l :
  Nat.Even npts -> (0 < npts)%nat -> (l < npts)%nat ->
  (forall r c, (r < npts)%nat -> (c < npts)%nat ->
     get C0 ap r (mirror npts c) = get C0 ap r c) ->
  E_obs_cell npts ap k (mirror npts l) = E_obs_cell npts ap k l.
Proof.
  intros He Hn Hl Hsym. unfold E_obs_cell.
  apply sum_to_ext. intros r Hr.
  rewrite sum_to_mirror. apply sum_to_ext. intros c Hc.
  rewrite Hsym, eTerm_cell_mirror by assumption.
  rewrite (omega_congr npts (mirror npts l * mirror npts c) (l * c) Hn)
    by (apply mirror_mul_mod; assumption).
  reflexivity.
Qed.

Lemma ring_cell_even wid t_r x :
  (forall y, Rabs y <= wid / 2 -> t_r (- y) = t_r y) ->
  ring_cell (0.5 * wid) (tval t_r) 1 (- x)
  = ring_cell (0.5 * wid) (tval t_r) 1 x.
Proof.
  intros He. unfold ring_cell. rewrite Rabs_Ropp.
  destruct (Rleb (Rabs x) (0.5 * wid)) eqn:E; [|reflexivity].
  apply Rleb_true in E. unfold tval. rewrite He by lra. reflexivity.
Qed.

(** The aperture of an even transmission function is mirror symmetric
    along its rows. *)
Lemma RingSeg_ap_mirror lam D npts wid t_r ap FOV g r c :
  RingSeg_ap lam D npts wid t_r = Ok (ap, FOV, g) ->
  Nat.Even npts ->
  (forall y, Rabs y <= wid / 2 -> t_r (- y) = t_r y) ->
  (r < npts)%nat -> (c < npts)%nat ->
  get 0 ap r (mirror npts c) = get 0 ap r c.
Proof.
  intros H He Ht Hr Hc. destruct c as [|c]; [rewrite mirror_0; reflexivity|].
  rewrite mirror_pos by lia.
  destruct (RingSeg_ap_get lam D npts wid t_r ap FOV g r (S c) H Hr Hc) as [_ ->].
  destruct (RingSeg_ap_get lam D npts wid t_r ap FOV g r (npts - S c) H Hr
              ltac:(lia)) as [_ ->].
  rewrite <- (ring_cell_even wid t_r ((INR (S c) - INR (npts / 2)) * g) Ht).
  f_equal. rewrite INR_half by exact He. rewrite minus_INR by lia. field.
Qed.

Lemma shifted_right npts k :
  (k < npts / 2)%nat -> Spec.shifted npts (npts / 2 + k) = k.
Proof.
  intros Hk. unfold Spec.shifted.
  assert (H2 : (npts / 2 <= npts)%nat) by (apply Nat.Div0.div_le_upper_bound; lia).
  rewrite Nat2Z.inj_add.
  replace (Z.of_nat (npts / 2) + Z.of_nat k - Z.of_nat (npts / 2))%Z
    with (Z.of_nat k) by lia.
  rewrite Z.mod_small by lia. apply Nat2Z.id.
Qed.

Lemma shifted_left npts k :
  (0 < k < npts / 2)%nat -> Spec.shifted npts (npts / 2 - k) = mirror npts k.
Proof.
  intros Hk. unfold Spec.shifted.
  assert (H2 : (npts / 2 <= npts)%nat) by (apply Nat.Div0.div_le_upper_bound; lia).
  rewrite mirror_pos by lia. rewrite Nat2Z.inj_sub by lia.
  replace (Z.of_nat (npts / 2) - Z.of_nat k - Z.of_nat (npts / 2))%Z
    with (Z.of_nat (npts - k) + (-1) * Z.of_nat npts)%Z by lia.
  rewrite Z_mod_plus_full, Z.mod_small by lia. apply Nat2Z.id.
Qed.

(* ================================================================= *)
(** ** The aperture builder followed by the propagator *)

(** C5.  For valid inputs and a transmission function that answers on the
    ring and is even there, [RingSeg_ap] and then [occ_lc] return, and the
    row of the observers' plane through the ring midline, row [npts/2], is
    mirror symmetric about the centre index [n2 = npts/2]:
    [row[n2 + k] = row[n2 - k]] for [0 < k < n2].  Every other row is
    symmetric in the same way. *)
Theorem midline_row_symmetric lam D npts wid t_r :
  0 < lam -> 0 < D -> (0 < npts)%nat -> Nat.Even npts -> 0 < wid ->
  (forall x, Rabs x <= wid / 2 -> exists v, t_r x = Ok v) ->
  (forall x, Rabs x <= wid / 2 -> t_r (- x) = t_r x) ->
  exists ap FOV gridSz P,
    RingSeg_ap lam D npts wid t_r = Ok (ap, FOV, gridSz) /\
    occ_lc (to_complex ap) = Ok P /\
    let n2 := (npts / 2)%nat in
    let row := nth n2 P [] in
    (forall k, (0 < k < n2)%nat -> nth (n2 + k) row 0 = nth (n2 - k) row 0) /\
    (forall i k, (i < npts)%nat -> (0 < k < n2)%nat ->
       get 0 P i (n2 + k) = get 0 P i (n2 - k)).
Proof.
  intros _ _ Hn He _ Hdom Heven.
  assert (Hn0 : npts <> O) by lia.
  pose proof (RingSeg_ap_Ok lam D npts wid t_r _ Hn0
                (ring_queries_answered lam D npts wid t_r Hdom)) as Hap.
  set (ap := map2 (map2 (ring_cell (0.5 * wid) (tval t_r)))
               (ones npts npts) (ring_grid lam D npts)) in *.
  pose proof (RingSeg_ap_square lam D npts wid t_r ap _ _ Hap) as Hsq.
  pose proof (square_map RtoC npts ap Hsq) as Hsqc.
  destruct (occ_lc_Ok npts (to_complex ap) Hn Hsqc) as (P & HP & HPsq & Hget).
  eexists ap, _, _, P. split; [exact Hap|]. split; [exact HP|].
  intros n2 row.
  assert (Hsym : forall r c, (r < npts)%nat -> (c < npts)%nat ->
            get C0 (to_complex ap) r (mirror npts c) = get C0 (to_complex ap) r c).
  { intros r c Hr Hc. unfold to_complex.
    rewrite !(get_map RtoC npts ap r _ C0 0)
      by (auto using mirror_lt).
    f_equal.
    apply (RingSeg_ap_mirror lam D npts wid t_r ap _ _ r c Hap He Heven Hr Hc). }
  assert (Hall : forall i k, (i < npts)%nat -> (0 < k < n2)%nat ->
            get 0 P i (n2 + k) = get 0 P i (n2 - k)).
  { intros i k Hi Hk. subst n2.
    assert (H2 : (npts / 2 + npts / 2 <= npts)%nat).
    { destruct He as [m ->]. rewrite Nat.mul_comm, Nat.div_mul by discriminate. lia. }
    rewrite !Hget by lia.
    rewrite shifted_right, shifted_left by lia.
    rewrite E_obs_cell_mirror by (try assumption; lia). reflexivity. }
  split; [|exact Hall].
  intros k Hk. apply (Hall n2 k); [|exact Hk].
  subst n2. apply Nat.div_lt; lia.
Qed.

Lemma tF1_even x : Rabs x <= 46 / 2 -> tF1 (- x) = tF1 x.
Proof. intros _. unfold tF1. rewrite Rabs_Ropp. reflexivity. Qed.

Lemma midline_row_symmetric_witness :
  0 < 0.5 /\ 0 < 43 * 150e6 /\ (0 < 8)%nat /\ Nat.Even 8 /\ 0 < 46 /\
  exists ap FOV gridSz P,
    RingSeg_ap 0.5 (43 * 150e6) 8 46 tF1 = Ok (ap, FOV, gridSz) /\
    occ_lc (to_complex ap) = Ok P /\
    let n2 := (8 / 2)%nat in
    let row := nth n2 P [] in
    (forall k, (0 < k < n2)%nat -> nth (n2 + k) row 0 = nth (n2 - k) row 0) /\
    (forall i k, (i < 8)%nat -> (0 < k < n2)%nat ->
       get 0 P i (n2 + k) = get 0 P i (n2 - k)).
Proof.
  assert (H1 : 0 < 0.5) by lra.
  assert (H2 : 0 < 43 * 150e6) by lra.
  assert (H3 : (0 < 8)%nat) by lia.
  assert (H4 : Nat.Even 8) by (exists 4%nat; reflexivity).
  assert (H5 : 0 < 46) by lra.
  repeat (split; [assumption|]).
  exact (midline_row_symmetric 0.5 (43 * 150e6) 8 46 tF1 H1 H2 H3 H4 H5
           tF1_answers tF1_even).
Defined.

(* ================================================================= *)
(** ** Beyond the claims: the time axis *)

Lemma r_km_nth gridSz npts i :
  (i < npts)%nat -> nth i (r_km gridSz npts) 0 = gridSz * (INR i - INR npts / 2).
Proof. intros H. unfold r_km. rewrite nth_seq_map by exact H. reflexivity. Qed.

Lemma t_sec_nth gridSz npts v i :
  (i < npts)%nat ->
  nth i (t_sec gridSz npts v) 0 = gridSz * (INR i - INR npts / 2) / v.
Proof.
  intros H. unfold t_sec.
  rewrite (nth_map_in _ (r_km gridSz npts) i 0 0)
    by (unfold r_km; rewrite length_map, length_seq; exact H).
  rewrite r_km_nth by exact H. reflexivity.
Qed.

Lemma Even_half_double npts : Nat.Even npts -> (npts / 2 + npts / 2 = npts)%nat.
Proof.
  intros [m ->]. rewrite Nat.mul_comm, Nat.div_mul by discriminate. lia.
Qed.

(** X1.  The time axis of lines 222-224, for an even number of points and a
    non-zero event velocity: one time per sample, zero at the centre index
    [npts/2], uniform steps of [gridSz/v_event], and times that are
    opposite at equal distances from the centre. *)
Theorem t_sec_axis gridSz npts v_event :
  Nat.Even npts -> (0 < npts)%nat -> v_event <> 0 ->
  let t := t_sec gridSz npts v_event in
  let n2 := (npts / 2)%nat in
  length t = npts /\
  nth n2 t 0 = 0 /\
  (forall i, (S i < npts)%nat -> nth (S i) t 0 - nth i t 0 = gridSz / v_event) /\
  (forall k, (0 < k < n2)%nat -> nth (n2 + k) t 0 = - nth (n2 - k) t 0).
Proof.
  intros He Hn Hv t n2. pose proof (Even_half_double npts He) as H2.
  split; [|split; [|split]].
  - unfold t, t_sec, r_km. now rewrite !length_map, length_seq.
  - unfold t, n2. rewrite t_sec_nth by lia. rewrite INR_half by exact He.
    field. exact Hv.
  - intros i Hi. unfold t. rewrite !t_sec_nth by lia. rewrite S_INR.
    field. exact Hv.
  - intros k Hk. unfold t, n2 in *. rewrite !t_sec_nth by lia.
    rewrite plus_INR, minus_INR by lia. rewrite INR_half by exact He.
    field. exact Hv.
Qed.

Lemma t_sec_axis_witness :
  Nat.Even 8 /\ (0 < 8)%nat /\ 5.8 <> 0 /\
  let t := t_sec 0.5 8 5.8 in
  let n2 := (8 / 2)%nat in
  length t = 8%nat /\
  nth n2 t 0 = 0 /\
  (forall i, (S i < 8)%nat -> nth (S i) t 0 - nth i t 0 = 0.5 / 5.8) /\
  (forall k, (0 < k < n2)%nat -> nth (n2 + k) t 0 = - nth (n2 - k) t 0).
Proof.
  assert (H1 : Nat.Even 8) by (exists 4%nat; reflexivity).
  assert (H2 : (0 < 8)%nat) by lia.
  assert (H3 : 5.8 <> 0) by lra.
  split; [exact H1|]. split; [exact H2|]. split; [exact H3|].
  exact (t_sec_axis 0.5 8 5.8 H1 H2 H3).
Defined.

(** X2.  The distances [r_km] of line 222 and the column offsets [xv] of line
    111 use two centres, [npts/2] and [int(0.5*npts)].  They agree for an
    even [npts]; for an odd one every column offset is half a sample
    larger than the distance plotted for it. *)
Theorem r_km_against_columns lam D npts r c :
  (r < npts)%nat -> (c < npts)%nat ->
  let gridSz := sqrt (lam * 1e-9 * D / INR npts) in
  (Nat.Even npts ->
     get 0 (ring_grid lam D npts) r c = nth c (r_km gridSz npts) 0) /\
  (Nat.Odd npts ->
     get 0 (ring_grid lam D npts) r c = nth c (r_km gridSz npts) 0 + gridSz / 2).
Proof.
  intros Hr Hc gridSz.
  rewrite ring_grid_get, r_km_nth by assumption. fold gridSz. split.
  - intros He. rewrite INR_half by exact He. ring.
  - intros [m Hm]. subst npts.
    replace ((2 * m + 1) / 2)%nat with m
      by (apply (Nat.div_unique _ 2 m 1); lia).
    rewrite plus_INR, mult_INR. simpl INR. field.
Qed.

Lemma r_km_against_columns_witness :
  (1 < 3)%nat /\ (2 < 3)%nat /\
  let gridSz := sqrt (0.5 * 1e-9 * (43 * 150e6) / INR 3) in
  (Nat.Even 3 ->
     get 0 (ring_grid 0.5 (43 * 150e6) 3) 1 2 = nth 2 (r_km gridSz 3) 0) /\
  (Nat.Odd 3 ->
     get 0 (ring_grid 0.5 (43 * 150e6) 3) 1 2
     = nth 2 (r_km gridSz 3) 0 + gridSz / 2).
Proof.
  assert (H1 : (1 < 3)%nat) by lia.
  assert (H2 : (2 < 3)%nat) by lia.
  split; [exact H1|]. split; [exact H2|].
  exact (r_km_against_columns 0.5 (43 * 150e6) 3 1 2 H1 H2).
Defined.

(* ================================================================= *)
(** ** Beyond the claims: errors of the transmission function *)

Lemma call_vec_Exists t_r xs :
  Exists (fun x => exists e, t_r x = Raise e) xs ->
  exists e, call_vec t_r xs = Raise e /\ Exists (fun x => t_r x = Raise e) xs.
Proof.
  intros H.
  destruct (call_vec t_r xs) as [vs|e] eqn:E.
  - apply call_vec_Ok in E. destruct E as [_ HF].
    rewrite Forall_forall in HF. apply Exists_exists in H.
    destruct H as (x & Hx & e & He). rewrite (HF x Hx) in He. discriminate.
  - exists e. split; [reflexivity|]. apply call_vec_Raise; exact E.
Qed.

Lemma ring_grid_row_In lam D npts c :
  (c < npts)%nat ->
  exists g, In g (ring_grid lam D npts) /\
    In ((INR c - INR (npts / 2)) * sqrt (lam * 1e-9 * D / INR npts)) g.
Proof.
  intros Hc. exists (nth 0 (ring_grid lam D npts) []).
  pose proof (ring_grid_square lam D npts) as Hs.
  split.
  - apply nth_In. destruct Hs as [-> _]. lia.
  - pose proof (ring_grid_get lam D npts 0 c ltac:(lia) Hc) as Hg.
    unfold get in Hg. rewrite Rmult_1_l in Hg. rewrite <- Hg.
    apply nth_In. rewrite (square_row npts) by (auto; lia). exact Hc.
Qed.

(** X3.  [RingSeg_ap] catches nothing: for a positive wavelength and
    distance, if the transmission function refuses the offset of one column
    that lies within half a ring width of the centre, the call of line 120
    fails and [RingSeg_ap] raises an error that the transmission function
    raised on one of its arguments. *)
Theorem RingSeg_ap_raises lam D npts wid t_r c e :
  0 < lam -> 0 < D -> (c < npts)%nat ->
  Rabs ((INR c - INR (npts / 2)) * sqrt (lam * 1e-9 * D / INR npts)) <= 0.5 * wid ->
  t_r ((INR c - INR (npts / 2)) * sqrt (lam * 1e-9 * D / INR npts)) = Raise e ->
  exists e',
    RingSeg_ap lam D npts wid t_r = Raise e' /\
    Exists (fun x => t_r x = Raise e') (ring_queries lam D npts wid).
Proof.
  intros _ _ Hc Hin Hr.
  destruct (ring_grid_row_In lam D npts c Hc) as (g & Hg & Hx).
  assert (Hq : Exists (fun x => exists e, t_r x = Raise e)
                 (ring_queries lam D npts wid)).
  { apply Exists_exists. eexists. split; [|exists e; exact Hr].
    unfold ring_queries, ring_mask.
    apply (select_In (fun g => Rleb (Rabs g) (0.5 * wid)) (fun x => x)
             (ring_grid lam D npts) g); auto.
    apply Rleb_true; exact Hin. }
  destruct (call_vec_Exists t_r _ Hq) as (e' & He' & Hex).
  exists e'. split; [|exact Hex].
  apply RingSeg_ap_Raise; [lia | exact He'].
Qed.

Lemma RingSeg_ap_raises_witness :
  0 < 1 /\ 0 < 3600e9 /\ (1 < 4)%nat /\
  Rabs ((INR 1 - INR (4 / 2)) * sqrt (1 * 1e-9 * 3600e9 / INR 4)) <= 0.5 * 100 /\
  tF1 ((INR 1 - INR (4 / 2)) * sqrt (1 * 1e-9 * 3600e9 / INR 4)) = Raise ValueError /\
  exists e',
    RingSeg_ap 1 3600e9 4 100 tF1 = Raise e' /\
    Exists (fun x => tF1 x = Raise e') (ring_queries 1 3600e9 4 100).
Proof.
  assert (Hx : (INR 1 - INR (4 / 2)) * sqrt (1 * 1e-9 * 3600e9 / INR 4) = - 30).
  { rewrite sqrt_900. simpl. lra. }
  assert (Hl : 0 < 1) by lra.
  assert (HD : 0 < 3600e9) by lra.
  assert (H1 : (1 < 4)%nat) by lia.
  assert (H2 : Rabs ((INR 1 - INR (4 / 2)) * sqrt (1 * 1e-9 * 3600e9 / INR 4))
               <= 0.5 * 100).
  { rewrite Hx. unfold Rabs. destruct (Rcase_abs _); lra. }
  assert (H3 : tF1 ((INR 1 - INR (4 / 2)) * sqrt (1 * 1e-9 * 3600e9 / INR 4))
               = Raise ValueError).
  { rewrite Hx. unfold tF1.
    replace (Rleb (Rabs (- 30)) (0.5 * scenario_wid)) with false; [reflexivity|].
    symmetry. apply Rleb_false. unfold scenario_wid, Rabs.
    destruct (Rcase_abs _); lra. }
  split; [exact Hl|]. split; [exact HD|].
  split; [exact H1|]. split; [exact H2|]. split; [exact H3|].
  exact (RingSeg_ap_raises 1 3600e9 4 100 tF1 1 ValueError Hl HD H1 H2 H3).
Defined.

(* ================================================================= *)
(** ** Beyond the claims: the optical-depth profiles *)

Lemma linspace_length start stop num : length (linspace start stop num) = num.
Proof.
  destruct num as [|[|n]]; simpl; try reflexivity.
  now rewrite length_map, length_seq.
Qed.

Lemma linspace_nth start stop num i :
  (2 <= num)%nat -> (i < num)%nat ->
  nth i (linspace start stop num) 0
  = start + INR i * ((stop - start) / INR (num - 1)).
Proof.
  intros Hn Hi. destruct num as [|[|n]]; try lia.
  unfold linspace. rewrite nth_seq_map by exact Hi. reflexivity.
Qed.

Lemma linspace_bounds start stop num i :
  (2 <= num)%nat -> (i < num)%nat -> start <= stop ->
  start <= nth i (linspace start stop num) 0 <= stop.
Proof.
  intros Hn Hi Hle. rewrite linspace_nth by assumption.
  assert (Hd : 0 < INR (num - 1)) by (apply lt_0_INR; lia).
  assert (Hi' : 0 <= INR i <= INR (num - 1))
    by (split; [apply pos_INR | apply le_INR; lia]).
  set (d := INR (num - 1)) in *. set (x := INR i) in *.
  assert (Hq : 0 <= x / d <= 1).
  { split.
    - apply Rmult_le_pos; [lra | left; apply Rinv_0_lt_compat; exact Hd].
    - apply (Rmult_le_reg_r d); [exact Hd|]. unfold Rdiv.
      rewrite Rmult_assoc, Rinv_l by lra. lra. }
  replace (x * ((stop - start) / d)) with ((x / d) * (stop - start))
    by (field; lra).
  nra.
Qed.

Lemma fold_max_spec l x :
  x <= fold_left Rmax l x /\
  (forall y, In y l -> y <= fold_left Rmax l x) /\
  (fold_left Rmax l x = x \/ In (fold_left Rmax l x) l).
Proof.
  revert x; induction l as [|z l IH]; intros x; simpl.
  - split; [lra|]. split; [tauto | left; reflexivity].
  - destruct (IH (Rmax x z)) as (H1 & H2 & H3).
    pose proof (Rmax_l x z). pose proof (Rmax_r x z).
    split; [lra|]. split.
    + intros y [->|Hy]; [lra | apply H2; exact Hy].
    + destruct H3 as [H3|H3]; [|right; right; exact H3].
      rewrite H3. unfold Rmax. destruct (Rle_dec x z); [right; left|left]; reflexivity.
Qed.

Lemma fold_min_spec l x :
  fold_left Rmin l x <= x /\
  (forall y, In y l -> fold_left Rmin l x <= y) /\
  (fold_left Rmin l x = x \/ In (fold_left Rmin l x) l).
Proof.
  revert x; induction l as [|z l IH]; intros x; simpl.
  - split; [lra|]. split; [tauto | left; reflexivity].
  - destruct (IH (Rmin x z)) as (H1 & H2 & H3).
    pose proof (Rmin_l x z). pose proof (Rmin_r x z).
    split; [lra|]. split.
    + intros y [->|Hy]; [lra | apply H2; exact Hy].
    + destruct H3 as [H3|H3]; [|right; right; exact H3].
      rewrite H3. unfold Rmin. destruct (Rle_dec x z); [left|right; left]; reflexivity.
Qed.

Lemma np_max_spec l M :
  np_max l = Ok M -> In M l /\ forall y, In y l -> y <= M.
Proof.
  destruct l as [|x l]; simpl; [discriminate|].
  intros H; inversion H; subst. destruct (fold_max_spec l x) as (H1 & H2 & H3).
  split; [destruct H3 as [->|H3]; auto|].
  intros y [->|Hy]; auto.
Qed.

Lemma np_min_spec l m :
  np_min l = Ok m -> In m l /\ forall y, In y l -> m <= y.
Proof.
  destruct l as [|x l]; simpl; [discriminate|].
  intros H; inversion H; subst. destruct (fold_min_spec l x) as (H1 & H2 & H3).
  split; [destruct H3 as [->|H3]; auto|].
  intros y [->|Hy]; auto.
Qed.

Lemma np_max_Ok l : l <> [] -> exists M, np_max l = Ok M.
Proof. destruct l; [congruence | simpl; eauto]. Qed.

Lemma np_min_Ok l : l <> [] -> exists m, np_min l = Ok m.
Proof. destruct l; [congruence | simpl; eauto]. Qed.

(** A convex combination lies between its end points. *)
Lemma scaled_between tM tm M mn p :
  mn < M -> mn <= p <= M ->
  let m := (tM - tm) / (M - mn) in
  Rmin tM tm <= m * p + (tM - m * M) <= Rmax tM tm.
Proof.
  intros Hlt Hp m.
  set (t := (M - p) / (M - mn)).
  assert (Ht : 0 <= t <= 1).
  { unfold t. split.
    - apply Rmult_le_pos; [lra | left; apply Rinv_0_lt_compat; lra].
    - apply (Rmult_le_reg_r (M - mn)); [lra|]. unfold Rdiv.
      rewrite Rmult_assoc, Rinv_l by lra. lra. }
  replace (m * p + (tM - m * M)) with (tM - (tM - tm) * t)
    by (unfold m, t; field; lra).
  pose proof (Rmin_l tM tm). pose proof (Rmin_r tM tm).
  pose proof (Rmax_l tM tm). pose proof (Rmax_r tM tm).
  split; nra.
Qed.

(** X4.  Lines 150-158 (and 161-168), as their comments say: where the parabola
    is largest the scaled optical depth is [targMax], where it is smallest
    it is [targMin], and everywhere it lies between the two.  The parabola
    must take two different values, or the slope divides by zero. *)
Theorem tau_scaled_targets ps targMax targMin p q :
  In p ps -> In q ps -> p <> q ->
  exists pbMax pbMin tau,
    np_max ps = Ok pbMax /\ np_min ps = Ok pbMin /\ pbMin < pbMax /\
    tau_scaled ps targMax targMin = Ok tau /\
    length tau = length ps /\
    forall i, (i < length ps)%nat ->
      (nth i ps 0 = pbMax -> nth i tau 0 = targMax) /\
      (nth i ps 0 = pbMin -> nth i tau 0 = targMin) /\
      Rmin targMax targMin <= nth i tau 0 <= Rmax targMax targMin.
Proof.
  intros Hp Hq Hne.
  assert (Hnil : ps <> []) by (intros ->; inversion Hp).
  destruct (np_max_Ok ps Hnil) as [M HM].
  destruct (np_min_Ok ps Hnil) as [mn Hmn].
  destruct (np_max_spec ps M HM) as [HMin HMub].
  destruct (np_min_spec ps mn Hmn) as [Hmnin Hmnlb].
  assert (Hlt : mn < M).
  { pose proof (HMub p Hp). pose proof (HMub q Hq).
    pose proof (Hmnlb p Hp). pose proof (Hmnlb q Hq).
    destruct (Rtotal_order p q) as [Ho|[Ho|Ho]]; [lra | contradiction | lra]. }
  exists M, mn. eexists. split; [exact HM|]. split; [exact Hmn|].
  split; [exact Hlt|]. unfold tau_scaled. rewrite HM, Hmn. cbn [bind].
  split; [reflexivity|]. split; [apply length_map|].
  intros i Hi.
  rewrite (nth_map_in _ ps i 0 0) by exact Hi.
  assert (Hr : mn <= nth i ps 0 <= M)
    by (split; [apply Hmnlb | apply HMub]; apply nth_In; exact Hi).
  split; [|split].
  - intros ->. field. lra.
  - intros ->. field. lra.
  - apply scaled_between; assumption.
Qed.

Lemma tau_scaled_targets_witness :
  In 4 [4; 1; 0; 1; 4] /\ In 0 [4; 1; 0; 1; 4] /\ 4 <> 0 /\
  exists pbMax pbMin tau,
    np_max [4; 1; 0; 1; 4] = Ok pbMax /\ np_min [4; 1; 0; 1; 4] = Ok pbMin /\
    pbMin < pbMax /\
    tau_scaled [4; 1; 0; 1; 4] 0.0 0.1 = Ok tau /\
    length tau = length [4; 1; 0; 1; 4] /\
    forall i, (i < length [4; 1; 0; 1; 4])%nat ->
      (nth i [4; 1; 0; 1; 4] 0 = pbMax -> nth i tau 0 = 0.0) /\
      (nth i [4; 1; 0; 1; 4] 0 = pbMin -> nth i tau 0 = 0.1) /\
      Rmin 0.0 0.1 <= nth i tau 0 <= Rmax 0.0 0.1.
Proof.
  assert (H1 : In 4 [4; 1; 0; 1; 4]) by (left; reflexivity).
  assert (H2 : In 0 [4; 1; 0; 1; 4]) by (right; right; left; reflexivity).
  assert (H3 : 4 <> 0) by lra.
  split; [exact H1|]. split; [exact H2|]. split; [exact H3|].
  exact (tau_scaled_targets [4; 1; 0; 1; 4] 0.0 0.1 4 0 H1 H2 H3).
Defined.

Lemma tau_scaled_Ok ps targMax targMin M mn :
  np_max ps = Ok M -> np_min ps = Ok mn ->
  tau_scaled ps targMax targMin
  = Ok (map (fun p => (targMax - targMin) / (M - mn) * p
                      + (targMax - (targMax - targMin) / (M - mn) * M)) ps).
Proof. intros HM Hmn. unfold tau_scaled. rewrite HM, Hmn. reflexivity. Qed.

Lemma wVal_nth wid nRad i :
  (2 <= nRad)%nat -> (i < nRad)%nat ->
  nth i (wVal wid nRad) 0 = - (0.5 * wid) + INR i * (wid / INR (nRad - 1)).
Proof.
  intros Hn Hi. unfold wVal. cbv zeta. rewrite linspace_nth by assumption.
  replace (0.5 * wid - - (0.5 * wid)) with wid by lra. reflexivity.
Qed.

Lemma pb_nth wid nRad i :
  (i < nRad)%nat -> nth i (pb wid nRad) 0 = (nth i (wVal wid nRad) 0) ^ 2.
Proof.
  intros Hi. unfold pb.
  apply (nth_map_in (fun w => w ^ 2)). unfold wVal. rewrite linspace_length. exact Hi.
Qed.

Lemma pb_length wid nRad : length (pb wid nRad) = nRad.
Proof. unfold pb, wVal. now rewrite length_map, linspace_length. Qed.

(** The sample points across the ring are mirror images of each other. *)
Lemma wVal_mirror wid nRad i :
  (2 <= nRad)%nat -> (i < nRad)%nat ->
  nth (nRad - 1 - i) (wVal wid nRad) 0 = - nth i (wVal wid nRad) 0.
Proof.
  intros Hn Hi. rewrite !wVal_nth by lia.
  assert (Hd : INR (nRad - 1) * (wid / INR (nRad - 1)) = wid)
    by (field; apply not_0_INR; lia).
  rewrite (minus_INR (nRad - 1) i) by lia.
  set (d := INR (nRad - 1)) in *. set (q := wid / d) in *. nra.
Qed.

Lemma wVal_bounds wid nRad i :
  0 < wid -> (2 <= nRad)%nat -> (i < nRad)%nat ->
  - (0.5 * wid) <= nth i (wVal wid nRad) 0 <= 0.5 * wid.
Proof.
  intros Hw Hn Hi. unfold wVal. apply linspace_bounds; try assumption. lra.
Qed.

Lemma pb_facts wid nRad :
  0 < wid -> (3 <= nRad)%nat ->
  exists mn,
    np_max (pb wid nRad) = Ok ((0.5 * wid) ^ 2) /\
    np_min (pb wid nRad) = Ok mn /\
    mn < (0.5 * wid) ^ 2 /\
    nth 0 (pb wid nRad) 0 = (0.5 * wid) ^ 2 /\
    forall i, (i < nRad)%nat ->
      mn <= nth i (pb wid nRad) 0 <= (0.5 * wid) ^ 2 /\
      nth (nRad - 1 - i) (pb wid nRad) 0 = nth i (pb wid nRad) 0.
Proof.
  intros Hw Hn.
  assert (Hnil : pb wid nRad <> []).
  { intros E. pose proof (pb_length wid nRad) as Hl. rewrite E in Hl.
    simpl in Hl. lia. }
  destruct (np_max_Ok _ Hnil) as [M HM].
  destruct (np_min_Ok _ Hnil) as [mn Hmn].
  destruct (np_max_spec _ M HM) as [HMin HMub].
  destruct (np_min_spec _ mn Hmn) as [_ Hmnlb].
  assert (Hub : forall i, (i < nRad)%nat -> nth i (pb wid nRad) 0 <= (0.5 * wid) ^ 2).
  { intros i Hi. rewrite pb_nth by exact Hi.
    pose proof (wVal_bounds wid nRad i Hw ltac:(lia) Hi). nra. }
  assert (H0 : nth 0 (pb wid nRad) 0 = (0.5 * wid) ^ 2).
  { rewrite pb_nth, wVal_nth by lia. simpl (INR 0). ring. }
  assert (HMeq : M = (0.5 * wid) ^ 2).
  { apply Rle_antisym.
    - destruct (In_nth _ _ 0 HMin) as (j & Hj & <-).
      apply Hub. rewrite pb_length in Hj. exact Hj.
    - rewrite <- H0. apply HMub, nth_In. rewrite pb_length. lia. }
  assert (H1 : nth 1 (pb wid nRad) 0 < (0.5 * wid) ^ 2).
  { rewrite pb_nth, wVal_nth by lia. simpl (INR 1).
    assert (Hd : 2 <= INR (nRad - 1)) by (apply (le_INR 2); lia).
    assert (Hq : 0 < wid / INR (nRad - 1) <= wid / 2).
    { split.
      - apply Rmult_lt_0_compat; [lra | apply Rinv_0_lt_compat; lra].
      - unfold Rdiv. apply Rmult_le_compat_l; [lra|].
        apply Rinv_le_contravar; lra. }
    nra. }
  exists mn. subst M. split; [exact HM|]. split; [exact Hmn|]. split.
  - pose proof (Hmnlb (nth 1 (pb wid nRad) 0)
                  ltac:(apply nth_In; rewrite pb_length; lia)). lra.
  - split; [exact H0|]. intros i Hi. split.
    + split; [apply Hmnlb, nth_In; rewrite pb_length; exact Hi | apply Hub; exact Hi].
    + rewrite !pb_nth by lia. rewrite wVal_mirror by lia. ring.
Qed.

Lemma profile_tables_facts wid nRad :
  0 < wid -> (3 <= nRad)%nat ->
  exists cp se,
    tauCP wid nRad = Ok cp /\ tauSE wid nRad = Ok se /\
    length cp = nRad /\ length se = nRad /\
    nth 0 cp 0 = 0 /\ nth (nRad - 1) cp 0 = 0 /\
    nth 0 se 0 = 0.1 /\ nth (nRad - 1) se 0 = 0.1 /\
    forall i, (i < nRad)%nat ->
      0 <= nth i cp 0 <= 0.1 /\ 0 <= nth i se 0 <= 0.1 /\
      nth i cp 0 + nth i se 0 = 0.1 /\
      nth (nRad - 1 - i) cp 0 = nth i cp 0 /\
      nth (nRad - 1 - i) se 0 = nth i se 0.
Proof.
  intros Hw Hn.
  destruct (pb_facts wid nRad Hw Hn) as (mn & HM & Hmn & Hlt & H0 & Hall).
  set (M := (0.5 * wid) ^ 2) in *.
  unfold tauCP, tauSE.
  rewrite (tau_scaled_Ok _ 0.0 0.1 M mn HM Hmn),
          (tau_scaled_Ok _ 0.1 0.0 M mn HM Hmn).
  eexists _, _. split; [reflexivity|]. split; [reflexivity|].
  rewrite !length_map, pb_length.
  split; [reflexivity|]. split; [reflexivity|].
  assert (Hnth : forall (f : R -> R) i, (i < nRad)%nat ->
            nth i (map f (pb wid nRad)) 0 = f (nth i (pb wid nRad) 0)).
  { intros f i Hi. apply nth_map_in. rewrite pb_length. exact Hi. }
  assert (Hlast : nth (nRad - 1) (pb wid nRad) 0 = M).
  { destruct (Hall 0%nat ltac:(lia)) as [_ Hs].
    rewrite Nat.sub_0_r in Hs. rewrite Hs. exact H0. }
  rewrite !Hnth by lia. rewrite H0, Hlast.
  unfold Rdiv. set (z := / (M - mn)).
  split; [nra|]. split; [nra|]. split; [nra|]. split; [nra|].
  intros i Hi. destruct (Hall i Hi) as [Hr Hs].
  rewrite !Hnth by lia. rewrite Hs.
  pose proof (scaled_between 0.0 0.1 M mn _ Hlt Hr) as Hcp.
  pose proof (scaled_between 0.1 0.0 M mn _ Hlt Hr) as Hse.
  cbv zeta in Hcp, Hse.
  assert (Hmin1 : Rmin 0.0 0.1 = 0) by (unfold Rmin; destruct (Rle_dec _ _); lra).
  assert (Hmax1 : Rmax 0.0 0.1 = 0.1) by (unfold Rmax; destruct (Rle_dec _ _); lra).
  assert (Hmin2 : Rmin 0.1 0.0 = 0) by (unfold Rmin; destruct (Rle_dec _ _); lra).
  assert (Hmax2 : Rmax 0.1 0.0 = 0.1) by (unfold Rmax; destruct (Rle_dec _ _); lra).
  rewrite Hmin1, Hmax1 in Hcp. rewrite Hmin2, Hmax2 in Hse.
  unfold Rdiv in Hcp, Hse. fold z in Hcp, Hse.
  split; [exact Hcp|]. split; [exact Hse|].
  split; [nra|]. split; reflexivity.
Qed.

(** X5.  Lines 139-168 for a ring of positive width sampled at three points or
    more (with two, the parabola is constant and the slope divides by
    zero).  Both profiles are computed, lie between 0 and 0.1 and are
    mirror symmetric across the ring.  The centrally peaked one is 0 at
    both edges of the ring, the edge-peaked one is 0.1 there, and the two
    add up to 0.1 at every sample. *)
Theorem tau_profiles wid nRad :
  0 < wid -> (3 <= nRad)%nat ->
  exists cp se,
    tauCP wid nRad = Ok cp /\ tauSE wid nRad = Ok se /\
    length cp = nRad /\ length se = nRad /\
    nth 0 cp 0 = 0 /\ nth (nRad - 1) cp 0 = 0 /\
    nth 0 se 0 = 0.1 /\ nth (nRad - 1) se 0 = 0.1 /\
    forall i, (i < nRad)%nat ->
      0 <= nth i cp 0 <= 0.1 /\ 0 <= nth i se 0 <= 0.1 /\
      nth i cp 0 + nth i se 0 = 0.1 /\
      nth (nRad - 1 - i) cp 0 = nth i cp 0 /\
      nth (nRad - 1 - i) se 0 = nth i se 0.
Proof. exact (profile_tables_facts wid nRad). Qed.

Lemma tau_profiles_witness :
  0 < 46 /\ (3 <= 100)%nat /\
  exists cp se,
    tauCP 46 100 = Ok cp /\ tauSE 46 100 = Ok se /\
    length cp = 100%nat /\ length se = 100%nat /\
    nth 0 cp 0 = 0 /\ nth (100 - 1) cp 0 = 0 /\
    nth 0 se 0 = 0.1 /\ nth (100 - 1) se 0 = 0.1 /\
    forall i, (i < 100)%nat ->
      0 <= nth i cp 0 <= 0.1 /\ 0 <= nth i se 0 <= 0.1 /\
      nth i cp 0 + nth i se 0 = 0.1 /\
      nth (100 - 1 - i) cp 0 = nth i cp 0 /\
      nth (100 - 1 - i) se 0 = nth i se 0.
Proof.
  assert (H1 : 0 < 46) by lra.
  assert (H2 : (3 <= 100)%nat) by lia.
  split; [exact H1|]. split; [exact H2|].
  exact (tau_profiles 46 100 H1 H2).
Defined.

(* ================================================================= *)
(** ** Beyond the claims: the solid-body aperture *)

Lemma In_where_row r c0 mask r' c' :
  In (r', c') (where_row r c0 mask) <->
  r' = r /\ exists k, c' = (c0 + k)%nat /\ nth_error mask k = Some true.
Proof.
  revert c0; induction mask as [|m mask IH]; intros c0.
  - simpl. split; [tauto | intros (_ & [|k] & _ & H); discriminate].
  - assert (Hrec :
      In (r', c') (where_row r (S c0) mask) <->
      r' = r /\ exists k, c' = (c0 + S k)%nat /\ nth_error mask k = Some true).
    { rewrite IH. split; intros (H1 & k & H2 & H3); (split; [exact H1|]);
        exists k; (split; [lia | exact H3]). }
    destruct m; simpl; rewrite ?Hrec; split.
    + intros [H|(H1 & k & H2 & H3)].
      * inversion H; subst. split; [reflexivity|]. exists 0%nat.
        split; [lia | reflexivity].
      * split; [exact H1|]. exists (S k). split; [exact H2 | exact H3].
    + intros (H1 & [|k] & H2 & H3).
      * left. subst. f_equal. lia.
      * right. split; [exact H1|]. exists k. split; [exact H2 | exact H3].
    + intros (H1 & k & H2 & H3). split; [exact H1|].
      exists (S k). split; [exact H2 | exact H3].
    + intros (H1 & [|k] & H2 & H3); [discriminate|].
      split; [exact H1|]. exists k. split; [exact H2 | exact H3].
Qed.

Lemma In_where_from r0 mask r c :
  In (r, c) (where_from r0 mask) <->
  exists i row, r = (r0 + i)%nat /\ nth_error mask i = Some row /\
                nth_error row c = Some true.
Proof.
  revert r0; induction mask as [|m mask IH]; intros r0; simpl.
  - split; [tauto | intros ([|i] & row & _ & H & _); discriminate].
  - rewrite in_app_iff, In_where_row, IH. split.
    + intros [(H1 & k & H2 & H3)|(i & row & H1 & H2 & H3)].
      * exists 0%nat, m. simpl in H2. subst.
        split; [lia|]. split; [reflexivity | exact H3].
      * exists (S i), row. split; [lia|]. split; assumption.
    + intros ([|i] & row & H1 & H2 & H3).
      * left. simpl in H2. inversion H2; subst.
        split; [lia|]. exists c. split; [reflexivity | exact H3].
      * right. exists i, row. split; [lia|]. split; assumption.
Qed.

Lemma nth_error_true (l : list bool) k :
  nth_error l k = Some true <-> (k < length l)%nat /\ nth k l false = true.
Proof.
  revert k; induction l as [|b l IH]; intros [|k]; simpl.
  - split; [discriminate | intros [H _]; lia].
  - split; [discriminate | intros [H _]; lia].
  - split; [intros H; inversion H; split; [lia | reflexivity]
           | intros [_ ->]; reflexivity].
  - rewrite IH. split; intros [H1 H2]; split; try lia; exact H2.
Qed.

(** [np.where] lists exactly the true cells. *)
Lemma In_np_where n (mask : matrix bool) r c :
  square n mask ->
  (In (r, c) (np_where mask) <->
   (r < n)%nat /\ (c < n)%nat /\ get false mask r c = true).
Proof.
  intros Hs. unfold np_where, get. rewrite In_where_from.
  pose proof Hs as [Hl _]. split.
  - intros (i & row & H1 & H2 & H3). simpl in H1. subst i.
    assert (Hr : (r < n)%nat)
      by (rewrite <- Hl; apply nth_error_Some; congruence).
    apply (nth_error_nth _ _ []) in H2. subst row.
    apply nth_error_true in H3. rewrite (square_row n) in H3 by assumption.
    tauto.
  - intros (H1 & H2 & H3). exists r, (nth r mask []).
    split; [reflexivity|]. split.
    + apply nth_error_nth'. lia.
    + apply nth_error_true. rewrite (square_row n) by assumption. tauto.
Qed.

Lemma update_length {A} (l : list A) i x : length (update l i x) = length l.
Proof.
  revert i; induction l as [|y l IH]; intros [|i]; simpl; auto.
Qed.

Lemma nth_update {A} (l : list A) i x j d :
  (i < length l)%nat ->
  nth j (update l i x) d = if Nat.eqb j i then x else nth j l d.
Proof.
  revert i j; induction l as [|y l IH]; intros [|i] [|j] H; simpl in *;
    try lia; auto.
  apply IH; lia.
Qed.

Lemma set_cell_square n a r0 c0 v :
  square n a -> (r0 < n)%nat -> square n (set_cell a r0 c0 v).
Proof.
  intros Hs Hr. pose proof Hs as [Hl Hrow]. unfold set_cell. split.
  - rewrite update_length. exact Hl.
  - apply Forall_nth. intros i d Hi. rewrite update_length in Hi.
    rewrite (nth_indep _ d []) by (rewrite update_length; exact Hi).
    rewrite nth_update by lia.
    destruct (Nat.eqb i r0).
    + rewrite update_length. apply (square_row n); assumption.
    + apply (square_row n); [assumption | lia].
Qed.

Lemma get_set_cell n a r0 c0 v r c :
  square n a -> (r0 < n)%nat -> (c0 < n)%nat ->
  get 0 (set_cell a r0 c0 v) r c
  = if Nat.eqb r r0 && Nat.eqb c c0 then v else get 0 a r c.
Proof.
  intros Hs Hr Hc. pose proof Hs as [Hl _]. unfold get, set_cell.
  rewrite nth_update by lia.
  destruct (Nat.eqb_spec r r0) as [->|Hne]; simpl; [|reflexivity].
  rewrite nth_update by (rewrite (square_row n); assumption).
  reflexivity.
Qed.

(** Storing [g] of the position at every listed position. *)
Lemma setitem_idx_map n (g : nat * nat -> R) idx :
  forall a, square n a ->
  Forall (fun rc => (fst rc < n)%nat /\ (snd rc < n)%nat) idx ->
  square n (setitem_idx a idx (map g idx)) /\
  forall r c,
    (In (r, c) idx -> get 0 (setitem_idx a idx (map g idx)) r c = g (r, c)) /\
    (~ In (r, c) idx -> get 0 (setitem_idx a idx (map g idx)) r c = get 0 a r c).
Proof.
  induction idx as [|[r0 c0] idx IH]; intros a Hs Hin; simpl.
  - split; [exact Hs|]. intros r c. split; [tauto | reflexivity].
  - inversion Hin as [|? ? [Hr0 Hc0] Hin']; subst. simpl in Hr0, Hc0.
    pose proof (set_cell_square n a r0 c0 (g (r0, c0)) Hs Hr0) as Hs'.
    destruct (IH _ Hs' Hin') as [Hsq Hget]. split; [exact Hsq|].
    intros r c. destruct (Hget r c) as [Hyes Hno].
    assert (Hdec : In (r, c) idx \/ ~ In (r, c) idx).
    { destruct (in_dec (fun p q : nat * nat =>
        match Nat.eq_dec (fst p) (fst q), Nat.eq_dec (snd p) (snd q) with
        | left e1, left e2 =>
            left (match p, q return fst p = fst q -> snd p = snd q -> p = q with
                  | (p1, p2), (q1, q2) => fun e1 e2 => f_equal2 pair e1 e2
                  end e1 e2)
        | right ne, _ => right (fun e => ne (f_equal fst e))
        | _, right ne => right (fun e => ne (f_equal snd e))
        end) (r, c) idx); [left | right]; assumption. }
    split.
    + intros [E|Hi].
      * inversion E; subst.
        destruct Hdec as [Hi|Hni]; [apply Hyes; exact Hi|].
        rewrite Hno by exact Hni.
        rewrite (get_set_cell n) by assumption.
        rewrite !Nat.eqb_refl. reflexivity.
      * apply Hyes; exact Hi.
    + intros Hni.
      assert (Hne : (r0, c0) <> (r, c)) by (intros E; apply Hni; left; exact E).
      rewrite Hno by (intros Hi; apply Hni; right; exact Hi).
      rewrite (get_set_cell n) by assumption.
      destruct (Nat.eqb_spec r r0) as [->|]; [|reflexivity].
      destruct (Nat.eqb_spec c c0) as [->|]; [|reflexivity].
      contradiction Hne; reflexivity.
Qed.

Lemma square_const {A} (l : list A) n : length l = n -> square n (map (fun _ => l) l).
Proof.
  intros H. split; [rewrite length_map; exact H|].
  rewrite Forall_map, Forall_forall. intros _ _. exact H.
Qed.

Lemma square_rows {A} (l : list A) n :
  length l = n -> square n (map (fun y => map (fun _ => y) l) l).
Proof.
  intros H. split; [rewrite length_map; exact H|].
  rewrite Forall_map, Forall_forall. intros y _. rewrite length_map. exact H.
Qed.

(** The cell of [solid_ap] in row [r] and column [c]. *)
Lemma solid_ap_get FOV npts a b :
  square npts (solid_ap FOV npts a b) /\
  forall r c, (r < npts)%nat -> (c < npts)%nat ->
    get 0 (solid_ap FOV npts a b) r c
    = if Rltb ((nth r (wVal FOV npts) 0 / b) ^ 2
               + (nth c (wVal FOV npts) 0 / a) ^ 2) 1.0
      then 0 else 1.
Proof.
  unfold solid_ap. cbv zeta. unfold meshgrid.
  change (linspace (- (0.5 * FOV)) (0.5 * FOV) npts) with (wVal FOV npts).
  set (mpts := wVal FOV npts).
  assert (Hlen : length mpts = npts) by (unfold mpts, wVal; apply linspace_length).
  set (f := fun y x : R => Rltb ((y / b) ^ 2 + (x / a) ^ 2) 1.0).
  set (mask := map2 (map2 f) (map (fun y => map (fun _ => y) mpts) mpts)
                 (map (fun _ => mpts) mpts)).
  pose proof (square_rows mpts npts Hlen) as Hy.
  pose proof (square_const mpts npts Hlen) as Hx.
  assert (Hm : square npts mask) by (apply square_map2; assumption).
  unfold getitem_idx. rewrite map_map.
  set (g := fun rc : nat * nat => get 0 (ones npts npts) (fst rc) (snd rc) * 0).
  assert (Hin : Forall (fun rc => (fst rc < npts)%nat /\ (snd rc < npts)%nat)
                  (np_where mask)).
  { apply Forall_forall. intros [r c] H. apply (In_np_where npts) in H; [|exact Hm].
    simpl. tauto. }
  destruct (setitem_idx_map npts g (np_where mask) (ones npts npts)
              (ones_square npts) Hin) as [Hsq Hget].
  split; [exact Hsq|]. intros r c Hr Hc.
  assert (Hcell : get false mask r c = f (nth r mpts 0) (nth c mpts 0)).
  { unfold mask. rewrite (get_map2 f npts _ _ r c false 0 0) by assumption.
    unfold get.
    rewrite (nth_map_in (fun y => map (fun _ => y) mpts) mpts r [] 0) by lia.
    rewrite (nth_map_in (fun _ => nth r mpts 0) mpts c 0 0) by lia.
    rewrite (nth_map_in (fun _ => mpts) mpts r [] 0) by lia. reflexivity. }
  destruct (Hget r c) as [Hyes Hno].
  change (Rltb ((nth r mpts 0 / b) ^ 2 + (nth c mpts 0 / a) ^ 2) 1.0)
    with (f (nth r mpts 0) (nth c mpts 0)).
  destruct (f (nth r mpts 0) (nth c mpts 0)) eqn:E.
  - rewrite Hyes by (apply (In_np_where npts); auto; rewrite Hcell; auto).
    unfold g. apply Rmult_0_r.
  - rewrite Hno.
    + unfold get, ones. rewrite !nth_repeat_in by assumption. reflexivity.
    + intros H. apply (In_np_where npts) in H; [|exact Hm].
      destruct H as (_ & _ & H). rewrite Hcell in H. congruence.
Qed.

Lemma Rltb_true x y : Rltb x y = true <-> x < y.
Proof.
  unfold Rltb. destruct (Rlt_dec x y); split; intros; auto; discriminate.
Qed.

Lemma Rltb_false x y : Rltb x y = false <-> ~ x < y.
Proof.
  unfold Rltb. destruct (Rlt_dec x y); split; intros; auto;
    [discriminate | contradiction].
Qed.

(** X6.  [solid_ap] with non-zero axes and two samples or more across the field
    returns an [npts] x [npts] mask: with the coordinates
    [-FOV/2 + i FOV/(npts-1)] of row and column, a cell strictly inside
    the ellipse [(y/b)^2 + (x/a)^2 < 1] is 0 and every other cell is 1.
    The samples are [FOV/(npts-1)] apart. *)
Theorem solid_ap_cells FOV npts a b :
  a <> 0 -> b <> 0 -> (2 <= npts)%nat ->
  square npts (solid_ap FOV npts a b) /\
  forall r c, (r < npts)%nat -> (c < npts)%nat ->
    let y := - (FOV / 2) + INR r * (FOV / INR (npts - 1)) in
    let x := - (FOV / 2) + INR c * (FOV / INR (npts - 1)) in
    ((y / b) ^ 2 + (x / a) ^ 2 < 1 -> get 0 (solid_ap FOV npts a b) r c = 0) /\
    (1 <= (y / b) ^ 2 + (x / a) ^ 2 -> get 0 (solid_ap FOV npts a b) r c = 1).
Proof.
  intros _ _ Hn. destruct (solid_ap_get FOV npts a b) as [Hsq Hget].
  split; [exact Hsq|]. intros r c Hr Hc y x.
  rewrite Hget by assumption. rewrite !wVal_nth by assumption.
  replace (- (0.5 * FOV)) with (- (FOV / 2)) by lra. fold y x.
  split; intros H.
  - replace (Rltb ((y / b) ^ 2 + (x / a) ^ 2) 1.0) with true; [reflexivity|].
    symmetry. apply Rltb_true. lra.
  - replace (Rltb ((y / b) ^ 2 + (x / a) ^ 2) 1.0) with false; [reflexivity|].
    symmetry. apply Rltb_false. lra.
Qed.

Lemma solid_ap_cells_witness :
  2 <> 0 /\ 3 <> 0 /\ (2 <= 5)%nat /\
  square 5 (solid_ap 10 5 2 3) /\
  forall r c, (r < 5)%nat -> (c < 5)%nat ->
    let y := - (10 / 2) + INR r * (10 / INR (5 - 1)) in
    let x := - (10 / 2) + INR c * (10 / INR (5 - 1)) in
    ((y / 3) ^ 2 + (x / 2) ^ 2 < 1 -> get 0 (solid_ap 10 5 2 3) r c = 0) /\
    (1 <= (y / 3) ^ 2 + (x / 2) ^ 2 -> get 0 (solid_ap 10 5 2 3) r c = 1).
Proof.
  assert (H1 : 2 <> 0) by lra.
  assert (H2 : 3 <> 0) by lra.
  assert (H3 : (2 <= 5)%nat) by lia.
  split; [exact H1|]. split; [exact H2|]. split; [exact H3|].
  exact (solid_ap_cells 10 5 2 3 H1 H2 H3).
Defined.

(** X7.  The obscuration of [solid_ap] is mirror symmetric about the middle of
    the array, between the samples [0] and [npts - 1], along both axes;
    and exchanging the two axes of the ellipse transposes the aperture. *)
Theorem solid_ap_symmetric FOV npts a b r c :
  a <> 0 -> b <> 0 -> (r < npts)%nat -> (c < npts)%nat ->
  get 0 (solid_ap FOV npts a b) (npts - 1 - r) c = get 0 (solid_ap FOV npts a b) r c /\
  get 0 (solid_ap FOV npts a b) r (npts - 1 - c) = get 0 (solid_ap FOV npts a b) r c /\
  get 0 (solid_ap FOV npts b a) c r = get 0 (solid_ap FOV npts a b) r c.
Proof.
  intros _ _ Hr Hc.
  destruct (solid_ap_get FOV npts a b) as [_ Hget].
  destruct (solid_ap_get FOV npts b a) as [_ Hget'].
  rewrite Hget', !Hget by lia.
  assert (Hm : forall i, (i < npts)%nat ->
            nth (npts - 1 - i) (wVal FOV npts) 0 = - nth i (wVal FOV npts) 0
            \/ (npts - 1 - i = i)%nat).
  { intros i Hi. destruct (Nat.le_gt_cases 2 npts) as [H2|H1].
    - left. apply wVal_mirror; assumption.
    - right. lia. }
  split; [|split].
  - destruct (Hm r Hr) as [-> | ->]; [|reflexivity].
    replace ((- nth r (wVal FOV npts) 0 / b) ^ 2)
      with ((nth r (wVal FOV npts) 0 / b) ^ 2) by (unfold Rdiv; ring).
    reflexivity.
  - destruct (Hm c Hc) as [-> | ->]; [|reflexivity].
    replace ((- nth c (wVal FOV npts) 0 / a) ^ 2)
      with ((nth c (wVal FOV npts) 0 / a) ^ 2) by (unfold Rdiv; ring).
    reflexivity.
  - rewrite Rplus_comm. reflexivity.
Qed.

Lemma solid_ap_symmetric_witness :
  2 <> 0 /\ 3 <> 0 /\ (1 < 4)%nat /\ (0 < 4)%nat /\
  get 0 (solid_ap 10 4 2 3) (4 - 1 - 1) 0 = get 0 (solid_ap 10 4 2 3) 1 0 /\
  get 0 (solid_ap 10 4 2 3) 1 (4 - 1 - 0) = get 0 (solid_ap 10 4 2 3) 1 0 /\
  get 0 (solid_ap 10 4 3 2) 0 1 = get 0 (solid_ap 10 4 2 3) 1 0.
Proof.
  assert (H1 : 2 <> 0) by lra.
  assert (H2 : 3 <> 0) by lra.
  assert (H3 : (1 < 4)%nat) by lia.
  assert (H4 : (0 < 4)%nat) by lia.
  split; [exact H1|]. split; [exact H2|]. split; [exact H3|]. split; [exact H4|].
  exact (solid_ap_symmetric 10 4 2 3 1 0 H1 H2 H3 H4).
Defined.

(* ================================================================= *)
(** ** Beyond the claims: the field of an aperture with equal rows *)

Example np_where_example :
  np_where [[true; false]; [false; true]] = [(0, 0); (1, 1)]%nat.
Proof. reflexivity. Qed.

Lemma Cnorm2_mult z w : Cnorm2 (Cmult z w) = Cnorm2 z * Cnorm2 w.
Proof. unfold Cnorm2, Cmult; simpl; ring. Qed.

Lemma Cnorm2_Cexp_i t : Cnorm2 (Cexp (Cscal t Ci)) = 1.
Proof.
  rewrite Cexp_i. unfold Cnorm2; simpl.
  pose proof (sin2_cos2 t) as H. unfold Rsqr in H. lra.
Qed.

Lemma sum_to_mult_l n z f :
  Spec.sum_to n (fun c => Cmult z (f c)) = Cmult z (Spec.sum_to n f).
Proof.
  induction n as [|n IH]; simpl.
  - apply C_eq; simpl; ring.
  - rewrite IH. apply C_eq; simpl; ring.
Qed.

Lemma sum_to_mult_r n z f :
  Spec.sum_to n (fun c => Cmult (f c) z) = Cmult (Spec.sum_to n f) z.
Proof.
  induction n as [|n IH]; simpl.
  - apply C_eq; simpl; ring.
  - rewrite IH. apply C_eq; simpl; ring.
Qed.

(** A sum over one period of a periodic sequence may start one later. *)
Lemma sum_to_cycle n f :
  f n = f O -> Spec.sum_to n (fun r => f (S r)) = Spec.sum_to n f.
Proof.
  intros H. destruct n as [|m]; [reflexivity|].
  rewrite (sum_to_shift m f). simpl Spec.sum_to at 1.
  rewrite H. apply Cplus_comm.
Qed.

Lemma eTerm_cell_factor npts n2 r c :
  (0 < npts)%nat ->
  eTerm_cell npts n2 r c = Cmult (chirp npts n2 r) (chirp npts n2 c).
Proof.
  intros Hn. unfold eTerm_cell, chirp. rewrite Cexp_i_plus.
  assert (H0 : INR npts <> 0) by (apply not_0_INR; lia).
  replace 1.0 with 1 by lra.
  f_equal. apply C_eq; unfold Cscal, Cdivr, Ci; cbn [fst snd]; field; exact H0.
Qed.

(** The transform of an aperture with equal rows is a product. *)
Lemma E_obs_cell_factor npts (ap : matrix C) (a : nat -> C) k l :
  (0 < npts)%nat ->
  (forall r c, (r < npts)%nat -> (c < npts)%nat -> get C0 ap r c = a c) ->
  E_obs_cell npts ap k l = Cmult (column_sum npts k) (row_sum npts a l).
Proof.
  intros Hn Ha. unfold E_obs_cell, column_sum, row_sum.
  rewrite <- sum_to_mult_r. apply sum_to_ext. intros r Hr.
  rewrite <- sum_to_mult_l. apply sum_to_ext. intros c Hc.
  rewrite Ha, eTerm_cell_factor by assumption.
  apply C_eq; simpl; ring.
Qed.

(** One step in frequency is one step along the column and a phase. *)
Lemma chirp_omega_step npts k r :
  Nat.Even npts -> (0 < npts)%nat ->
  Cmult (chirp npts (npts / 2) (S r)) (omega npts (S k * S r))
  = Cmult (Cexp (Cscal (- (PI * (INR npts + 2 * INR k + 1) / INR npts)) Ci))
          (Cmult (chirp npts (npts / 2) r) (omega npts (k * r))).
Proof.
  intros He Hn. unfold chirp, omega. rewrite !Cexp_i_plus.
  assert (H0 : INR npts <> 0) by (apply not_0_INR; lia).
  rewrite INR_half by exact He. rewrite !mult_INR, !S_INR.
  f_equal. f_equal. field. exact H0.
Qed.

Lemma chirp_omega_period npts k :
  Nat.Even npts -> (0 < npts)%nat ->
  Cmult (chirp npts (npts / 2) npts) (omega npts (k * npts))
  = Cmult (chirp npts (npts / 2) 0) (omega npts (k * 0)).
Proof.
  intros He Hn. f_equal.
  - unfold chirp. rewrite INR_half by exact He. simpl (INR 0).
    do 3 f_equal. field.
  - apply omega_congr; [exact Hn|].
    rewrite Nat.Div0.mod_mul, Nat.mul_0_r. symmetry. apply Nat.Div0.mod_0_l.
Qed.

Lemma column_sum_step npts k :
  Nat.Even npts -> (0 < npts)%nat ->
  column_sum npts (S k)
  = Cmult (Cexp (Cscal (- (PI * (INR npts + 2 * INR k + 1) / INR npts)) Ci))
          (column_sum npts k).
Proof.
  intros He Hn. unfold column_sum.
  rewrite <- (sum_to_cycle npts
                (fun r => Cmult (chirp npts (npts / 2) r) (omega npts (S k * r))))
    by (apply chirp_omega_period; assumption).
  rewrite <- sum_to_mult_l. apply sum_to_ext. intros r _.
  apply chirp_omega_step; assumption.
Qed.

(** The column sum has the same modulus at every frequency. *)
Lemma column_sum_modulus npts k :
  Nat.Even npts -> (0 < npts)%nat ->
  Cnorm2 (column_sum npts k) = Cnorm2 (column_sum npts 0).
Proof.
  intros He Hn. induction k as [|k IH]; [reflexivity|].
  rewrite column_sum_step by assumption.
  rewrite Cnorm2_mult, Cnorm2_Cexp_i, IH. ring.
Qed.

(** For an even side, the field of an aperture whose rows are all equal
    has rows that are all equal. *)
Lemma occ_lc_equal_rows npts (ap : matrix C) (a : nat -> C) :
  Nat.Even npts -> (0 < npts)%nat -> square npts ap ->
  (forall r c, (r < npts)%nat -> (c < npts)%nat -> get C0 ap r c = a c) ->
  exists P, occ_lc ap = Ok P /\ square npts P /\
    forall i j, (i < npts)%nat -> (j < npts)%nat ->
      get 0 P i j
      = Cnorm2 (column_sum npts 0) * Cnorm2 (row_sum npts a (Spec.shifted npts j)).
Proof.
  intros He Hn Hs Ha.
  destruct (occ_lc_Ok npts ap Hn Hs) as (P & HP & Hsq & Hget).
  exists P. split; [exact HP|]. split; [exact Hsq|].
  intros i j Hi Hj. rewrite Hget by assumption.
  rewrite (E_obs_cell_factor npts ap a) by assumption.
  rewrite Cnorm2_mult, column_sum_modulus by assumption. reflexivity.
Qed.

(** The cell of a returned aperture, promoted to a complex number. *)
Lemma to_complex_cell lam D npts wid t_r ap FOV g r c :
  RingSeg_ap lam D npts wid t_r = Ok (ap, FOV, g) ->
  (r < npts)%nat -> (c < npts)%nat ->
  get C0 (to_complex ap) r c
  = RtoC (ring_cell (0.5 * wid) (tval t_r) 1 ((INR c - INR (npts / 2)) * g)).
Proof.
  intros H Hr Hc. unfold to_complex.
  rewrite (get_map RtoC npts ap r c C0 0)
    by (try apply (RingSeg_ap_square lam D npts wid t_r ap FOV g H); assumption).
  destruct (RingSeg_ap_get lam D npts wid t_r ap FOV g r c H Hr Hc) as [_ ->].
  reflexivity.
Qed.

(** X8.  The ring runs down the columns of the aperture, and so does its
    shadow: for an even [npts], every row of the field that [occ_lc]
    computes from an aperture of [RingSeg_ap] is the same row.  The
    baseline and the lightcurve read from any row, such as the row 2048
    that lines 300 and 325 read from grids of 8192 and 12288 points, are
    those of the centre row. *)
Theorem observer_rows_identical lam D npts wid t_r ap FOV gridSz :
  Nat.Even npts ->
  RingSeg_ap lam D npts wid t_r = Ok (ap, FOV, gridSz) ->
  exists P,
    occ_lc (to_complex ap) = Ok P /\ square npts P /\
    forall i, (i < npts)%nat ->
      nth i P [] = nth (npts / 2) P [] /\
      forall lo hi, baseline P i lo hi = baseline P (npts / 2) lo hi.
Proof.
  intros He H.
  assert (Hn : (0 < npts)%nat).
  { destruct npts; [|lia]. unfold RingSeg_ap in H. simpl in H. discriminate. }
  pose proof (RingSeg_ap_square lam D npts wid t_r ap FOV gridSz H) as Hsq.
  destruct (occ_lc_equal_rows npts (to_complex ap)
              (fun c => RtoC (ring_cell (0.5 * wid) (tval t_r) 1
                                ((INR c - INR (npts / 2)) * gridSz)))
              He Hn (square_map RtoC npts ap Hsq))
    as (P & HP & HPsq & Hget).
  { intros r c Hr Hc.
    apply (to_complex_cell lam D npts wid t_r ap FOV gridSz r c H Hr Hc). }
  exists P. split; [exact HP|]. split; [exact HPsq|].
  intros i Hi.
  assert (H2 : (npts / 2 < npts)%nat) by (apply Nat.div_lt; lia).
  assert (Hrow : nth i P [] = nth (npts / 2) P []).
  { apply (nth_ext _ _ 0 0).
    - rewrite !(square_row npts) by assumption. reflexivity.
    - intros j Hj. rewrite (square_row npts) in Hj by assumption.
      pose proof (Hget i j Hi Hj) as E1. pose proof (Hget (npts / 2)%nat j H2 Hj) as E2.
      unfold get in E1, E2. rewrite E1, E2. reflexivity. }
  split; [exact Hrow|]. intros lo hi. unfold baseline. rewrite Hrow. reflexivity.
Qed.

Lemma observer_rows_identical_witness :
  Nat.Even scenario_npts /\
  RingSeg_ap scenario_lam scenario_D scenario_npts scenario_wid tF1
  = Ok (map2 (map2 (ring_cell (0.5 * scenario_wid) (tval tF1)))
             (ones scenario_npts scenario_npts)
             (ring_grid scenario_lam scenario_D scenario_npts),
        sqrt (scenario_lam * 1e-9 * scenario_D * INR scenario_npts),
        sqrt (scenario_lam * 1e-9 * scenario_D / INR scenario_npts)) /\
  exists P,
    occ_lc (to_complex
              (map2 (map2 (ring_cell (0.5 * scenario_wid) (tval tF1)))
                 (ones scenario_npts scenario_npts)
                 (ring_grid scenario_lam scenario_D scenario_npts))) = Ok P /\
    square scenario_npts P /\
    forall i, (i < scenario_npts)%nat ->
      nth i P [] = nth (scenario_npts / 2) P [] /\
      forall lo hi, baseline P i lo hi = baseline P (scenario_npts / 2) lo hi.
Proof.
  assert (H1 : Nat.Even scenario_npts) by (exists 2048%nat; reflexivity).
  split; [exact H1|]. split; [exact scenario_returns|].
  exact (observer_rows_identical _ _ _ _ _ _ _ _ H1 scenario_returns).
Defined.

(* ================================================================= *)
(** ** Beyond the claims: the scale of the field *)

Lemma sum_to_const n z : Spec.sum_to n (fun _ => z) = Cscal (INR n) z.
Proof.
  induction n as [|n IH].
  - simpl. apply C_eq; simpl; ring.
  - change (Spec.sum_to (S n) (fun _ => z))
      with (Cplus (Spec.sum_to n (fun _ => z)) z).
    rewrite IH, S_INR. apply C_eq; simpl; ring.
Qed.

Lemma sum_to_plus n f g :
  Spec.sum_to n (fun c => Cplus (f c) (g c))
  = Cplus (Spec.sum_to n f) (Spec.sum_to n g).
Proof.
  induction n as [|n IH]; simpl.
  - apply C_eq; simpl; ring.
  - rewrite IH. apply C_eq; simpl; ring.
Qed.

Lemma sum_to_swap n m (f : nat -> nat -> C) :
  Spec.sum_to n (fun r => Spec.sum_to m (fun c => f r c))
  = Spec.sum_to m (fun c => Spec.sum_to n (fun r => f r c)).
Proof.
  induction n as [|n IH]; simpl.
  - symmetry. rewrite (sum_to_const m C0). apply C_eq; simpl; ring.
  - rewrite IH. symmetry. apply sum_to_plus.
Qed.

(** A sum over one period of a periodic sequence may start anywhere. *)
Lemma sum_to_cycle_k n f k :
  (forall j, f (j + n)%nat = f j) ->
  Spec.sum_to n (fun r => f (r + k)%nat) = Spec.sum_to n f.
Proof.
  intros Hp. induction k as [|k IH].
  - apply sum_to_ext. intros r _. f_equal. lia.
  - rewrite <- IH.
    rewrite <- (sum_to_cycle n (fun r => f (r + k)%nat)).
    + apply sum_to_ext. intros r _. f_equal. lia.
    + simpl. rewrite <- (Hp k). f_equal. lia.
Qed.

Lemma Cconj_sum n f :
  Cconj (Spec.sum_to n f) = Spec.sum_to n (fun r => Cconj (f r)).
Proof.
  induction n as [|n IH]; simpl.
  - apply C_eq; simpl; ring.
  - rewrite <- IH. apply C_eq; simpl; ring.
Qed.

Lemma Cmult_conj z : Cmult z (Cconj z) = RtoC (Cnorm2 z).
Proof. apply C_eq; unfold Cnorm2; simpl; ring. Qed.

Lemma Cconj_Cexp_i t : Cconj (Cexp (Cscal t Ci)) = Cexp (Cscal (- t) Ci).
Proof.
  rewrite !Cexp_i. unfold Cconj; simpl. rewrite cos_neg, sin_neg. reflexivity.
Qed.

Lemma Cexp_i_0 : Cexp (Cscal 0 Ci) = (1, 0).
Proof. rewrite Cexp_i, cos_0, sin_0. reflexivity. Qed.

Lemma Cexp_i_period t k : Cexp (Cscal (t + 2 * INR k * PI) Ci) = Cexp (Cscal t Ci).
Proof. rewrite !Cexp_i, cos_period, sin_period. reflexivity. Qed.

(** A root of unity other than 1 has real part below 1. *)
Lemma cos_root_lt_1 n d :
  (0 < d < n)%nat -> cos (2 * PI * INR d / INR n) < 1.
Proof.
  intros Hd.
  assert (Hn : 0 < INR n) by (apply lt_0_INR; lia).
  assert (Hd0 : 0 < INR d) by (apply lt_0_INR; lia).
  assert (Hdn : INR d < INR n) by (apply lt_INR; lia).
  replace (2 * PI * INR d / INR n) with (2 * (PI * INR d / INR n))
    by (field; lra).
  rewrite cos_2a_sin.
  assert (Hy : 0 < PI * INR d / INR n < PI).
  { pose proof PI_RGT_0 as Hpi. split.
    - apply Rmult_lt_0_compat; [nra | apply Rinv_0_lt_compat; exact Hn].
    - apply (Rmult_lt_reg_r (INR n)); [exact Hn|]. unfold Rdiv.
      rewrite Rmult_assoc, Rinv_l by lra. nra. }
  pose proof (sin_gt_0 _ (proj1 Hy) (proj2 Hy)) as Hs. nra.
Qed.

Lemma Cmult_fixed w z : Cmult w z = z -> fst w < 1 -> z = C0.
Proof.
  destruct w as [c s], z as [x y]. unfold Cmult; simpl. intros H Hc.
  injection H as H1 H2.
  assert (E1 : c * x - s * y - x = 0) by lra.
  assert (E2 : c * y + s * x - y = 0) by lra.
  assert (Hq : 0 < (c - 1) * (c - 1) + s * s) by nra.
  assert (Hx : ((c - 1) * (c - 1) + s * s) * x = 0).
  { replace (((c - 1) * (c - 1) + s * s) * x)
      with ((c - 1) * (c * x - s * y - x) + s * (c * y + s * x - y)) by ring.
    rewrite E1, E2. ring. }
  assert (Hy : ((c - 1) * (c - 1) + s * s) * y = 0).
  { replace (((c - 1) * (c - 1) + s * s) * y)
      with ((c - 1) * (c * y + s * x - y) - s * (c * x - s * y - x)) by ring.
    rewrite E1, E2. ring. }
  apply Rmult_integral in Hx. apply Rmult_integral in Hy.
  unfold C0. f_equal; [destruct Hx | destruct Hy]; lra.
Qed.

(** The powers of a root of unity other than 1 add up to zero. *)
Lemma root_sum_zero n d :
  (0 < d < n)%nat ->
  Spec.sum_to n (fun s => Cexp (Cscal (2 * PI * INR d * INR s / INR n) Ci)) = C0.
Proof.
  intros Hd.
  assert (H0 : INR n <> 0) by (apply not_0_INR; lia).
  set (W := fun s => Cexp (Cscal (2 * PI * INR d * INR s / INR n) Ci)).
  apply (Cmult_fixed (Cexp (Cscal (2 * PI * INR d / INR n) Ci))).
  - rewrite <- sum_to_mult_l.
    rewrite <- (sum_to_cycle n W).
    + apply sum_to_ext. intros s _. unfold W. rewrite Cexp_i_plus.
      f_equal. f_equal. rewrite S_INR. field. exact H0.
    + unfold W. simpl (INR 0).
      replace (2 * PI * INR d * INR n / INR n) with (0 + 2 * INR d * PI)
        by (field; exact H0).
      rewrite Cexp_i_period. do 2 f_equal. field. exact H0.
  - rewrite Cexp_i. simpl. apply cos_root_lt_1. exact Hd.
Qed.

Lemma chirp_period npts j :
  Nat.Even npts -> (0 < npts)%nat ->
  chirp npts (npts / 2) (j + npts) = chirp npts (npts / 2) j.
Proof.
  intros He Hn. unfold chirp.
  assert (H0 : INR npts <> 0) by (apply not_0_INR; lia).
  rewrite INR_half by exact He. rewrite plus_INR.
  replace (PI / INR npts * (INR j + INR npts - INR npts / 2) ^ 2)
    with (PI / INR npts * (INR j - INR npts / 2) ^ 2 + 2 * INR j * PI)
    by (field; exact H0).
  apply Cexp_i_period.
Qed.

Lemma chirp_product npts d s :
  Nat.Even npts -> (0 < npts)%nat ->
  Cmult (chirp npts (npts / 2) (d + s)) (Cconj (chirp npts (npts / 2) s))
  = Cmult (Cexp (Cscal (PI * INR d ^ 2 / INR npts - PI * INR d) Ci))
          (Cexp (Cscal (2 * PI * INR d * INR s / INR npts) Ci)).
Proof.
  intros He Hn. unfold chirp. rewrite Cconj_Cexp_i, !Cexp_i_plus.
  assert (H0 : INR npts <> 0) by (apply not_0_INR; lia).
  rewrite INR_half by exact He. rewrite plus_INR.
  f_equal. f_equal. field. exact H0.
Qed.

Lemma column_sum_0 npts :
  (0 < npts)%nat ->
  column_sum npts 0 = Spec.sum_to npts (chirp npts (npts / 2)).
Proof.
  intros Hn. unfold column_sum. apply sum_to_ext. intros r _.
  unfold omega. simpl (INR (0 * r)).
  replace (- (2 * PI * 0 / INR npts)) with 0 by (unfold Rdiv; ring).
  rewrite Cexp_i_0. apply C_eq; simpl; ring.
Qed.

(** The column sum is a quadratic Gauss sum: its squared modulus is the
    number of points. *)
Lemma column_sum_norm npts :
  Nat.Even npts -> (0 < npts)%nat -> Cnorm2 (column_sum npts 0) = INR npts.
Proof.
  intros He Hn. rewrite column_sum_0 by exact Hn.
  set (ch := chirp npts (npts / 2)).
  assert (H : RtoC (Cnorm2 (Spec.sum_to npts ch)) = RtoC (INR npts));
    [|inversion H; reflexivity].
  rewrite <- Cmult_conj, Cconj_sum, <- sum_to_mult_l.
  transitivity
    (Spec.sum_to npts (fun s =>
       Spec.sum_to npts (fun d =>
         Cmult (Cexp (Cscal (PI * INR d ^ 2 / INR npts - PI * INR d) Ci))
               (Cexp (Cscal (2 * PI * INR d * INR s / INR npts) Ci))))).
  { apply sum_to_ext. intros s _. rewrite <- sum_to_mult_r.
    rewrite <- (sum_to_cycle_k npts (fun r => Cmult (ch r) (Cconj (ch s))) s).
    - apply sum_to_ext. intros d _. apply chirp_product; assumption.
    - intros j. unfold ch. rewrite chirp_period by assumption. reflexivity. }
  rewrite sum_to_swap.
  transitivity
    (Spec.sum_to npts (fun d =>
       Cmult (Cexp (Cscal (PI * INR d ^ 2 / INR npts - PI * INR d) Ci))
             (Spec.sum_to npts (fun s =>
                Cexp (Cscal (2 * PI * INR d * INR s / INR npts) Ci))))).
  { apply sum_to_ext. intros d _. apply sum_to_mult_l. }
  destruct npts as [|m]; [lia|].
  rewrite sum_to_shift.
  rewrite (sum_to_ext m _ (fun _ => C0)).
  - rewrite (sum_to_const m C0).
    rewrite (sum_to_ext (S m) _ (fun _ => (1, 0))).
    + rewrite sum_to_const. simpl (INR 0).
      replace (PI * 0 ^ 2 / INR (S m) - PI * 0) with 0 by (unfold Rdiv; ring).
      rewrite Cexp_i_0. apply C_eq; simpl; ring.
    + intros s _. simpl (INR 0).
      replace (2 * PI * 0 * INR s / INR (S m)) with 0 by (unfold Rdiv; ring).
      apply Cexp_i_0.
  - intros d Hd. rewrite root_sum_zero by lia. apply C_eq; simpl; ring.
Qed.

Lemma slice_Forall {A} (Q : A -> Prop) lo hi (l : list A) :
  Forall Q l -> Forall Q (slice lo hi l).
Proof.
  intros H. unfold slice.
  rewrite <- (firstn_skipn lo l) in H. apply Forall_app in H. destruct H as [_ H].
  rewrite <- (firstn_skipn (hi - lo) (skipn lo l)) in H.
  apply Forall_app in H. tauto.
Qed.

Lemma slice_nonempty {A} lo hi (l : list A) :
  (lo < hi)%nat -> (lo < length l)%nat -> slice lo hi l <> [].
Proof.
  intros H1 H2 E. apply (f_equal (@length A)) in E. unfold slice in E.
  rewrite length_firstn, length_skipn in E. simpl in E. lia.
Qed.

Lemma median_const l v : l <> [] -> Forall (fun x => x = v) l -> median l = v.
Proof.
  intros Hne Hv. apply sort_Forall in Hv. rewrite Forall_forall in Hv.
  assert (Hn : (0 < length l)%nat) by (destruct l; [congruence | simpl; lia]).
  assert (Hi : forall i, (i < length l)%nat -> nth i (sort l) 0 = v).
  { intros i Hi. apply Hv, nth_In. rewrite sort_length. exact Hi. }
  unfold median. destruct (Nat.even (length l)).
  - rewrite !Hi; [lra | apply Nat.div_lt; lia |].
    pose proof (Nat.div_lt (length l) 2 Hn). lia.
  - apply Hi. apply Nat.div_lt; lia.
Qed.

Lemma row_sum_ones npts l :
  row_sum npts (fun _ => RtoC 1) l = column_sum npts l.
Proof.
  unfold row_sum, column_sum. apply sum_to_ext. intros c _.
  apply C_eq; simpl; ring.
Qed.

(** X9.  A ring that transmits everything casts no shadow.  For an even [npts],
    if the transmission function answers 1 across the ring, the aperture
    of [RingSeg_ap] is 1 everywhere, every entry of the field of [occ_lc]
    is [npts^2], the baseline read from any non-empty window of any row is
    [npts^2], and the normalised field of lines 213-221 is 1 everywhere. *)
Theorem transparent_ring_flat lam D npts wid t_r :
  Nat.Even npts -> (0 < npts)%nat ->
  (forall x, Rabs x <= wid / 2 -> t_r x = Ok 1) ->
  exists ap FOV gridSz P,
    RingSeg_ap lam D npts wid t_r = Ok (ap, FOV, gridSz) /\
    occ_lc (to_complex ap) = Ok P /\
    (forall r c, (r < npts)%nat -> (c < npts)%nat -> get 0 ap r c = 1) /\
    (forall i j, (i < npts)%nat -> (j < npts)%nat -> get 0 P i j = INR npts ^ 2) /\
    forall row lo hi, (row < npts)%nat -> (lo < hi)%nat -> (lo < npts)%nat ->
      baseline P row lo hi = INR npts ^ 2 /\
      forall i j, (i < npts)%nat -> (j < npts)%nat ->
        get 0 (normalize P row lo hi) i j = 1.
Proof.
  intros He Hn Ht.
  assert (Hn0 : npts <> O) by lia.
  assert (Hdom : forall x, Rabs x <= wid / 2 -> exists v, t_r x = Ok v)
    by (intros x Hx; exists 1; apply Ht; exact Hx).
  pose proof (RingSeg_ap_Ok lam D npts wid t_r _ Hn0
                (ring_queries_answered lam D npts wid t_r Hdom)) as Hap.
  set (ap := map2 (map2 (ring_cell (0.5 * wid) (tval t_r)))
               (ones npts npts) (ring_grid lam D npts)) in *.
  pose proof (RingSeg_ap_square lam D npts wid t_r ap _ _ Hap) as Hsq.
  assert (Hone : forall r c, (r < npts)%nat -> (c < npts)%nat -> get 0 ap r c = 1).
  { intros r c Hr Hc.
    destruct (RingSeg_ap_get lam D npts wid t_r ap _ _ r c Hap Hr Hc) as [_ ->].
    unfold ring_cell.
    destruct (Rleb _ (0.5 * wid)) eqn:E; [|reflexivity].
    apply Rleb_true in E. unfold tval. rewrite Ht by lra. reflexivity. }
  destruct (occ_lc_equal_rows npts (to_complex ap) (fun _ => RtoC 1)
              He Hn (square_map RtoC npts ap Hsq))
    as (P & HP & HPsq & Hget).
  { intros r c Hr Hc. unfold to_complex.
    rewrite (get_map RtoC npts ap r c C0 0) by assumption.
    rewrite Hone by assumption. reflexivity. }
  assert (Hflat : forall i j, (i < npts)%nat -> (j < npts)%nat ->
            get 0 P i j = INR npts ^ 2).
  { intros i j Hi Hj. rewrite Hget by assumption.
    rewrite row_sum_ones.
    rewrite (column_sum_modulus npts (Spec.shifted npts j)) by assumption.
    rewrite column_sum_norm by assumption. ring. }
  eexists ap, _, _, P. split; [exact Hap|]. split; [exact HP|].
  split; [exact Hone|]. split; [exact Hflat|].
  intros row lo hi Hrow Hlo Hlo'.
  assert (Hpos : 0 < INR npts ^ 2).
  { assert (0 < INR npts) by (apply lt_0_INR; exact Hn). nra. }
  assert (Hb : baseline P row lo hi = INR npts ^ 2).
  { unfold baseline. apply median_const.
    - apply slice_nonempty; [exact Hlo|]. rewrite (square_row npts); assumption.
    - apply slice_Forall. apply Forall_nth. intros j d Hj.
      rewrite (square_row npts) in Hj by assumption.
      rewrite (nth_indep _ d 0) by (rewrite (square_row npts); assumption).
      apply (Hflat row j Hrow Hj). }
  split; [exact Hb|]. intros i j Hi Hj.
  unfold normalize, divide. rewrite Hb.
  rewrite (get_map _ npts P i j 0 0) by assumption.
  cbv beta. rewrite Hflat by assumption. unfold Rdiv. apply Rinv_r. lra.
Qed.

Lemma transparent_ring_flat_witness :
  Nat.Even 8 /\ (0 < 8)%nat /\
  (forall x, Rabs x <= 46 / 2 -> (fun _ : R => Ok 1) x = Ok 1) /\
  exists ap FOV gridSz P,
    RingSeg_ap 0.5 (43 * 150e6) 8 46 (fun _ => Ok 1) = Ok (ap, FOV, gridSz) /\
    occ_lc (to_complex ap) = Ok P /\
    (forall r c, (r < 8)%nat -> (c < 8)%nat -> get 0 ap r c = 1) /\
    (forall i j, (i < 8)%nat -> (j < 8)%nat -> get 0 P i j = INR 8 ^ 2) /\
    forall row lo hi, (row < 8)%nat -> (lo < hi)%nat -> (lo < 8)%nat ->
      baseline P row lo hi = INR 8 ^ 2 /\
      forall i j, (i < 8)%nat -> (j < 8)%nat ->
        get 0 (normalize P row lo hi) i j = 1.
Proof.
  assert (H1 : Nat.Even 8) by (exists 4%nat; reflexivity).
  assert (H2 : (0 < 8)%nat) by lia.
  assert (H3 : forall x, Rabs x <= 46 / 2 -> (fun _ : R => Ok 1) x = Ok 1)
    by (intros; reflexivity).
  split; [exact H1|]. split; [exact H2|]. split; [exact H3|].
  exact (transparent_ring_flat 0.5 (43 * 150e6) 8 46 (fun _ => Ok 1) H1 H2 H3).
Defined.

(* ================================================================= *)
(** ** Beyond the claims: the two axes of the propagator *)

Lemma eTerm_cell_swap npts n2 r c : eTerm_cell npts n2 r c = eTerm_cell npts n2 c r.
Proof. unfold eTerm_cell. rewrite Rplus_comm. reflexivity. Qed.

Lemma E_obs_cell_transpose npts (ap ap' : matrix C) k l :
  (forall r c, (r < npts)%nat -> (c < npts)%nat -> get C0 ap' r c = get C0 ap c r) ->
  E_obs_cell npts ap' k l = E_obs_cell npts ap l k.
Proof.
  intros Ht. unfold E_obs_cell. rewrite sum_to_swap.
  apply sum_to_ext. intros c Hc. apply sum_to_ext. intros r Hr.
  rewrite Ht by assumption. rewrite (eTerm_cell_swap npts _ r c).
  rewrite (Cmult_comm (omega npts (k * r))). reflexivity.
Qed.

(** X10.  [occ_lc] treats rows and columns alike: the field of the transposed
    aperture is the transposed field.  A ring segment laid along the rows
    casts the shadow of the ring of [RingSeg_ap] turned by a quarter. *)
Theorem occ_lc_transpose npts (ap ap' : matrix C) :
  (0 < npts)%nat -> square npts ap -> square npts ap' ->
  (forall r c, (r < npts)%nat -> (c < npts)%nat -> get C0 ap' r c = get C0 ap c r) ->
  exists P P',
    occ_lc ap = Ok P /\ occ_lc ap' = Ok P' /\
    forall i j, (i < npts)%nat -> (j < npts)%nat -> get 0 P' i j = get 0 P j i.
Proof.
  intros Hn Hs Hs' Ht.
  destruct (occ_lc_Ok npts ap Hn Hs) as (P & HP & _ & Hget).
  destruct (occ_lc_Ok npts ap' Hn Hs') as (P' & HP' & _ & Hget').
  exists P, P'. split; [exact HP|]. split; [exact HP'|].
  intros i j Hi Hj. rewrite Hget', Hget by assumption.
  rewrite (E_obs_cell_transpose npts ap ap') by exact Ht. reflexivity.
Qed.

Lemma occ_lc_transpose_witness :
  (0 < 2)%nat /\
  square 2 [[RtoC 1; RtoC 0.5]; [RtoC 1; RtoC 0.5]] /\
  square 2 [[RtoC 1; RtoC 1]; [RtoC 0.5; RtoC 0.5]] /\
  (forall r c, (r < 2)%nat -> (c < 2)%nat ->
     get C0 [[RtoC 1; RtoC 1]; [RtoC 0.5; RtoC 0.5]] r c
     = get C0 [[RtoC 1; RtoC 0.5]; [RtoC 1; RtoC 0.5]] c r) /\
  exists P P',
    occ_lc [[RtoC 1; RtoC 0.5]; [RtoC 1; RtoC 0.5]] = Ok P /\
    occ_lc [[RtoC 1; RtoC 1]; [RtoC 0.5; RtoC 0.5]] = Ok P' /\
    forall i j, (i < 2)%nat -> (j < 2)%nat -> get 0 P' i j = get 0 P j i.
Proof.
  assert (H1 : (0 < 2)%nat) by lia.
  assert (H2 : square 2 [[RtoC 1; RtoC 0.5]; [RtoC 1; RtoC 0.5]])
    by (split; [reflexivity | repeat constructor]).
  assert (H3 : square 2 [[RtoC 1; RtoC 1]; [RtoC 0.5; RtoC 0.5]])
    by (split; [reflexivity | repeat constructor]).
  assert (H4 : forall r c, (r < 2)%nat -> (c < 2)%nat ->
     get C0 [[RtoC 1; RtoC 1]; [RtoC 0.5; RtoC 0.5]] r c
     = get C0 [[RtoC 1; RtoC 0.5]; [RtoC 1; RtoC 0.5]] c r).
  { intros [|[|r]] [|[|c]] Hr Hc; try lia; reflexivity. }
  split; [exact H1|]. split; [exact H2|]. split; [exact H3|]. split; [exact H4|].
  exact (occ_lc_transpose 2 _ _ H1 H2 H3 H4).
Defined.

(* ================================================================= *)
(** ** Beyond the claims: the interpolated transmission functions *)

Lemma searchsorted_le xs v : (searchsorted xs v <= length xs)%nat.
Proof.
  induction xs as [|x xs IH]; simpl; [lia|]. destruct (Rltb x v); lia.
Qed.

Lemma searchsorted_below xs v i :
  (i < searchsorted xs v)%nat -> nth i xs 0 < v.
Proof.
  revert i; induction xs as [|x xs IH]; simpl; intros i Hi; [lia|].
  destruct (Rltb x v) eqn:E; [|lia].
  destruct i as [|i]; [apply Rltb_true; exact E | apply IH; lia].
Qed.

Lemma searchsorted_at xs v :
  (searchsorted xs v < length xs)%nat -> v <= nth (searchsorted xs v) xs 0.
Proof.
  induction xs as [|x xs IH]; simpl; intros H; [lia|].
  destruct (Rltb x v) eqn:E.
  - apply IH. lia.
  - apply Rltb_false in E. lra.
Qed.

Lemma searchsorted_knot xs j :
  increasing xs -> (j < length xs)%nat -> searchsorted xs (nth j xs 0) = j.
Proof.
  intros Hinc Hj.
  pose proof (searchsorted_le xs (nth j xs 0)) as Hle.
  destruct (Nat.lt_trichotomy (searchsorted xs (nth j xs 0)) j) as [H|[H|H]].
  - pose proof (searchsorted_at xs (nth j xs 0) ltac:(lia)) as Hat.
    pose proof (Hinc _ _ H Hj). lra.
  - exact H.
  - pose proof (searchsorted_below xs (nth j xs 0) j H). lra.
Qed.

Lemma interp1d_outside xs ys v :
  v < nth 0 xs 0 \/ nth (length xs - 1) xs 0 < v ->
  interp1d xs ys v = Raise ValueError.
Proof.
  intros H. unfold interp1d.
  replace (Rltb v (nth 0 xs 0) || Rltb (nth (length xs - 1) xs 0) v) with true;
    [reflexivity|].
  symmetry. apply orb_true_iff.
  destruct H; [left | right]; apply Rltb_true; assumption.
Qed.

Lemma interp1d_inside xs ys v :
  nth 0 xs 0 <= v <= nth (length xs - 1) xs 0 ->
  interp1d xs ys v
  = let hi := Nat.min (Nat.max (searchsorted xs v) 1) (length xs - 1) in
    let lo := (hi - 1)%nat in
    Ok ((nth hi ys 0 - nth lo ys 0) / (nth hi xs 0 - nth lo xs 0)
        * (v - nth lo xs 0) + nth lo ys 0).
Proof.
  intros [H1 H2]. unfold interp1d.
  replace (Rltb v (nth 0 xs 0) || Rltb (nth (length xs - 1) xs 0) v) with false;
    [reflexivity|].
  symmetry. apply orb_false_iff. split; apply Rltb_false; lra.
Qed.

(** The two table entries used for [v] enclose it. *)
Lemma interp1d_bracket xs v :
  increasing xs -> (2 <= length xs)%nat ->
  nth 0 xs 0 <= v <= nth (length xs - 1) xs 0 ->
  let hi := Nat.min (Nat.max (searchsorted xs v) 1) (length xs - 1) in
  (1 <= hi)%nat /\ (hi < length xs)%nat /\
  nth (hi - 1) xs 0 <= v <= nth hi xs 0 /\ nth (hi - 1) xs 0 < nth hi xs 0.
Proof.
  intros Hinc Hn [H1 H2] hi.
  pose proof (searchsorted_le xs v) as Hle.
  assert (Hhi : (1 <= hi)%nat /\ (hi < length xs)%nat) by (unfold hi; lia).
  split; [tauto|]. split; [tauto|]. split.
  - destruct (Nat.eq_dec (searchsorted xs v) 0) as [E0|E0].
    + assert (hi = 1%nat) as -> by (unfold hi; lia). simpl.
      pose proof (searchsorted_at xs v ltac:(lia)) as Hat. rewrite E0 in Hat.
      pose proof (Hinc 0%nat 1%nat ltac:(lia) ltac:(lia)). lra.
    + destruct (Nat.eq_dec (searchsorted xs v) (length xs)) as [En|En].
      * pose proof (searchsorted_below xs v (length xs - 1) ltac:(lia)). lra.
      * assert (hi = searchsorted xs v) as -> by (unfold hi; lia).
        pose proof (searchsorted_below xs v (searchsorted xs v - 1) ltac:(lia)).
        pose proof (searchsorted_at xs v ltac:(lia)). lra.
  - apply Hinc; lia.
Qed.

Lemma interp1d_convex xs ys a b v :
  increasing xs -> (2 <= length xs)%nat -> length ys = length xs ->
  Forall (fun y => a <= y <= b) ys ->
  nth 0 xs 0 <= v <= nth (length xs - 1) xs 0 ->
  exists y, interp1d xs ys v = Ok y /\ a <= y <= b.
Proof.
  intros Hinc Hn Hlen Hys Hv.
  rewrite interp1d_inside by exact Hv. cbv zeta.
  destruct (interp1d_bracket xs v Hinc Hn Hv) as (H1 & H2 & H3 & H4).
  set (hi := Nat.min (Nat.max (searchsorted xs v) 1) (length xs - 1)) in *.
  rewrite Forall_forall in Hys.
  assert (Hlo : a <= nth (hi - 1) ys 0 <= b) by (apply Hys, nth_In; lia).
  assert (Hhi : a <= nth hi ys 0 <= b) by (apply Hys, nth_In; lia).
  eexists. split; [reflexivity|].
  set (d := nth hi xs 0 - nth (hi - 1) xs 0).
  set (t := (v - nth (hi - 1) xs 0) / d).
  assert (Hd : 0 < d) by (unfold d; lra).
  assert (Ht : 0 <= t <= 1).
  { unfold t. split.
    - apply Rmult_le_pos; [lra | left; apply Rinv_0_lt_compat; exact Hd].
    - apply (Rmult_le_reg_r d); [exact Hd|]. unfold Rdiv.
      rewrite Rmult_assoc, Rinv_l by lra. unfold d. lra. }
  replace ((nth hi ys 0 - nth (hi - 1) ys 0) / d * (v - nth (hi - 1) xs 0)
           + nth (hi - 1) ys 0)
    with (nth (hi - 1) ys 0 + (nth hi ys 0 - nth (hi - 1) ys 0) * t)
    by (unfold t; field; lra).
  split; nra.
Qed.

(** X11.  The interpolant stays within the range of its table: if every table
    value lies in [[a, b]], so does every value the interpolant answers;
    outside the table it answers nothing and raises [ValueError]. *)
Theorem interp1d_range xs ys a b v :
  increasing xs -> (2 <= length xs)%nat -> length ys = length xs ->
  Forall (fun y => a <= y <= b) ys ->
  (nth 0 xs 0 <= v <= nth (length xs - 1) xs 0 ->
     exists y, interp1d xs ys v = Ok y /\ a <= y <= b) /\
  (v < nth 0 xs 0 \/ nth (length xs - 1) xs 0 < v ->
     interp1d xs ys v = Raise ValueError).
Proof.
  intros Hinc Hn Hlen Hys. split; [|apply interp1d_outside].
  apply interp1d_convex; assumption.
Qed.

Lemma interp1d_range_witness :
  increasing [0; 1; 3] /\ (2 <= length [0; 1; 3])%nat /\
  length [1; 0.5; 1] = length [0; 1; 3] /\
  Forall (fun y => 0 <= y <= 1) [1; 0.5; 1] /\
  (nth 0 [0; 1; 3] 0 <= 2 <= nth (length [0; 1; 3] - 1) [0; 1; 3] 0 ->
     exists y, interp1d [0; 1; 3] [1; 0.5; 1] 2 = Ok y /\ 0 <= y <= 1) /\
  (2 < nth 0 [0; 1; 3] 0 \/ nth (length [0; 1; 3] - 1) [0; 1; 3] 0 < 2 ->
     interp1d [0; 1; 3] [1; 0.5; 1] 2 = Raise ValueError).
Proof.
  assert (H1 : increasing [0; 1; 3]).
  { intros [|[|[|i]]] [|[|[|j]]] Hij Hj; simpl in *; try lia; lra. }
  assert (H2 : (2 <= length [0; 1; 3])%nat) by (simpl; lia).
  assert (H3 : length [1; 0.5; 1] = length [0; 1; 3]) by reflexivity.
  assert (H4 : Forall (fun y => 0 <= y <= 1) [1; 0.5; 1])
    by (repeat constructor; lra).
  split; [exact H1|]. split; [exact H2|]. split; [exact H3|]. split; [exact H4|].
  exact (interp1d_range [0; 1; 3] [1; 0.5; 1] 0 1 2 H1 H2 H3 H4).
Defined.

Lemma interp1d_at_knot xs ys j :
  increasing xs -> (2 <= length xs)%nat -> (j < length xs)%nat ->
  interp1d xs ys (nth j xs 0) = Ok (nth j ys 0).
Proof.
  intros Hinc Hn Hj.
  assert (Hdom : nth 0 xs 0 <= nth j xs 0 <= nth (length xs - 1) xs 0).
  { split.
    - destruct j as [|j]; [lra|]. left. apply Hinc; lia.
    - destruct (Nat.eq_dec j (length xs - 1)) as [->|Hne]; [lra|].
      left. apply Hinc; lia. }
  rewrite interp1d_inside by exact Hdom. cbv zeta.
  rewrite searchsorted_knot by assumption.
  destruct j as [|j].
  - replace (Nat.min (Nat.max 0 1) (length xs - 1)) with 1%nat by lia.
    simpl (1 - 1)%nat. f_equal. ring.
  - replace (Nat.min (Nat.max (S j) 1) (length xs - 1)) with (S j) by lia.
    replace (S j - 1)%nat with j by lia.
    pose proof (Hinc j (S j) ltac:(lia) Hj) as Hlt.
    f_equal. field. lra.
Qed.

Lemma call_vec_nth t_r xs ys :
  length ys = length xs ->
  (forall j, (j < length xs)%nat -> t_r (nth j xs 0) = Ok (nth j ys 0)) ->
  call_vec t_r xs = Ok ys.
Proof.
  revert ys; induction xs as [|x xs IH]; intros [|y ys] Hl H; simpl in *;
    try discriminate; [reflexivity|].
  rewrite (H 0%nat ltac:(lia)). simpl.
  rewrite (IH ys) by (try lia; intros j Hj; apply (H (S j)); lia).
  reflexivity.
Qed.

(** X12.  Lines 187-196 call the interpolants on the points they were tabulated
    at.  For increasing points the interpolant returns the table there:
    one point gives its table value, and the whole array of points gives
    the whole table back. *)
Theorem interp1d_knots xs ys :
  increasing xs -> (2 <= length xs)%nat -> length ys = length xs ->
  (forall j, (j < length xs)%nat -> interp1d xs ys (nth j xs 0) = Ok (nth j ys 0)) /\
  call_vec (interp1d xs ys) xs = Ok ys.
Proof.
  intros Hinc Hn Hl.
  assert (H : forall j, (j < length xs)%nat ->
            interp1d xs ys (nth j xs 0) = Ok (nth j ys 0))
    by (intros j Hj; apply interp1d_at_knot; assumption).
  split; [exact H|]. apply call_vec_nth; assumption.
Qed.

Lemma interp1d_knots_witness :
  increasing [0; 1; 3] /\ (2 <= length [0; 1; 3])%nat /\
  length [1; 0.5; 1] = length [0; 1; 3] /\
  (forall j, (j < length [0; 1; 3])%nat ->
     interp1d [0; 1; 3] [1; 0.5; 1] (nth j [0; 1; 3] 0) = Ok (nth j [1; 0.5; 1] 0)) /\
  call_vec (interp1d [0; 1; 3] [1; 0.5; 1]) [0; 1; 3] = Ok [1; 0.5; 1].
Proof.
  assert (H1 : increasing [0; 1; 3]).
  { intros [|[|[|i]]] [|[|[|j]]] Hij Hj; simpl in *; try lia; lra. }
  assert (H2 : (2 <= length [0; 1; 3])%nat) by (simpl; lia).
  assert (H3 : length [1; 0.5; 1] = length [0; 1; 3]) by reflexivity.
  split; [exact H1|]. split; [exact H2|]. split; [exact H3|].
  exact (interp1d_knots [0; 1; 3] [1; 0.5; 1] H1 H2 H3).
Defined.

Lemma wVal_increasing wid nRad :
  0 < wid -> (2 <= nRad)%nat -> increasing (wVal wid nRad).
Proof.
  intros Hw Hn i j Hij Hj.
  unfold wVal in Hj. rewrite linspace_length in Hj.
  rewrite !wVal_nth by lia.
  assert (Hd : 0 < wid / INR (nRad - 1)).
  { apply Rmult_lt_0_compat; [exact Hw|].
    apply Rinv_0_lt_compat, lt_0_INR. lia. }
  assert (Hlt : INR i < INR j) by (apply lt_INR; exact Hij).
  nra.
Qed.

Lemma wVal_length wid nRad : length (wVal wid nRad) = nRad.
Proof. unfold wVal. apply linspace_length. Qed.

Lemma wVal_ends wid nRad :
  (2 <= nRad)%nat ->
  nth 0 (wVal wid nRad) 0 = - (0.5 * wid) /\
  nth (nRad - 1) (wVal wid nRad) 0 = 0.5 * wid.
Proof.
  intros Hn. rewrite !wVal_nth by lia. split.
  - simpl (INR 0). ring.
  - assert (H0 : INR (nRad - 1) <> 0) by (apply not_0_INR; lia).
    replace (INR (nRad - 1) * (wid / INR (nRad - 1))) with wid by (field; exact H0).
    lra.
Qed.

Lemma wVal_domain wid nRad x :
  (2 <= nRad)%nat ->
  (nth 0 (wVal wid nRad) 0 <= x <= nth (length (wVal wid nRad) - 1) (wVal wid nRad) 0
   <-> Rabs x <= wid / 2).
Proof.
  intros Hn. rewrite wVal_length.
  destruct (wVal_ends wid nRad Hn) as [-> ->].
  unfold Rabs. destruct (Rcase_abs x); split; intros; lra.
Qed.

(** X13.  Lines 139 and 171-176 with line 203: for a positive wavelength and
    distance, an interpolant tabulated at [np.linspace(-wid/2, wid/2, nRad)]
    answers on the whole ring, so [RingSeg_ap] called with the same ring
    width returns on it, whatever the table holds; and if the table holds
    transmissions between 0 and 1, so does every cell of the aperture. *)
Theorem RingSeg_ap_interp1d lam D npts wid nRad ys :
  0 < lam -> 0 < D ->
  (0 < npts)%nat -> 0 < wid -> (2 <= nRad)%nat -> length ys = nRad ->
  exists ap FOV gridSz,
    RingSeg_ap lam D npts wid (interp1d (wVal wid nRad) ys) = Ok (ap, FOV, gridSz) /\
    square npts ap /\
    (Forall (fun y => 0 <= y <= 1) ys ->
     forall r c, (r < npts)%nat -> (c < npts)%nat -> 0 <= get 0 ap r c <= 1).
Proof.
  intros _ _ Hn Hw HnR Hlen.
  pose proof (wVal_increasing wid nRad Hw HnR) as Hinc.
  assert (Hl2 : (2 <= length (wVal wid nRad))%nat) by (rewrite wVal_length; exact HnR).
  assert (Hl : length ys = length (wVal wid nRad)) by (rewrite wVal_length; exact Hlen).
  assert (Hdom : forall x, Rabs x <= wid / 2 ->
            exists v, interp1d (wVal wid nRad) ys x = Ok v).
  { intros x Hx. eexists.
    apply interp1d_inside. apply wVal_domain; assumption. }
  assert (Hn0 : npts <> O) by lia.
  pose proof (RingSeg_ap_Ok lam D npts wid _ _ Hn0
                (ring_queries_answered lam D npts wid _ Hdom)) as Hap.
  eexists _, _, _. split; [exact Hap|].
  split; [exact (RingSeg_ap_square lam D npts wid _ _ _ _ Hap)|].
  intros Hys r c Hr Hc.
  assert (Hans : forall x, Rabs x <= wid / 2 ->
            exists y, interp1d (wVal wid nRad) ys x = Ok y /\ 0 <= y <= 1).
  { intros x Hx.
    apply (interp1d_convex (wVal wid nRad) ys 0 1 x Hinc Hl2 Hl Hys).
    apply wVal_domain; assumption. }
  destruct (RingSeg_ap_get lam D npts wid _ _ _ _ r c Hap Hr Hc) as [_ ->].
  unfold ring_cell. destruct (Rleb _ (0.5 * wid)) eqn:E; [|lra].
  apply Rleb_true in E.
  match type of E with
  | Rabs ?x <= _ => destruct (Hans x ltac:(lra)) as (y & Hy & Hr01)
  end.
  unfold tval. rewrite Hy. exact Hr01.
Qed.

Lemma RingSeg_ap_interp1d_witness :
  0 < 1 /\ 0 < 3600e9 /\
  (0 < 4)%nat /\ 0 < 46 /\ (2 <= 3)%nat /\ length [1; 0.5; 1] = 3%nat /\
  exists ap FOV gridSz,
    RingSeg_ap 1 3600e9 4 46 (interp1d (wVal 46 3) [1; 0.5; 1])
    = Ok (ap, FOV, gridSz) /\
    square 4 ap /\
    (Forall (fun y => 0 <= y <= 1) [1; 0.5; 1] ->
     forall r c, (r < 4)%nat -> (c < 4)%nat -> 0 <= get 0 ap r c <= 1).
Proof.
  assert (Hl : 0 < 1) by lra.
  assert (HD : 0 < 3600e9) by lra.
  assert (H1 : (0 < 4)%nat) by lia.
  assert (H2 : 0 < 46) by lra.
  assert (H3 : (2 <= 3)%nat) by lia.
  assert (H4 : length [1; 0.5; 1] = 3%nat) by reflexivity.
  split; [exact Hl|]. split; [exact HD|].
  split; [exact H1|]. split; [exact H2|]. split; [exact H3|].
  split; [exact H4|].
  exact (RingSeg_ap_interp1d 1 3600e9 4 46 3 [1; 0.5; 1] Hl HD H1 H2 H3 H4).
Defined.

(** A table outside [[0, 1]]: the aperture built from [3, -2, 7] is returned
    all the same, and its centre column holds the tabulated [-2]. *)
Example interp1d_aperture_any_table :
  exists ap FOV gridSz,
    RingSeg_ap 1 3600e9 4 46 (interp1d (wVal 46 3) [3; -2; 7])
    = Ok (ap, FOV, gridSz) /\
    get 0 ap 0 2 = -2.
Proof.
  assert (Hd : forall x, Rabs x <= 46 / 2 ->
            exists v, interp1d (wVal 46 3) [3; -2; 7] x = Ok v).
  { intros x Hx. eexists.
    apply interp1d_inside. apply wVal_domain; [lia | exact Hx]. }
  pose proof (RingSeg_ap_Ok 1 3600e9 4 46 _ _ ltac:(discriminate)
                (ring_queries_answered 1 3600e9 4 46 _ Hd)) as Hap.
  eexists _, _, _. split; [exact Hap|].
  destruct (RingSeg_ap_get 1 3600e9 4 46 _ _ _ _ 0 2 Hap ltac:(lia) ltac:(lia))
    as [_ ->].
  rewrite sqrt_900.
  replace ((INR 2 - INR (4 / 2)) * 30) with (nth 1 (wVal 46 3) 0)
    by (unfold wVal, linspace; simpl; lra).
  unfold ring_cell, tval.
  rewrite interp1d_at_knot;
    [| apply wVal_increasing; [lra | lia] | rewrite wVal_length; lia
     | rewrite wVal_length; lia].
  replace (nth 1 (wVal 46 3) 0) with 0 by (unfold wVal, linspace; simpl; lra).
  rewrite Rabs_R0.
  replace (Rleb 0 (0.5 * 46)) with true by (symmetry; apply Rleb_true; lra).
  reflexivity.
Qed.

Lemma flat_table_nth tau nRad i :
  (i < nRad)%nat ->
  nth i (map (fun t => exp (- t)) (tauFlat tau nRad)) 0 = exp (- tau).
Proof.
  intros Hi. unfold tauFlat.
  rewrite (nth_map_in (fun t => exp (- t)) _ i 0 0)
    by (rewrite length_map, repeat_length; exact Hi).
  rewrite (nth_map_in (fun o => tau * o) _ i 0 0)
    by (rewrite repeat_length; exact Hi).
  rewrite nth_repeat_in by exact Hi. rewrite Rmult_1_r. reflexivity.
Qed.

(** X14.  Lines 139-143 and 171-172: the interpolant of a flat optical depth
    [tau], tabulated at two points or more across a ring of positive
    width, is the constant [exp(-tau)] on [[-wid/2, wid/2]] and raises
    [ValueError] outside.  With [wid = 46] and [tau = 0.1] it is the
    transmission function [tF1] of the scenario. *)
Theorem flat_transmission_constant wid tau nRad x :
  0 < wid -> (2 <= nRad)%nat ->
  flat_transmission wid tau nRad x
  = (if Rleb (Rabs x) (0.5 * wid) then Ok (exp (- tau)) else Raise ValueError) /\
  (wid = scenario_wid -> tau = 0.1 -> flat_transmission wid tau nRad x = tF1 x).
Proof.
  intros Hw Hn.
  assert (H : flat_transmission wid tau nRad x
              = if Rleb (Rabs x) (0.5 * wid) then Ok (exp (- tau))
                else Raise ValueError);
    [|split; [exact H|]; intros -> ->; rewrite H; unfold tF1;
      replace (- (0.1)) with (- 0.1) by lra; reflexivity].
  unfold flat_transmission.
  destruct (Rleb (Rabs x) (0.5 * wid)) eqn:E.
  - apply Rleb_true in E.
    assert (Hd : Rabs x <= wid / 2) by lra.
    apply (wVal_domain wid nRad x Hn) in Hd.
    rewrite interp1d_inside by exact Hd. cbv zeta. rewrite wVal_length.
    rewrite !flat_table_nth by lia. f_equal. unfold Rdiv. ring.
  - apply Rleb_false in E. apply interp1d_outside.
    rewrite wVal_length. destruct (wVal_ends wid nRad Hn) as [-> ->].
    unfold Rabs in E. destruct (Rcase_abs x); [left | right]; lra.
Qed.

Lemma flat_transmission_constant_witness :
  0 < scenario_wid /\ (2 <= 100)%nat /\
  flat_transmission scenario_wid 0.1 100 1
  = (if Rleb (Rabs 1) (0.5 * scenario_wid) then Ok (exp (- (0.1)))
     else Raise ValueError) /\
  (scenario_wid = scenario_wid -> 0.1 = 0.1 ->
   flat_transmission scenario_wid 0.1 100 1 = tF1 1).
Proof.
  assert (H1 : 0 < scenario_wid) by (unfold scenario_wid; lra).
  assert (H2 : (2 <= 100)%nat) by lia.
  split; [exact H1|]. split; [exact H2|].
  exact (flat_transmission_constant scenario_wid 0.1 100 1 H1 H2).
Defined.

(** Any two neighbouring table entries that enclose [v] give the value of
    the interpolant at [v]. *)
Lemma interp1d_any_bracket xs ys v i :
  increasing xs -> (2 <= length xs)%nat ->
  nth 0 xs 0 <= v <= nth (length xs - 1) xs 0 ->
  (1 <= i)%nat -> (i < length xs)%nat ->
  nth (i - 1) xs 0 <= v <= nth i xs 0 ->
  interp1d xs ys v
  = Ok (nth (i - 1) ys 0
        + (nth i ys 0 - nth (i - 1) ys 0)
          * ((v - nth (i - 1) xs 0) / (nth i xs 0 - nth (i - 1) xs 0))).
Proof.
  intros Hinc Hn Hv Hi1 Hi2 Hb.
  rewrite interp1d_inside by exact Hv. cbv zeta.
  destruct (interp1d_bracket xs v Hinc Hn Hv) as (H1 & H2 & H3 & H4).
  set (hi := Nat.min (Nat.max (searchsorted xs v) 1) (length xs - 1)) in *.
  assert (Hstep : nth (i - 1) xs 0 < nth i xs 0) by (apply Hinc; lia).
  assert (Hmono : forall p q, (p <= q)%nat -> (q < length xs)%nat ->
            nth p xs 0 <= nth q xs 0).
  { intros p q Hpq Hq. destruct (Nat.eq_dec p q) as [->|Hne]; [lra|].
    left. apply Hinc; lia. }
  destruct (Nat.lt_trichotomy i hi) as [Hlt|[->|Hgt]].
  - (* the bracket found lies to the right: v is the shared table point *)
    pose proof (Hmono i (hi - 1)%nat ltac:(lia) ltac:(lia)) as Hm.
    assert (Hv1 : v = nth i xs 0) by lra.
    assert (Hi' : (hi - 1)%nat = i).
    { destruct (Nat.eq_dec (hi - 1) i) as [E|E]; [exact E|].
      pose proof (Hinc i (hi - 1)%nat ltac:(lia) ltac:(lia)). lra. }
    rewrite Hi' in *. rewrite Hv1. f_equal. field. split; lra.
  - f_equal. field. lra.
  - (* the bracket found lies to the left *)
    pose proof (Hmono hi (i - 1)%nat ltac:(lia) ltac:(lia)) as Hm.
    assert (Hv1 : v = nth hi xs 0) by lra.
    assert (Hi' : (i - 1)%nat = hi).
    { destruct (Nat.eq_dec (i - 1) hi) as [E|E]; [exact E|].
      pose proof (Hinc hi (i - 1)%nat ltac:(lia) ltac:(lia)). lra. }
    rewrite Hi' in *. rewrite Hv1. f_equal. field. split; lra.
Qed.

Lemma even_table_interp xs ys v :
  increasing xs -> (2 <= length xs)%nat ->
  (forall i, (i < length xs)%nat -> nth (length xs - 1 - i) xs 0 = - nth i xs 0) ->
  (forall i, (i < length xs)%nat -> nth (length xs - 1 - i) ys 0 = nth i ys 0) ->
  nth 0 xs 0 <= v <= nth (length xs - 1) xs 0 ->
  interp1d xs ys (- v) = interp1d xs ys v.
Proof.
  intros Hinc Hn Hxs Hys Hv.
  destruct (interp1d_bracket xs v Hinc Hn Hv) as (H1 & H2 & H3 & H4).
  set (hi := Nat.min (Nat.max (searchsorted xs v) 1) (length xs - 1)) in *.
  set (n := length xs) in *.
  pose proof (Hxs 0%nat ltac:(lia)) as Hx0. rewrite Nat.sub_0_r in Hx0.
  assert (Hv' : nth 0 xs 0 <= - v <= nth (n - 1) xs 0) by lra.
  pose proof (Hxs hi H2) as Exh. pose proof (Hxs (hi - 1)%nat ltac:(lia)) as Exl.
  pose proof (Hys hi H2) as Eyh. pose proof (Hys (hi - 1)%nat ltac:(lia)) as Eyl.
  replace (n - 1 - (hi - 1))%nat with (n - hi)%nat in Exl, Eyl by lia.
  rewrite (interp1d_any_bracket xs ys v hi Hinc Hn Hv H1 H2 H3).
  rewrite (interp1d_any_bracket xs ys (- v) (n - hi) Hinc Hn Hv')
    by (try (fold n); try lia;
        replace (n - hi - 1)%nat with (n - 1 - hi)%nat by lia; lra).
  replace (n - hi - 1)%nat with (n - 1 - hi)%nat by lia.
  rewrite Exh, Exl, Eyh, Eyl. f_equal. field. lra.
Qed.

(** X15.  An interpolant built from a table that is mirror symmetric, in its
    points and in its values, is an even function on its domain. *)
Theorem interp1d_even xs ys v :
  increasing xs -> (2 <= length xs)%nat -> length ys = length xs ->
  (forall i, (i < length xs)%nat -> nth (length xs - 1 - i) xs 0 = - nth i xs 0) ->
  (forall i, (i < length xs)%nat -> nth (length xs - 1 - i) ys 0 = nth i ys 0) ->
  nth 0 xs 0 <= v <= nth (length xs - 1) xs 0 ->
  interp1d xs ys (- v) = interp1d xs ys v.
Proof.
  intros Hinc Hn _ Hxs Hys Hv. apply even_table_interp; assumption.
Qed.

Lemma interp1d_even_witness :
  increasing [-1; 0; 1] /\ (2 <= length [-1; 0; 1]%R)%nat /\
  length [1; 0.5; 1] = length [-1; 0; 1]%R /\
  (forall i, (i < length [-1; 0; 1]%R)%nat ->
     nth (length [-1; 0; 1]%R - 1 - i) [-1; 0; 1] 0 = - nth i [-1; 0; 1] 0) /\
  (forall i, (i < length [-1; 0; 1]%R)%nat ->
     nth (length [-1; 0; 1]%R - 1 - i) [1; 0.5; 1] 0 = nth i [1; 0.5; 1] 0) /\
  nth 0 [-1; 0; 1] 0 <= 0.5 <= nth (length [-1; 0; 1]%R - 1) [-1; 0; 1] 0 /\
  interp1d [-1; 0; 1] [1; 0.5; 1] (- (0.5)) = interp1d [-1; 0; 1] [1; 0.5; 1] 0.5.
Proof.
  assert (H1 : increasing [-1; 0; 1]).
  { intros [|[|[|i]]] [|[|[|j]]] Hij Hj; simpl in *; try lia; lra. }
  assert (H2 : (2 <= length [-1; 0; 1]%R)%nat) by (simpl; lia).
  assert (H3 : length [1; 0.5; 1] = length [-1; 0; 1]%R) by reflexivity.
  assert (H4 : forall i, (i < length [-1; 0; 1]%R)%nat ->
     nth (length [-1; 0; 1]%R - 1 - i) [-1; 0; 1] 0 = - nth i [-1; 0; 1] 0).
  { intros [|[|[|i]]] Hi; simpl in *; try lia; lra. }
  assert (H5 : forall i, (i < length [-1; 0; 1]%R)%nat ->
     nth (length [-1; 0; 1]%R - 1 - i) [1; 0.5; 1] 0 = nth i [1; 0.5; 1] 0).
  { intros [|[|[|i]]] Hi; simpl in *; try lia; reflexivity. }
  assert (H6 : nth 0 [-1; 0; 1] 0 <= 0.5 <= nth (length [-1; 0; 1]%R - 1) [-1; 0; 1] 0)
    by (simpl; lra).
  split; [exact H1|]. split; [exact H2|]. split; [exact H3|]. split; [exact H4|].
  split; [exact H5|]. split; [exact H6|].
  exact (interp1d_even [-1; 0; 1] [1; 0.5; 1] 0.5 H1 H2 H3 H4 H5 H6).
Defined.

(* ================================================================= *)
(** ** Beyond the claims: from the profile tables to the lightcurve *)

(** The field of an aperture that is mirror symmetric along its rows is
    mirror symmetric about the centre column. *)
Lemma occ_lc_mirror_rows npts (ap : matrix C) :
  Nat.Even npts -> (0 < npts)%nat -> square npts ap ->
  (forall r c, (r < npts)%nat -> (c < npts)%nat ->
     get C0 ap r (mirror npts c) = get C0 ap r c) ->
  exists P, occ_lc ap = Ok P /\
    forall i k, (i < npts)%nat -> (0 < k < npts / 2)%nat ->
      get 0 P i (npts / 2 + k) = get 0 P i (npts / 2 - k).
Proof.
  intros He Hn Hs Hsym.
  destruct (occ_lc_Ok npts ap Hn Hs) as (P & HP & _ & Hget).
  exists P. split; [exact HP|]. intros i k Hi Hk.
  pose proof (Even_half_double npts He) as H2.
  rewrite !Hget by lia.
  rewrite shifted_right, shifted_left by lia.
  rewrite E_obs_cell_mirror by (try assumption; lia). reflexivity.
Qed.

(** X16.  Lines 139-176 and 203-210 together.  A transmission table that reads
    the same from either edge of the ring (as the flat and the parabolic
    tables of the script do), tabulated at
    [np.linspace(-wid/2, wid/2, nRad)], gives for an even [npts] an
    aperture and a field without error, and every row of the field is
    mirror symmetric about the centre index [npts/2]. *)
Theorem symmetric_table_symmetric_field lam D npts wid nRad ys :
  Nat.Even npts -> (0 < npts)%nat -> 0 < wid -> (2 <= nRad)%nat ->
  length ys = nRad ->
  (forall i, (i < nRad)%nat -> nth (nRad - 1 - i) ys 0 = nth i ys 0) ->
  exists ap FOV gridSz P,
    RingSeg_ap lam D npts wid (interp1d (wVal wid nRad) ys) = Ok (ap, FOV, gridSz) /\
    occ_lc (to_complex ap) = Ok P /\
    forall i k, (i < npts)%nat -> (0 < k < npts / 2)%nat ->
      get 0 P i (npts / 2 + k) = get 0 P i (npts / 2 - k).
Proof.
  intros He Hn Hw HnR Hlen Hys.
  set (t_r := interp1d (wVal wid nRad) ys).
  pose proof (wVal_increasing wid nRad Hw HnR) as Hinc.
  assert (Hl2 : (2 <= length (wVal wid nRad))%nat) by (rewrite wVal_length; exact HnR).
  assert (Hdom : forall x, Rabs x <= wid / 2 -> exists v, t_r x = Ok v).
  { intros x Hx. unfold t_r. rewrite interp1d_inside
      by (apply wVal_domain; assumption).
    eexists; reflexivity. }
  assert (Heven : forall x, Rabs x <= wid / 2 -> t_r (- x) = t_r x).
  { intros x Hx. unfold t_r. apply even_table_interp; try assumption.
    - rewrite wVal_length. intros i Hi. apply wVal_mirror; assumption.
    - rewrite wVal_length. exact Hys.
    - apply wVal_domain; assumption. }
  assert (Hn0 : npts <> O) by lia.
  pose proof (RingSeg_ap_Ok lam D npts wid t_r _ Hn0
                (ring_queries_answered lam D npts wid t_r Hdom)) as Hap.
  set (ap := map2 (map2 (ring_cell (0.5 * wid) (tval t_r)))
               (ones npts npts) (ring_grid lam D npts)) in *.
  pose proof (RingSeg_ap_square lam D npts wid t_r ap _ _ Hap) as Hsq.
  destruct (occ_lc_mirror_rows npts (to_complex ap) He Hn
              (square_map RtoC npts ap Hsq)) as (P & HP & Hsym).
  { intros r c Hr Hc. unfold to_complex.
    rewrite !(get_map RtoC npts ap r _ C0 0) by (auto using mirror_lt).
    f_equal.
    apply (RingSeg_ap_mirror lam D npts wid t_r ap _ _ r c Hap He Heven Hr Hc). }
  eexists ap, _, _, P. split; [exact Hap|]. split; [exact HP|]. exact Hsym.
Qed.

Lemma symmetric_table_symmetric_field_witness :
  Nat.Even 8 /\ (0 < 8)%nat /\ 0 < 46 /\ (2 <= 3)%nat /\
  length [1; 0.5; 1] = 3%nat /\
  (forall i, (i < 3)%nat -> nth (3 - 1 - i) [1; 0.5; 1] 0 = nth i [1; 0.5; 1] 0) /\
  exists ap FOV gridSz P,
    RingSeg_ap 0.5 (43 * 150e6) 8 46 (interp1d (wVal 46 3) [1; 0.5; 1])
    = Ok (ap, FOV, gridSz) /\
    occ_lc (to_complex ap) = Ok P /\
    forall i k, (i < 8)%nat -> (0 < k < 8 / 2)%nat ->
      get 0 P i (8 / 2 + k) = get 0 P i (8 / 2 - k).
Proof.
  assert (H1 : Nat.Even 8) by (exists 4%nat; reflexivity).
  assert (H2 : (0 < 8)%nat) by lia.
  assert (H3 : 0 < 46) by lra.
  assert (H4 : (2 <= 3)%nat) by lia.
  assert (H5 : length [1; 0.5; 1] = 3%nat) by reflexivity.
  assert (H6 : forall i, (i < 3)%nat ->
            nth (3 - 1 - i) [1; 0.5; 1] 0 = nth i [1; 0.5; 1] 0).
  { intros [|[|[|i]]] Hi; simpl in *; try lia; reflexivity. }
  split; [exact H1|]. split; [exact H2|]. split; [exact H3|]. split; [exact H4|].
  split; [exact H5|]. split; [exact H6|].
  exact (symmetric_table_symmetric_field 0.5 (43 * 150e6) 8 46 3 [1; 0.5; 1]
           H1 H2 H3 H4 H5 H6).
Defined.
